(** * shaka-player: PSSH init-data normalisation, the key-status map and the
      MP4-embedded TTML extractor

    A shallow embedding of
      - lib/polyfill/patchedmediakeys_ms.js
          ([normaliseInitData_], [MediaKeyStatusMap]) and
      - lib/text/mp4_ttml_parser.js
          ([parseInit], [parseFirstCue], [parseMedia], [parseMediaInternal_]),
    together with the box parser and the PSSH boundary scanner they drive.

    Byte buffers are [list byte]; typed-array views are records over a store
    of array buffers, so that "the same array" and "a fresh copy" differ;
    JavaScript exceptions are an error monad. *)

From Stdlib Require Import List ZArith NArith Lia Bool String Ascii Arith.
From Stdlib Require Import Strings.Byte.
Import ListNotations.

Set Implicit Arguments.

Local Open Scope list_scope.

Definition bytes := list byte.

(* ================================================================== *)
(** ** Byte buffers *)

Module BufferUtils.

(** Modelled from the spec: [shaka.util.BufferUtils.equal] is not among the
    sources; the deduplication contract asks for "byte-for-byte equality",
    that is equal lengths and equal bytes at every index. *)
Fixpoint equal (x y : bytes) : bool :=
  match x, y with
  | [], [] => true
  | a :: x', b :: y' => Byte.eqb a b && equal x' y'
  | _, _ => false
  end.

End BufferUtils.

(** A [Uint8Array] is a view (offset, length) on an [ArrayBuffer]; buffers
    live in a store and are named by their index in it. *)
Record Uint8Array : Type := mkView {
  buffer : nat;
  byteOffset : nat;
  byteLength : nat
}.

Definition store := list bytes.

Definition bufferBytes (h : store) (id : nat) : bytes := nth id h [].

(** The bytes a view shows. *)
Definition contents (h : store) (a : Uint8Array) : bytes :=
  firstn (byteLength a) (skipn (byteOffset a) (bufferBytes h (buffer a))).

(** Relative index of %TypedArray%.prototype.subarray: negative values count
    from the end, and the result is clamped to [0, len]. *)
Definition relativeIndex (len i : Z) : Z :=
  if (i <? 0)%Z then Z.max (len + i) 0 else Z.min i len.

(** [a.subarray(begin, end)]: a new view on the SAME buffer. *)
Definition subarray (a : Uint8Array) (begin end_ : Z) : Uint8Array :=
  let len := Z.of_nat (byteLength a) in
  let b := relativeIndex len begin in
  let e := relativeIndex len end_ in
  mkView (buffer a) (byteOffset a + Z.to_nat b) (Z.to_nat (Z.max (e - b) 0)).

(** The same operation on the bytes themselves. *)
Definition slice (l : bytes) (begin end_ : Z) : bytes :=
  let len := Z.of_nat (List.length l) in
  let b := relativeIndex len begin in
  let e := relativeIndex len end_ in
  firstn (Z.to_nat (Z.max (e - b) 0)) (skipn (Z.to_nat b) l).

(** JavaScript's [null], [undefined] or an object. *)
Inductive nullable (A : Type) : Type :=
| null : nullable A
| undefined : nullable A
| obj : A -> nullable A.
Arguments null {A}.
Arguments undefined {A}.
Arguments obj {A} _.

(* ================================================================== *)
(** ** Big-endian integers *)

Definition byte_of_N (n : N) : byte :=
  match Byte.of_N (n mod 256) with Some b => b | None => x00 end.

Fixpoint be_decode (l : bytes) (acc : N) : N :=
  match l with
  | [] => acc
  | b :: l' => be_decode l' (acc * 256 + Byte.to_N b)%N
  end.

Definition readUint (l : bytes) : N := be_decode l 0%N.

Definition be32 (n : N) : bytes :=
  [byte_of_N (n / 16777216); byte_of_N (n / 65536); byte_of_N (n / 256);
   byte_of_N n].

(* ================================================================== *)
(** ** lib/polyfill/patchedmediakeys_ms.js *)

Module Pssh.

(** One entry of [pssh.dataBoundaries]. *)
Record dataBoundary : Type := mkBoundary { start : Z; end_ : Z }.

(** Modelled from the spec: [shaka.util.Pssh] is not among the sources.
    This is the spec's PSSH Boundary Scanner: from offset 0, repeatedly read
    a box header (32-bit big-endian size, 4-byte type, a 64-bit size when
    the 32-bit one is 1, size 0 meaning "to the end of the buffer"); when the
    header is well-formed and the declared end does not exceed the buffer,
    record the box and go on from its end; otherwise stop and keep what was
    found.  The [end] recorded is the offset of the LAST byte of the box:
    this is the convention of the one caller in the sources, which cuts a
    box out with [subarray(start, end + 1)], so that two 32-byte boxes give
    the records [{0, 31}] and [{32, 63}].  [rest] is the buffer from [off]
    on. *)
Fixpoint scan (fuel : nat) (off : nat) (rest : bytes) : list dataBoundary :=
  match fuel with
  | O => []
  | S fuel' =>
      let avail := N.of_nat (List.length rest) in
      if (avail <? 8)%N then [] else
      let size32 := readUint (firstn 4 rest) in
      let hdr := if (size32 =? 1)%N then 16%N else 8%N in
      if (avail <? hdr)%N then [] else
      let declared :=
        if (size32 =? 0)%N then avail
        else if (size32 =? 1)%N then readUint (firstn 8 (skipn 8 rest))
        else size32 in
      if (declared <? hdr)%N then []
      else if (avail <? declared)%N then []
      else
        let size := N.to_nat declared in
        mkBoundary (Z.of_nat off) (Z.of_nat (off + size) - 1)
          :: scan fuel' (off + size) (skipn size rest)
  end.

Definition dataBoundaries (data : bytes) : list dataBoundary :=
  scan (List.length data) 0 data.

End Pssh.

Module Uint8ArrayUtils.

(** Modelled from the spec: [shaka.util.Uint8ArrayUtils.concat] is not among
    the sources; the retained regions are "concatenated back together in
    original order".  The result is a view on a newly allocated buffer. *)
Definition concat (arrays : list Uint8Array) (h : store) : Uint8Array * store :=
  let all := List.concat (map (contents h) arrays) in
  (mkView (List.length h) 0 (List.length all), h ++ [all]).

End Uint8ArrayUtils.

Module PatchedMediaKeysMs.

Import Pssh.

(** What a call can do to the world: allocate buffers, and construct
    [shaka.util.Pssh] objects (the boundary scans, logged in call order). *)
Record world : Type := mkWorld {
  heap : store;
  psshScans : list Uint8Array
}.

Section NormaliseInitData.

(** [new shaka.util.Pssh(initData).dataBoundaries], as a function of the
    bytes the view shows. *)
Variable dataBoundariesOf : bytes -> list dataBoundary.

(** The loop "Dedupe psshData": [dedupedInitDatas] grows by the regions that
    are [BufferUtils.equal] to none already kept. *)
Definition dedupeStep (h : store) (dedupedInitDatas : list Uint8Array)
    (initData : Uint8Array) : list Uint8Array :=
  let found :=
    existsb (fun x => BufferUtils.equal (contents h x) (contents h initData))
            dedupedInitDatas in
  if negb found then dedupedInitDatas ++ [initData] else dedupedInitDatas.

Definition dedupe (h : store) (unfilteredInitDatas : list Uint8Array)
    : list Uint8Array :=
  fold_left (dedupeStep h) unfilteredInitDatas [].

(** The loop that fills [unfilteredInitDatas]. *)
Definition sliceBoundaries (initData : Uint8Array)
    (bs : list dataBoundary) : list Uint8Array :=
  map (fun dataBoundary =>
         subarray initData (start dataBoundary) (end_ dataBoundary + 1))
      bs.

Definition normaliseInitData_ (initData : nullable Uint8Array) (w : world)
    : nullable Uint8Array * world :=
  match initData with
  | null | undefined => (initData, w)   (* if (!initData) return initData *)
  | obj a =>
      let pssh := dataBoundariesOf (contents (heap w) a) in
      let w1 := mkWorld (heap w) (psshScans w ++ [a]) in
      if List.length pssh <=? 1 then (initData, w1)
      else
        let unfilteredInitDatas := sliceBoundaries a pssh in
        let dedupedInitDatas := dedupe (heap w1) unfilteredInitDatas in
        let (r, h') := Uint8ArrayUtils.concat dedupedInitDatas (heap w1) in
        (obj r, mkWorld h' (psshScans w1))
  end.

End NormaliseInitData.

(** *** MediaKeyStatusMap *)

(** A value of type [string|undefined]. *)
Definition status_t := option string.

Record MediaKeyStatusMap : Type := mkStatusMap {
  size : nat;
  status_ : status_t
}.

(** [constructor()] *)
Definition newMediaKeyStatusMap : MediaKeyStatusMap := mkStatusMap 0 None.

(** [status == undefined] *)
Definition looselyUndefined (status : status_t) : bool :=
  match status with None => true | Some _ => false end.

Definition setStatus (status : status_t) (m : MediaKeyStatusMap)
    : MediaKeyStatusMap :=
  mkStatusMap (if looselyUndefined status then 0 else 1) status.

Definition getStatus (m : MediaKeyStatusMap) : status_t := status_ m.

(** The map after a sequence of [setStatus] calls on a new map. *)
Definition afterCalls (calls : list status_t) : MediaKeyStatusMap :=
  fold_left (fun m s => setStatus s m) calls newMediaKeyStatusMap.

(** The invariant: [size] is 1 with a status set and 0 without. *)
Definition sizeInvariant (m : MediaKeyStatusMap) : Prop :=
  size m = match status_ m with Some _ => 1 | None => 0 end.

(** *** The rest of the class: events, system access, keys and sessions *)

(** A JavaScript [Error] object: its [name], its [message], and the
    [code] or [errorCode] the source attaches to it, if any. *)
Record jsError : Type := mkError {
  errName : string;
  errMessage : string;
  errCode : option nat
}.

(** How a call ends: with a value, or with a thrown error. *)
Inductive completion (A : Type) : Type :=
| Normal : A -> completion A
| Abrupt : jsError -> completion A.
Arguments Normal {A} _.
Arguments Abrupt {A} _.

(** The state of a promise. *)
Inductive promiseState : Type :=
| Pending : promiseState
| Resolved : promiseState
| Rejected : jsError -> promiseState.

(** Truthiness of a value of type [string|undefined]: the empty string and
    [undefined] are falsy. *)
Definition truthyString (s : option string) : bool :=
  match s with
  | Some s' => negb (String.eqb s' EmptyString)
  | None => false
  end.

(** The [CustomEvent] that [onMsNeedKey_] makes. *)
Record EncryptedEvent : Type := mkEncrypted {
  eventType : string;
  bubbles : bool;
  cancelable : bool;
  initDataType : string;
  initData : nullable Uint8Array
}.

Section NeedKey.

Variable dataBoundariesOf : bytes -> list dataBoundary.

(** [onMsNeedKey_(event)], given [event.initData]: the events dispatched on
    the media element, and the world afterwards. *)
Definition onMsNeedKey_ (event_initData : nullable Uint8Array) (w : world)
    : list EncryptedEvent * world :=
  match event_initData with
  | null | undefined => ([], w)            (* if (!event.initData) return *)
  | obj _ =>
      let (normalised, w') :=
        normaliseInitData_ dataBoundariesOf event_initData w in
      ([mkEncrypted "encrypted" false false "cenc" normalised], w')
  end.

End NeedKey.

(** *** MediaKeyStatusMap, the queries *)

Section StatusMapQueries.

(** [shaka.media.DrmEngine.DUMMY_KEY_ID.value()] *)
Variable DUMMY_KEY_ID : bytes.

(** [forEach(fn)]: the calls [fn] receives, as (status, key id). *)
Definition forEach (m : MediaKeyStatusMap) : list (string * bytes) :=
  match status_ m with
  | Some s => if truthyString (status_ m) then [(s, DUMMY_KEY_ID)] else []
  | None => []
  end.

Definition has (keyId : bytes) (m : MediaKeyStatusMap) : bool :=
  let fakeKeyId := DUMMY_KEY_ID in
  if truthyString (status_ m) && BufferUtils.equal keyId fakeKeyId
  then true else false.

Definition get (keyId : bytes) (m : MediaKeyStatusMap) : status_t :=
  if has keyId m then status_ m else None.

End StatusMapQueries.

(** *** MediaKeySystemAccess *)

Record MediaKeySystemMediaCapability : Type := mkCapability {
  contentType : option string;
  robustness : option string
}.

(** A [MediaKeySystemConfiguration] dictionary; an absent member is
    [None]. *)
Record MediaKeySystemConfiguration : Type := mkConfiguration {
  label : option string;
  initDataTypes : option (list string);
  audioCapabilities : option (list MediaKeySystemMediaCapability);
  videoCapabilities : option (list MediaKeySystemMediaCapability);
  distinctiveIdentifier : option string;
  persistentState : option string;
  sessionTypes : option (list string)
}.

Record MediaKeySystemAccess : Type := mkAccess {
  keySystem : string;
  configuration_ : MediaKeySystemConfiguration
}.

(** [s.split(';')[0]] *)
Fixpoint beforeSemicolon (s : string) : string :=
  match s with
  | EmptyString => EmptyString
  | String c s' =>
      if Ascii.eqb c ";"%char then EmptyString
      else String c (beforeSemicolon s')
  end.

Definition allowPersistentState : bool := false.

(** [cfg.persistentState == 'required'] *)
Definition isRequired (v : option string) : bool :=
  match v with
  | Some s => String.eqb s "required"
  | None => false
  end.

(** [DOMException.NOT_SUPPORTED_ERR] *)
Definition NOT_SUPPORTED_ERR : nat := 9.

Definition unsupportedKeySystemError : jsError :=
  mkError "NotSupportedError" "Unsupported keySystem" (Some NOT_SUPPORTED_ERR).

Section SystemAccess.

(** [MSMediaKeys.isTypeSupported(keySystem, contentType)] *)
Variable isTypeSupported : string -> string -> bool.

(** One of the two loops over [cfg.audioCapabilities] and
    [cfg.videoCapabilities]: the capabilities pushed so far, [success] and
    [ranAnyTests]. *)
Definition testCapability (keySystem_ : string)
    (st : list MediaKeySystemMediaCapability * bool * bool)
    (cap : MediaKeySystemMediaCapability)
    : list MediaKeySystemMediaCapability * bool * bool :=
  let '(pushed, success, ranAnyTests) := st in
  if truthyString (contentType cap) then
    let contentType_ :=
      beforeSemicolon (match contentType cap with Some s => s | None => EmptyString end) in
    if isTypeSupported keySystem_ contentType_
    then (pushed ++ [cap], true, true)
    else (pushed, success, true)
  else (pushed, success, ranAnyTests).

Definition testCapabilities (keySystem_ : string)
    (caps : option (list MediaKeySystemMediaCapability))
    (success ranAnyTests : bool)
    : list MediaKeySystemMediaCapability * bool * bool :=
  match caps with
  | Some l => fold_left (testCapability keySystem_) l ([], success, ranAnyTests)
  | None => ([], success, ranAnyTests)      (* if (cfg.audioCapabilities) *)
  end.

(** The body of the loop over [supportedConfigurations] for one [cfg]:
    the new configuration and the value of [success] after it. *)
Definition tryConfiguration (keySystem_ : string) (success : bool)
    (cfg : MediaKeySystemConfiguration)
    : MediaKeySystemConfiguration * bool :=
  let ranAnyTests := false in
  let '(audio, success, ranAnyTests) :=
    testCapabilities keySystem_ (audioCapabilities cfg) success ranAnyTests in
  let '(video, success, ranAnyTests) :=
    testCapabilities keySystem_ (videoCapabilities cfg) success ranAnyTests in
  let success :=
    if negb ranAnyTests then isTypeSupported keySystem_ "video/mp4"
    else success in
  let newCfg :=
    mkConfiguration (label cfg) (initDataTypes cfg) (Some audio) (Some video)
                    (Some "optional"%string) (Some "optional"%string)
                    (Some ["temporary"%string]) in
  if isRequired (persistentState cfg) then
    if allowPersistentState
    then (mkConfiguration (label cfg) (initDataTypes cfg) (Some audio)
            (Some video) (Some "optional"%string) (Some "required"%string)
            (Some ["persistent-license"%string]), success)
    else (newCfg, false)
  else (newCfg, success).

(** The loop: [success] lives across the iterations, and the first
    configuration that leaves it set is returned. *)
Fixpoint selectConfiguration (keySystem_ : string) (success : bool)
    (supportedConfigurations : list MediaKeySystemConfiguration)
    : option MediaKeySystemConfiguration :=
  match supportedConfigurations with
  | [] => None
  | cfg :: rest =>
      let (newCfg, success') := tryConfiguration keySystem_ success cfg in
      if success' then Some newCfg
      else selectConfiguration keySystem_ success' rest
  end.

(** [new MediaKeySystemAccess(keySystem, supportedConfigurations)] *)
Definition newMediaKeySystemAccess (keySystem_ : string)
    (supportedConfigurations : list MediaKeySystemConfiguration)
    : completion MediaKeySystemAccess :=
  let success := false in
  match selectConfiguration keySystem_ success supportedConfigurations with
  | Some newCfg => Normal (mkAccess keySystem_ newCfg)
  | None => Abrupt unsupportedKeySystemError
  end.

Definition getConfiguration (a : MediaKeySystemAccess)
    : MediaKeySystemConfiguration := configuration_ a.

(** [requestMediaKeySystemAccess]: a promise resolved with the access
    object, or rejected with what the constructor threw. *)
Definition requestMediaKeySystemAccess (keySystem_ : string)
    (supportedConfigurations : list MediaKeySystemConfiguration)
    : MediaKeySystemAccess + jsError :=
  match newMediaKeySystemAccess keySystem_ supportedConfigurations with
  | Normal access => inl access            (* Promise.resolve(access) *)
  | Abrupt exception => inr exception      (* Promise.reject(exception) *)
  end.

End SystemAccess.

(** *** Promises, events and the session *)

(** The promises made so far (a promise is named by its index) and the
    events dispatched on the session, oldest first. *)
Record FakeEvent : Type := mkEvent {
  type : string;
  messageType : option string;
  message : option bytes
}.

Record page : Type := mkPage {
  promises : list promiseState;
  dispatched : list FakeEvent
}.

Definition promiseAt (pg : page) (ref : nat) : promiseState :=
  nth ref (promises pg) Pending.

Fixpoint setNth {A} (n : nat) (x : A) (l : list A) : list A :=
  match n, l with
  | _, [] => []
  | O, _ :: l' => x :: l'
  | S n', y :: l' => y :: setNth n' x l'
  end.

(** [new shaka.util.PublicPromise()] *)
Definition newPromise (pg : page) : nat * page :=
  (List.length (promises pg),
   mkPage (promises pg ++ [Pending]) (dispatched pg)).

(** Settling a promise does something only while it is pending. *)
Definition settle (ref : nat) (st : promiseState) (pg : page) : page :=
  match promiseAt pg ref with
  | Pending => mkPage (setNth ref st (promises pg)) (dispatched pg)
  | _ => pg
  end.

Definition resolve (ref : nat) (pg : page) : page := settle ref Resolved pg.

Definition reject (ref : nat) (e : jsError) (pg : page) : page :=
  settle ref (Rejected e) pg.

(** [Promise.reject(e)] *)
Definition rejectedPromise (e : jsError) (pg : page) : nat * page :=
  (List.length (promises pg),
   mkPage (promises pg ++ [Rejected e]) (dispatched pg)).

(** [this.dispatchEvent(event)] *)
Definition dispatchEvent (e : FakeEvent) (pg : page) : page :=
  mkPage (promises pg) (dispatched pg ++ [e]).

Record MediaKeySession : Type := mkSession {
  nativeMediaKeySession_ : option nat;
  nativeMediaKeys_ : nat;
  generateRequestPromise_ : option nat;
  updatePromise_ : option nat;
  sessionId : string;
  closed : nat;
  keyStatuses : MediaKeyStatusMap;
  listening : list string
}.

(** [new MediaKeySession(nativeMediaKeys, sessionType)] *)
Definition newMediaKeySession (nativeMediaKeys : nat) (sessionType : string)
    (pg : page) : MediaKeySession * page :=
  let (closed_, pg') := newPromise pg in
  (mkSession None nativeMediaKeys None None EmptyString closed_ newMediaKeyStatusMap [],
   pg').

(** [MediaKeys.createSession(sessionType)], on the keys whose native
    object is [nativeMediaKeys]. *)
Definition createSession (nativeMediaKeys : nat) (sessionType : option string)
    (pg : page) : completion (MediaKeySession * page) :=
  let sessionType :=
    if truthyString sessionType
    then match sessionType with Some s => s | None => "temporary"%string end
    else "temporary"%string in
  if negb (String.eqb sessionType "temporary")
  then Abrupt (mkError "TypeError"
                 ("Session type " ++ sessionType
                    ++ " is unsupported on this platform.")%string None)
  else Normal (newMediaKeySession nativeMediaKeys sessionType pg).

(** [MediaKeys.setServerCertificate]: [Promise.resolve(false)] *)
Definition setServerCertificate (serverCertificate : bytes) : bool := false.

(** [MSMediaKeyError.MS_MEDIA_KEYERR_OUTPUT] and
    [MS_MEDIA_KEYERR_HARDWARECHANGE], as the source lists them. *)
Definition MS_MEDIA_KEYERR_OUTPUT : nat := 4.
Definition MS_MEDIA_KEYERR_HARDWARECHANGE : nat := 5.

(** What reading a property of [null] throws. *)
Definition nullDereference : jsError :=
  mkError "TypeError" "null has no properties" None.

Definition setGenerateRequestPromise (p : option nat) (s : MediaKeySession)
    : MediaKeySession :=
  mkSession (nativeMediaKeySession_ s) (nativeMediaKeys_ s) p
            (updatePromise_ s) (sessionId s) (closed s) (keyStatuses s)
            (listening s).

Definition setUpdatePromise (p : option nat) (s : MediaKeySession)
    : MediaKeySession :=
  mkSession (nativeMediaKeySession_ s) (nativeMediaKeys_ s)
            (generateRequestPromise_ s) p (sessionId s) (closed s)
            (keyStatuses s) (listening s).

(** [updateKeyStatus_(status)] *)
Definition updateKeyStatus_ (status : string) (s : MediaKeySession) (pg : page)
    : MediaKeySession * page :=
  (mkSession (nativeMediaKeySession_ s) (nativeMediaKeys_ s)
             (generateRequestPromise_ s) (updatePromise_ s) (sessionId s)
             (closed s) (setStatus (Some status) (keyStatuses s))
             (listening s),
   dispatchEvent (mkEvent "keystatuseschange" None None) pg).

Section Session.

(** The native objects: [nativeMediaKeys_.createSession(type, initData,
    null)], [nativeMediaKeySession_.update(response)] and
    [nativeMediaKeySession_.close()], each of which may throw. *)
Variable nativeCreateSession : nat -> string -> bytes -> completion nat.
Variable nativeUpdate : nat -> bytes -> completion unit.
Variable nativeClose : nat -> completion unit.

(** Each operation returns the promise it hands back, and the session and
    page afterwards. *)
Definition generateRequest (initDataType_ : string) (initData_ : bytes)
    (s : MediaKeySession) (pg : page) : nat * (MediaKeySession * page) :=
  let (p, pg1) := newPromise pg in
  let s1 := setGenerateRequestPromise (Some p) s in
  match nativeCreateSession (nativeMediaKeys_ s1) "video/mp4" initData_ with
  | Normal native =>
      let s2 :=
        mkSession (Some native) (nativeMediaKeys_ s1)
                  (generateRequestPromise_ s1) (updatePromise_ s1)
                  (sessionId s1) (closed s1) (keyStatuses s1)
                  (listening s1 ++ ["mskeymessage"; "mskeyadded";
                                    "mskeyerror"]%string) in
      (p, updateKeyStatus_ "status-pending" s2 pg1)
  | Abrupt exception => (p, (s1, reject p exception pg1))
  end.

Definition load (s : MediaKeySession) (pg : page)
    : nat * (MediaKeySession * page) :=
  let (p, pg') :=
    rejectedPromise
      (mkError "Error" "MediaKeySession.load not yet supported" None) pg in
  (p, (s, pg')).

Definition update (response : bytes) (s : MediaKeySession) (pg : page)
    : nat * (MediaKeySession * page) :=
  let (p, pg1) := newPromise pg in
  let s1 := setUpdatePromise (Some p) s in
  match nativeMediaKeySession_ s1 with
  | None => (p, (s1, reject p nullDereference pg1))
  | Some native =>
      match nativeUpdate native response with
      | Normal _ => (p, (s1, pg1))
      | Abrupt exception => (p, (s1, reject p exception pg1))
      end
  end.

Definition close (s : MediaKeySession) (pg : page)
    : nat * (MediaKeySession * page) :=
  match nativeMediaKeySession_ s with
  | None => (closed s, (s, reject (closed s) nullDereference pg))
  | Some native =>
      match nativeClose native with
      | Normal _ =>
          (closed s,
           (mkSession (nativeMediaKeySession_ s) (nativeMediaKeys_ s)
                      (generateRequestPromise_ s) (updatePromise_ s)
                      (sessionId s) (closed s) (keyStatuses s) [],
            resolve (closed s) pg))
      | Abrupt exception => (closed s, (s, reject (closed s) exception pg))
      end
  end.

Definition remove (s : MediaKeySession) (pg : page)
    : nat * (MediaKeySession * page) :=
  let (p, pg') :=
    rejectedPromise
      (mkError "Error"
         ("MediaKeySession.remove is only "
            ++ "applicable for persistent licenses, which are not supported on "
            ++ "this platform")%string None) pg in
  (p, (s, pg')).

(** [onMsKeyMessage_(event)], given [event.message]. *)
Definition onMsKeyMessage_ (event_message : bytes)
    (s : MediaKeySession) (pg : page) : MediaKeySession * page :=
  let (s1, pg1) :=
    match generateRequestPromise_ s with
    | Some p => (setGenerateRequestPromise None s, resolve p pg)
    | None => (s, pg)
    end in
  let isNew := looselyUndefined (getStatus (keyStatuses s1)) in
  let event2 :=
    mkEvent "message"
      (Some (if isNew then "license-request" else "license-renewal")%string)
      (Some event_message) in
  (s1, dispatchEvent event2 pg1).

Definition onMsKeyAdded_ (s : MediaKeySession) (pg : page)
    : MediaKeySession * page :=
  match generateRequestPromise_ s with
  | Some p =>
      let (s1, pg1) := updateKeyStatus_ "usable" s pg in
      (setGenerateRequestPromise None s1, resolve p pg1)
  | None =>
      match updatePromise_ s with
      | Some p =>
          let (s1, pg1) := updateKeyStatus_ "usable" s pg in
          (setUpdatePromise None s1, resolve p pg1)
      | None => (s, pg)
      end
  end.

(** [onMsKeyError_(event)], given [this.nativeMediaKeySession_.error.code];
    reading the error of a session that is [null] throws. *)
Definition onMsKeyError_ (nativeErrorCode : nat)
    (s : MediaKeySession) (pg : page) : completion (MediaKeySession * page) :=
  match nativeMediaKeySession_ s with
  | None => Abrupt nullDereference
  | Some _ =>
      let error :=
        mkError "Error" "EME PatchedMediaKeysMs key error"
                (Some nativeErrorCode) in
      match generateRequestPromise_ s with
      | Some p => Normal (setGenerateRequestPromise None s, reject p error pg)
      | None =>
          match updatePromise_ s with
          | Some p => Normal (setUpdatePromise None s, reject p error pg)
          | None =>
              if Nat.eqb nativeErrorCode MS_MEDIA_KEYERR_OUTPUT
                 || Nat.eqb nativeErrorCode MS_MEDIA_KEYERR_HARDWARECHANGE
              then Normal (updateKeyStatus_ "output-not-allowed" s pg)
              else Normal (updateKeyStatus_ "internal-error" s pg)
          end
      end
  end.

(** What can happen to a session: a method is called, or the native
    session fires an event. *)
Inductive sessionCall : Type :=
| callGenerateRequest : string -> bytes -> sessionCall
| callLoad : sessionCall
| callUpdate : bytes -> sessionCall
| callClose : sessionCall
| callRemove : sessionCall
| fireKeyMessage : bytes -> sessionCall
| fireKeyAdded : sessionCall
| fireKeyError : nat -> sessionCall.

(** Whether [eventManager_] holds a listener for the native event [name]:
    [generateRequest] attaches the three listeners, [close] removes them
    all. *)
Definition hears (name : string) (s : MediaKeySession) : bool :=
  existsb (String.eqb name) (listening s).

(** One call or event.  A native event reaches its handler only while the
    session listens for it; an event handler that throws leaves the session
    as it was. *)
Definition step (st : MediaKeySession * page) (c : sessionCall)
    : MediaKeySession * page :=
  let (s, pg) := st in
  match c with
  | callGenerateRequest t d => snd (generateRequest t d s pg)
  | callLoad => snd (load s pg)
  | callUpdate r => snd (update r s pg)
  | callClose => snd (close s pg)
  | callRemove => snd (remove s pg)
  | fireKeyMessage m =>
      if hears "mskeymessage" s then onMsKeyMessage_ m s pg else st
  | fireKeyAdded =>
      if hears "mskeyadded" s then onMsKeyAdded_ s pg else st
  | fireKeyError code =>
      if hears "mskeyerror" s then
        match onMsKeyError_ code s pg with
        | Normal st' => st'
        | Abrupt _ => st
        end
      else st
  end.

Definition run (st : MediaKeySession * page) (cs : list sessionCall)
    : MediaKeySession * page := fold_left step cs st.

End Session.

End PatchedMediaKeysMs.

(* ================================================================== *)
(** ** Exceptions and the state-and-error monad *)

Inductive Severity : Type := RECOVERABLE | CRITICAL.
Inductive Category : Type := NETWORK | TEXT | MEDIA | MANIFEST.
Inductive Code : Type := INVALID_XML | INVALID_TEXT_CUE | INVALID_MP4_TTML.

(** What a call can throw: the two parsing errors of the box traversal, a
    [shaka.util.Error] of this module, or an exception of an external
    collaborator (the text decoder), which is none of the former and is kept
    opaque. *)
Inductive exn : Type :=
| TruncatedInput : exn
| MalformedBox : exn
| shakaError : Severity -> Category -> Code -> exn
| foreignError : nat -> exn.

(** The spec's name for the error of the two entry points. *)
Definition InvalidContainer : exn := shakaError CRITICAL TEXT INVALID_MP4_TTML.

Inductive result (A : Type) : Type :=
| Ok : A -> result A
| Throw : exn -> result A.
Arguments Ok {A} _.
Arguments Throw {A} _.

Definition M (St A : Type) : Type := St -> result (A * St).

Definition ret {St A} (a : A) : M St A := fun s => Ok (a, s).

Definition bind {St A B} (c : M St A) (k : A -> M St B) : M St B :=
  fun s => match c s with
           | Ok (a, s') => k a s'
           | Throw e => Throw e
           end.

Definition throw {St A} (e : exn) : M St A := fun _ => Throw e.

Definition get {St} : M St St := fun s => Ok (s, s).

Definition modify {St} (f : St -> St) : M St unit := fun s => Ok (tt, f s).

(** What a call to an external collaborator does: it returns, or raises an
    exception of its own. *)
Inductive outcome (A : Type) : Type :=
| Returns : A -> outcome A
| Raises : nat -> outcome A.
Arguments Returns {A} _.
Arguments Raises {A} _.

Definition call {St A} (o : outcome A) : M St A :=
  fun s => match o with
           | Returns a => Ok (a, s)
           | Raises n => Throw (foreignError n)
           end.

Declare Scope monad_scope.
Delimit Scope monad_scope with monad.
Notation "x <- c ;; k" := (bind c (fun x => k))
  (at level 61, c at next level, right associativity) : monad_scope.
Notation "c ;; k" := (bind c (fun _ => k))
  (at level 61, right associativity) : monad_scope.
Notation "p |> f" := (f p) (at level 50, left associativity, only parsing).

(* ================================================================== *)
(** ** The box parser (shaka.util.Mp4Parser) *)

Module Mp4Parser.

Local Open Scope monad_scope.

(** A four-character code. *)
Definition tag := string.

Inductive BoxType_ : Type := BASIC_BOX | FULL_BOX.

(** What a handler is given: the version and flags of a full box, a cursor
    scoped to the bytes of the box that are left, and the ancestry path. *)
Record ParsedBox : Type := mkBox {
  version : option N;
  flags : option N;
  reader : bytes;
  path : list tag
}.

(** One box read off the front of a scope. *)
Inductive boxRead : Type :=
| BoxRead : tag -> bytes -> bytes -> boxRead   (* type, payload, rest *)
| ShortHeader : boxRead
| BadSize : boxRead.

(** Modelled from the spec: [shaka.util.Mp4Parser] is not among the sources.
    The box header: a 4-byte big-endian size and a 4-byte type; size 1 means
    an 8-byte big-endian size follows, size 0 means "to the end of the
    enclosing scope".  A declared size below the header length is malformed;
    one past the end of the scope is malformed unless [partialOkay], which
    clamps the box to the bytes there are. *)
Definition readBox (partialOkay : bool) (r : bytes) : boxRead :=
  let avail := N.of_nat (List.length r) in
  if (avail <? 8)%N then ShortHeader else
  let size32 := readUint (firstn 4 r) in
  let type := string_of_list_byte (firstn 4 (skipn 4 r)) in
  let hdr := if (size32 =? 1)%N then 16%N else 8%N in
  if (avail <? hdr)%N then ShortHeader else
  let declared :=
    if (size32 =? 0)%N then avail
    else if (size32 =? 1)%N then readUint (firstn 8 (skipn 8 r))
    else size32 in
  if (declared <? hdr)%N then BadSize
  else if (avail <? declared)%N && negb partialOkay then BadSize
  else
    let size := N.to_nat (N.min declared avail) in
    let h := N.to_nat hdr in
    BoxRead type (firstn (size - h) (skipn h r)) (skipn size r).

Section Traversal.

(** The variables the registered callbacks close over. *)
Variable C : Type.

(** The state of one traversal: the parser's stop flag, the types of the
    boxes handed to a registered definition so far (in order), and the
    captured variables. *)
Record pstate : Type := mkState {
  done_ : bool;
  visited : list tag;
  closure : C
}.

Definition P (A : Type) : Type := M pstate A.

(** Modelled from the spec: the kinds of handler a type can be registered
    with.  [children] descends into the box, [sampleDescription] reads an
    entry count and dispatches that many sub-boxes, [callback] hands the
    box to a function of the caller. *)
Inductive BoxDefinition : Type :=
| children : BoxDefinition
| sampleDescription : BoxDefinition
| callback : (ParsedBox -> P unit) -> BoxDefinition.

(** Modelled from the spec: "all-data" invokes the callback with all the
    remaining bytes of the box as one slice. *)
Definition allData (cb : bytes -> P unit) : BoxDefinition :=
  callback (fun box => cb (reader box)).

(** The registration table; the newest registration comes first, so the
    last one made for a type wins. *)
Definition Mp4Parser : Type := list (tag * (BoxType_ * BoxDefinition)).

Definition newMp4Parser : Mp4Parser := [].

Definition box (type : tag) (definition : BoxDefinition) (p : Mp4Parser)
    : Mp4Parser := (type, (BASIC_BOX, definition)) :: p.

Definition fullBox (type : tag) (definition : BoxDefinition) (p : Mp4Parser)
    : Mp4Parser := (type, (FULL_BOX, definition)) :: p.

Fixpoint lookup (p : Mp4Parser) (type : tag)
    : option (BoxType_ * BoxDefinition) :=
  match p with
  | [] => None
  | (t, d) :: p' => if String.eqb t type then Some d else lookup p' type
  end.

(** [parser.stop()] *)
Definition stop : P unit :=
  modify (fun s => mkState true (visited s) (closure s)).

Definition isDone : P bool := s <- get ;; ret (done_ s).

Definition visit (type : tag) : P unit :=
  modify (fun s => mkState (done_ s) (visited s ++ [type]) (closure s)).

Definition getClosure : P C := s <- get ;; ret (closure s).

Definition setClosure (c : C) : P unit :=
  modify (fun s => mkState (done_ s) (visited s) c).

(** The version (8 bits) and flags (24 bits) that open a full box. *)
Definition readFullBoxHeader (kind : BoxType_) (payload : bytes)
    : P (option N * option N * bytes) :=
  match kind with
  | BASIC_BOX => ret (None, None, payload)
  | FULL_BOX =>
      if List.length payload <? 4 then throw TruncatedInput
      else
        let versionAndFlags := readUint (firstn 4 payload) in
        ret (Some (versionAndFlags / 16777216)%N,
             Some (versionAndFlags mod 16777216)%N,
             skipn 4 payload)
  end.

(** Modelled from the spec: the traversal.  [parseNext] reads one box off
    the scope [r] and returns the scope after the declared end of the box,
    whatever the handler consumed; an unregistered type is skipped.
    [parseChildren] walks the boxes of a scope until it is exhausted or the
    parser is stopped: fewer than a header's bytes left over end the scope
    silently when [partialOkay] and signal [TruncatedInput] otherwise.
    [parseEntries] dispatches [count] sub-boxes of a sample description,
    signalling [MalformedBox] when the count asks for more entries than
    there are bytes.  [fuel] bounds the depth of the calls; more than the
    length of the scope is always enough. *)
Fixpoint parseNext (fuel : nat) (p : Mp4Parser) (partialOkay : bool)
    (ancestors : list tag) (r : bytes) {struct fuel} : P bytes :=
  match fuel with
  | O => ret []
  | S fuel' =>
      match readBox partialOkay r with
      | ShortHeader =>
          if partialOkay then ret [] else throw TruncatedInput
      | BadSize => throw MalformedBox
      | BoxRead type payload rest =>
          match lookup p type with
          | None => ret rest
          | Some (kind, definition) =>
              hd <- readFullBoxHeader kind payload ;;
              let '(v, f, body) := hd in
              visit type ;;
              match definition with
              | children =>
                  parseChildren fuel' p partialOkay (ancestors ++ [type])
                                body
              | sampleDescription =>
                  if List.length body <? 4 then throw TruncatedInput
                  else parseEntries fuel' p partialOkay
                         (ancestors ++ [type])
                         (readUint (firstn 4 body)) (skipn 4 body)
              | callback f' => f' (mkBox v f body ancestors)
              end ;;
              ret rest
          end
      end
  end

with parseChildren (fuel : nat) (p : Mp4Parser) (partialOkay : bool)
    (ancestors : list tag) (r : bytes) {struct fuel} : P unit :=
  match fuel with
  | O => ret tt
  | S fuel' =>
      stopped <- isDone ;;
      if stopped then ret tt
      else match r with
           | [] => ret tt
           | _ :: _ =>
               r' <- parseNext fuel' p partialOkay ancestors r ;;
               parseChildren fuel' p partialOkay ancestors r'
           end
  end

with parseEntries (fuel : nat) (p : Mp4Parser) (partialOkay : bool)
    (ancestors : list tag) (count : N) (r : bytes) {struct fuel} : P unit :=
  match fuel with
  | O => ret tt
  | S fuel' =>
      if (count =? 0)%N then ret tt
      else
        stopped <- isDone ;;
        if stopped then ret tt
        else if List.length r <? 8 then throw MalformedBox
        else
          r' <- parseNext fuel' p partialOkay ancestors r ;;
          parseEntries fuel' p partialOkay ancestors (count - 1)%N r'
  end.

(** [parser.parse(data, partialOkay)]: a fresh stop flag, then the boxes of
    the outermost scope. *)
Definition parse (p : Mp4Parser) (data : bytes) (partialOkay : bool)
    : P unit :=
  modify (fun s => mkState false (visited s) (closure s)) ;;
  parseChildren (S (S (List.length data))) p partialOkay [] data.

(** The state a traversal starts from. *)
Definition fresh (c : C) : pstate := mkState false [] c.

End Traversal.

Arguments children {C}.
Arguments sampleDescription {C}.
Arguments newMp4Parser {C}.
Arguments stop {C}.
Arguments isDone {C}.
Arguments visit {C} _.
Arguments readFullBoxHeader {C} _ _.
Arguments getClosure {C}.

End Mp4Parser.

(* ================================================================== *)
(** ** lib/text/mp4_ttml_parser.js *)

Module Mp4TtmlParser.

Import Mp4Parser.
Local Open Scope monad_scope.

(** [parseInit]'s parser: the ancestor chain, the sample description and the
    handler of the subtitle sample entry, which sets [sawSTPP] and stops. *)
Definition initParser : Mp4Parser bool :=
  newMp4Parser
    |> box "moov"%string children
    |> box "trak"%string children
    |> box "mdia"%string children
    |> box "minf"%string children
    |> box "stbl"%string children
    |> fullBox "stsd"%string sampleDescription
    |> box "stpp"%string (callback (fun box =>
                            setClosure true ;;
                            stop)).

(** The traversal [parseInit] runs, with the state it ends in. *)
Definition traverseInit (data : bytes) : result (unit * pstate bool) :=
  let sawSTPP := false in
  parse initParser data false (fresh sawSTPP).

Definition parseInit (data : bytes) : result unit :=
  match traverseInit data with
  | Throw e => Throw e
  | Ok (_, s) =>
      let sawSTPP := closure s in
      if negb sawSTPP
      then Throw (shakaError CRITICAL TEXT INVALID_MP4_TTML)
      else Ok tt
  end.

Section Media.

Variables Cue TimeContext : Type.

(** [this.parser_], the external TTML decoder. *)
Variable ttmlParseFirstCue : bytes -> TimeContext -> outcome Cue.
Variable ttmlParseMedia : bytes -> TimeContext -> outcome (list Cue).

(** A call made to [this.parser_]. *)
Inductive decoderCall : Type :=
| callParseFirstCue : bytes -> TimeContext -> decoderCall
| callParseMedia : bytes -> TimeContext -> decoderCall.

(** The variables the [mdat] callback closes over, and the calls
    [this.parser_] has received. *)
Record mediaVars : Type := mkVars {
  sawMDAT : bool;
  payload : list Cue;
  calls : list decoderCall
}.

Definition invokeFirstCue (data : bytes) (time : TimeContext)
    : P mediaVars Cue :=
  c <- getClosure ;;
  setClosure (mkVars (sawMDAT c) (payload c)
                (calls c ++ [callParseFirstCue data time])) ;;
  call (ttmlParseFirstCue data time).

Definition invokeParseMedia (data : bytes) (time : TimeContext)
    : P mediaVars (list Cue) :=
  c <- getClosure ;;
  setClosure (mkVars (sawMDAT c) (payload c)
                (calls c ++ [callParseMedia data time])) ;;
  call (ttmlParseMedia data time).

Definition setSawMDAT : P mediaVars unit :=
  c <- getClosure ;; setClosure (mkVars true (payload c) (calls c)).

Definition setPayload (cues : list Cue) : P mediaVars unit :=
  c <- getClosure ;; setClosure (mkVars (sawMDAT c) cues (calls c)).

(** The [mdat] callback of [parseMediaInternal_]. *)
Definition onMdat (time : TimeContext) (partial : bool) (data : bytes)
    : P mediaVars unit :=
  setSawMDAT ;;
  if partial then
    cue <- invokeFirstCue data time ;;
    setPayload [cue] ;;
    stop
  else
    cues <- invokeParseMedia data time ;;
    c <- getClosure ;;
    setPayload (payload c ++ cues).

Definition mediaParser (time : TimeContext) (partial : bool)
    : Mp4Parser mediaVars :=
  newMp4Parser |> box "mdat"%string (allData (onMdat time partial)).

(** The traversal [parseMediaInternal_] runs; [log] is what the decoder
    has been asked before. *)
Definition traverseMedia (data : bytes) (time : TimeContext)
    (partial : bool) (log : list decoderCall)
    : result (unit * pstate mediaVars) :=
  let sawMDAT := false in
  let payload := [] in
  parse (mediaParser time partial) data partial
        (fresh (mkVars sawMDAT payload log)).

(** Returns the cues and the calls the decoder has received. *)
Definition parseMediaInternal_ (data : bytes) (time : TimeContext)
    (partial : bool) (log : list decoderCall)
    : result (list Cue * list decoderCall) :=
  match traverseMedia data time partial log with
  | Throw e => Throw e
  | Ok (_, s) =>
      if negb (sawMDAT (closure s))
      then Throw (shakaError CRITICAL TEXT INVALID_MP4_TTML)
      else Ok (payload (closure s), calls (closure s))
  end.

(** [parseMediaInternal_(data, time, true)[0]]; indexing an empty array
    gives [undefined], here [None]. *)
Definition parseFirstCue (data : bytes) (time : TimeContext)
    (log : list decoderCall)
    : result (option Cue * list decoderCall) :=
  match parseMediaInternal_ data time true log with
  | Throw e => Throw e
  | Ok (cues, log') => Ok (nth_error cues 0, log')
  end.

Definition parseMedia (data : bytes) (time : TimeContext)
    (log : list decoderCall)
    : result (list Cue * list decoderCall) :=
  parseMediaInternal_ data time false log.

End Media.

(** *** Registration with the text engine *)

Inductive TextParserClass : Type := Mp4TtmlParserClass.

Definition quote : string := String (ascii_of_nat 34) EmptyString.

(** [application/mp4; codecs=...], the codecs value in double quotes. *)
Definition mimeType (codecs : string) : string :=
  ("application/mp4; codecs=" ++ quote ++ codecs ++ quote)%string.

(** [shaka.text.TextEngine.registerParser(mimeType, plugin)] *)
Definition registerParser (mime : string) (plugin : TextParserClass)
    (parserMap_ : list (string * TextParserClass))
    : list (string * TextParserClass) := (mime, plugin) :: parserMap_.

(** The registry after the two calls at the end of the file. *)
Definition parserMap_ : list (string * TextParserClass) :=
  []
    |> registerParser (mimeType "stpp") Mp4TtmlParserClass
    |> registerParser (mimeType "stpp.TTML.im1t") Mp4TtmlParserClass.

Fixpoint findParser (m : list (string * TextParserClass)) (mime : string)
    : option TextParserClass :=
  match m with
  | [] => None
  | (k, v) :: m' => if String.eqb k mime then Some v else findParser m' mime
  end.

(** The two codecs values the parser is registered under. *)
Definition recognizedCodecs : list string :=
  ["stpp"; "stpp.TTML.im1t"]%string.

End Mp4TtmlParser.

(* ================================================================== *)
(** ** Serialised boxes *)

(** A box with a 32-bit size: size, type, payload. *)
Definition encodeBox (type : string) (payload : bytes) : bytes :=
  be32 (N.of_nat (8 + List.length payload))
    ++ list_byte_of_string type ++ payload.

(** A box a 32-bit header can describe. *)
Definition boxOk (type : string) (payload : bytes) : Prop :=
  String.length type = 4 /\ (N.of_nat (8 + List.length payload) < 4294967296)%N.

(** A sequence of sibling boxes, in file order. *)
Definition encodeBoxes (bs : list (string * bytes)) : bytes :=
  List.concat (map (fun b => encodeBox (fst b) (snd b)) bs).

(** The minimal initialization segment
    moov > trak > mdia > minf > stbl > stsd(version/flags, count 1, entry). *)
Definition minimalInit (entryType : string) (entryPayload : bytes) : bytes :=
  encodeBox "moov" (encodeBox "trak" (encodeBox "mdia" (encodeBox "minf"
    (encodeBox "stbl" (encodeBox "stsd"
       (be32 0 ++ be32 1 ++ encodeBox entryType entryPayload)))))).

(* ================================================================== *)
(** ** Notions the statements below are phrased with *)

(** A view that lies within its buffer, as every view made by JavaScript
    does. *)
Definition validView (h : store) (a : Uint8Array) : Prop :=
  byteOffset a + byteLength a <= List.length (bufferBytes h (buffer a)).

(** The regions of [l] that are byte-for-byte equal to no earlier region:
    the first occurrence of each distinct region, in the original order. *)
Definition firstOccurrences (l : list bytes) : list bytes :=
  flat_map
    (fun i =>
       let x := nth i l [] in
       if existsb (fun y => BufferUtils.equal y x) (firstn i l)
       then [] else [x])
    (seq 0 (List.length l)).

(** The [mdat] payloads among sibling boxes, in file order. *)
Definition mdatPayloads (bs : list (string * bytes)) : list bytes :=
  map snd (filter (fun b => String.eqb (fst b) "mdat") bs).

(** Sibling boxes none of which is an [mdat]. *)
Definition noMdat (bs : list (string * bytes)) : Prop :=
  Forall (fun b => fst b <> "mdat"%string) bs.

Definition boxesOk (bs : list (string * bytes)) : Prop :=
  Forall (fun b => boxOk (fst b) (snd b)) bs.

(** Decoding the payloads one after the other, stopping at the first that
    the decoder rejects. *)
Fixpoint decodeAll {Cue} (decode : bytes -> outcome (list Cue))
    (payloads : list bytes) : outcome (list Cue) :=
  match payloads with
  | [] => Returns []
  | p :: ps =>
      match decode p with
      | Raises n => Raises n
      | Returns cues =>
          match decodeAll decode ps with
          | Raises n => Raises n
          | Returns more => Returns (cues ++ more)
          end
      end
  end.

(** [boxesThen partialOkay r bs tail]: read one after the other off the
    scope [r], the boxes are [bs] (type and payload, in file order) and
    [tail] is what follows them. *)
Inductive boxesThen (partialOkay : bool)
    : bytes -> list (string * bytes) -> bytes -> Prop :=
| boxesThen_nil : forall r, boxesThen partialOkay r [] r
| boxesThen_cons : forall r type payload rest bs tail,
    Mp4Parser.readBox partialOkay r = Mp4Parser.BoxRead type payload rest ->
    boxesThen partialOkay rest bs tail ->
    boxesThen partialOkay r ((type, payload) :: bs) tail.

(** A 32-byte [pssh] box: header, version and flags, a 16-byte system id and
    an empty data section. *)
Definition pssh32 : bytes :=
  encodeBox "pssh" (be32 0 ++ repeat x01 16 ++ be32 0).

(** What a run ensures: [I] of the state it ends in, or [E] of what it
    throws. *)
Definition ensures {A St} (I : St -> Prop) (E : exn -> Prop)
    (r : result (A * St)) : Prop :=
  match r with
  | Ok (_, s') => I s'
  | Throw e => E e
  end.

(** The state once a box of type [t] has been handed to its definition. *)
Definition visiting {C} (t : Mp4Parser.tag) (s : Mp4Parser.pstate C)
    : Mp4Parser.pstate C :=
  Mp4Parser.mkState (Mp4Parser.done_ s) (Mp4Parser.visited s ++ [t])
                    (Mp4Parser.closure s).

(** The two parsing errors of the traversal. *)
Definition parsingError (e : exn) : Prop :=
  e = TruncatedInput \/ e = MalformedBox.

(** What the traversal of [parseMediaInternal_] can throw: a parsing error,
    or what the decoder raised. *)
Definition mediaError (e : exn) : Prop :=
  parsingError e \/ exists n, e = foreignError n.

(** [sawSTPP] is set exactly when an [stpp] box has been handed to its
    handler. *)
Definition initInv (s : Mp4Parser.pstate bool) : Prop :=
  Mp4Parser.closure s = true <-> In "stpp"%string (Mp4Parser.visited s).

(** [sawMDAT] is set exactly when an [mdat] box has been handed to its
    handler. *)
Definition mediaInv {Cue TimeContext}
    (s : Mp4Parser.pstate (Mp4TtmlParser.mediaVars Cue TimeContext)) : Prop :=
  Mp4TtmlParser.sawMDAT (Mp4Parser.closure s) = true
  <-> In "mdat"%string (Mp4Parser.visited s).

(** A capability that [MSMediaKeys.isTypeSupported] is asked about, and one
    it answers yes for. *)
Definition testable (cap : PatchedMediaKeysMs.MediaKeySystemMediaCapability)
    : bool :=
  PatchedMediaKeysMs.truthyString (PatchedMediaKeysMs.contentType cap).

Definition supportedCapability (isTypeSupported : string -> string -> bool)
    (keySystem : string)
    (cap : PatchedMediaKeysMs.MediaKeySystemMediaCapability) : bool :=
  match PatchedMediaKeysMs.contentType cap with
  | Some s =>
      negb (String.eqb s EmptyString)
      && isTypeSupported keySystem (PatchedMediaKeysMs.beforeSemicolon s)
  | None => false
  end.

Definition capabilitiesOf
    (caps : option (list PatchedMediaKeysMs.MediaKeySystemMediaCapability))
    : list PatchedMediaKeysMs.MediaKeySystemMediaCapability :=
  match caps with Some l => l | None => [] end.

(** A requested configuration the platform can serve: it does not require
    persistent state, and one of the content types it names is supported,
    or, when it names none, [video/mp4] is. *)
Definition acceptable (isTypeSupported : string -> string -> bool)
    (keySystem : string)
    (cfg : PatchedMediaKeysMs.MediaKeySystemConfiguration) : bool :=
  let caps :=
    capabilitiesOf (PatchedMediaKeysMs.audioCapabilities cfg)
      ++ capabilitiesOf (PatchedMediaKeysMs.videoCapabilities cfg) in
  negb (PatchedMediaKeysMs.isRequired (PatchedMediaKeysMs.persistentState cfg))
  && (if existsb testable caps
      then existsb (supportedCapability isTypeSupported keySystem) caps
      else isTypeSupported keySystem "video/mp4"%string).

(** The configuration answered for a requested one: its supported
    capabilities, in the order requested. *)
Definition answerTo (isTypeSupported : string -> string -> bool)
    (keySystem : string)
    (cfg : PatchedMediaKeysMs.MediaKeySystemConfiguration)
    : PatchedMediaKeysMs.MediaKeySystemConfiguration :=
  PatchedMediaKeysMs.mkConfiguration
    (PatchedMediaKeysMs.label cfg) (PatchedMediaKeysMs.initDataTypes cfg)
    (Some (filter (supportedCapability isTypeSupported keySystem)
             (capabilitiesOf (PatchedMediaKeysMs.audioCapabilities cfg))))
    (Some (filter (supportedCapability isTypeSupported keySystem)
             (capabilitiesOf (PatchedMediaKeysMs.videoCapabilities cfg))))
    (Some "optional"%string) (Some "optional"%string)
    (Some ["temporary"%string]).

(** The key statuses the session sets. *)
Definition sessionStatus (s : PatchedMediaKeysMs.status_t) : Prop :=
  s = None \/ s = Some "status-pending"%string \/ s = Some "usable"%string
  \/ s = Some "output-not-allowed"%string \/ s = Some "internal-error"%string.

(* ================================================================== *)
(** * Properties *)

(** ** Byte buffers and views *)

Lemma equal_spec (x y : bytes) : BufferUtils.equal x y = true <-> x = y.
Proof.
  revert y; induction x as [|a x IH]; intros [|b y]; simpl;
    try (split; [discriminate | congruence]); try tauto.
  rewrite andb_true_iff, IH. split.
  - intros [Hab ->]. apply Byte.byte_dec_bl in Hab. now subst.
  - intros [= -> ->]. split; [now apply Byte.byte_dec_lb | reflexivity].
Qed.

Lemma equal_refl (x : bytes) : BufferUtils.equal x x = true.
Proof. now apply equal_spec. Qed.

Lemma existsb_equal_In (x : bytes) (l : list bytes) :
  existsb (fun y => BufferUtils.equal y x) l = true <-> In x l.
Proof.
  rewrite existsb_exists. split.
  - intros (y & Hy & E). apply equal_spec in E. now subst.
  - intros H. exists x. split; [assumption | apply equal_refl].
Qed.

Lemma contents_length (h : store) (a : Uint8Array) :
  validView h a -> List.length (contents h a) = byteLength a.
Proof.
  unfold validView, contents. intros H.
  rewrite length_firstn, length_skipn. lia.
Qed.

(** A sub-view shows the slice of what its parent shows. *)
Lemma contents_subarray (h : store) (a : Uint8Array) (b e : Z) :
  validView h a ->
  contents h (subarray a b e) = slice (contents h a) b e.
Proof.
  intros V. unfold slice. rewrite (contents_length V).
  unfold contents, subarray; simpl.
  remember (Z.of_nat (byteLength a)) as len eqn:Elen.
  assert (Hb : (0 <= relativeIndex len b <= len)%Z)
    by (unfold relativeIndex; destruct (Z.ltb_spec b 0); lia).
  assert (He : (0 <= relativeIndex len e <= len)%Z)
    by (unfold relativeIndex; destruct (Z.ltb_spec e 0); lia).
  set (b' := Z.to_nat (relativeIndex len b)).
  set (n := Z.to_nat (Z.max (relativeIndex len e - relativeIndex len b) 0)).
  assert (Hn : n <= byteLength a - b') by (unfold n, b'; lia).
  rewrite skipn_firstn_comm, firstn_firstn, skipn_skipn.
  rewrite (Nat.add_comm b'). f_equal. lia.
Qed.

(** The view [Uint8ArrayUtils.concat] returns shows the concatenation. *)
Lemma contents_concat (h : store) (arrays : list Uint8Array) :
  contents (snd (Uint8ArrayUtils.concat arrays h))
           (fst (Uint8ArrayUtils.concat arrays h))
  = List.concat (map (contents h) arrays).
Proof.
  unfold Uint8ArrayUtils.concat, contents, bufferBytes; simpl.
  rewrite nth_middle. apply firstn_all.
Qed.

(** ** The deduplication loop *)

Lemma flat_map_ext_seq {A} (f g : nat -> list A) (n : nat) :
  (forall i, i < n -> f i = g i) -> flat_map f (seq 0 n) = flat_map g (seq 0 n).
Proof.
  intros H. rewrite !flat_map_concat_map. f_equal.
  apply map_ext_in. intros i Hi. apply in_seq in Hi. apply H. lia.
Qed.

Lemma firstOccurrences_snoc (l : list bytes) (x : bytes) :
  firstOccurrences (l ++ [x])
  = firstOccurrences l
      ++ (if existsb (fun y => BufferUtils.equal y x) l then [] else [x]).
Proof.
  unfold firstOccurrences.
  rewrite length_app, seq_app, flat_map_app; simpl.
  f_equal.
  - apply flat_map_ext_seq. intros i Hi.
    rewrite app_nth1 by assumption.
    rewrite firstn_app. replace (i - List.length l) with 0 by lia.
    simpl. now rewrite app_nil_r.
  - rewrite nth_middle, firstn_app, firstn_all, Nat.sub_diag. simpl.
    now rewrite !app_nil_r.
Qed.

Lemma firstOccurrences_In (l : list bytes) (x : bytes) :
  In x (firstOccurrences l) <-> In x l.
Proof.
  induction l as [|y l IH] using rev_ind; [reflexivity|].
  rewrite firstOccurrences_snoc, !in_app_iff, IH.
  destruct (existsb _ l) eqn:E; simpl; [|tauto].
  apply existsb_equal_In in E. intuition (subst; auto).
Qed.

Lemma firstOccurrences_NoDup (l : list bytes) : NoDup (firstOccurrences l).
Proof.
  induction l as [|y l IH] using rev_ind; [constructor|].
  rewrite firstOccurrences_snoc.
  destruct (existsb _ l) eqn:E; [now rewrite app_nil_r|].
  apply NoDup_app; [assumption | repeat constructor; intros [] | ].
  intros a Ha [<-|[]]. rewrite firstOccurrences_In in Ha.
  rewrite <- existsb_equal_In in Ha. congruence.
Qed.

Lemma existsb_contents (h : store) (c : bytes) (vs : list Uint8Array) :
  existsb (fun x => BufferUtils.equal (contents h x) c) vs
  = existsb (fun y => BufferUtils.equal y c) (map (contents h) vs).
Proof. induction vs as [|v vs IH]; simpl; congruence. Qed.

Lemma dedupe_snoc (h : store) (l : list Uint8Array) (x : Uint8Array) :
  PatchedMediaKeysMs.dedupe h (l ++ [x])
  = PatchedMediaKeysMs.dedupeStep h (PatchedMediaKeysMs.dedupe h l) x.
Proof. unfold PatchedMediaKeysMs.dedupe. now rewrite fold_left_app. Qed.

Lemma dedupe_contents (h : store) (l : list Uint8Array) :
  map (contents h) (PatchedMediaKeysMs.dedupe h l)
  = firstOccurrences (map (contents h) l).
Proof.
  induction l as [|x l IH] using rev_ind; [reflexivity|].
  rewrite dedupe_snoc, map_app; simpl.
  rewrite firstOccurrences_snoc.
  unfold PatchedMediaKeysMs.dedupeStep.
  rewrite existsb_contents, IH.
  assert (E : existsb (fun y => BufferUtils.equal y (contents h x))
                 (firstOccurrences (map (contents h) l))
              = existsb (fun y => BufferUtils.equal y (contents h x))
                 (map (contents h) l)).
  { apply eq_true_iff_eq.
    rewrite !existsb_equal_In. apply firstOccurrences_In. }
  rewrite E.
  destruct (existsb _ (map (contents h) l)); simpl.
  - now rewrite IH, app_nil_r.
  - now rewrite map_app, IH.
Qed.

(** C6: the deduplication step keeps, in the original order, exactly the
    regions that are byte-for-byte equal to no earlier region (the first
    occurrence of each distinct region: no region is kept twice and every
    region has an equal kept one), and what is returned shows those regions
    concatenated in that order. *)
Theorem dedupe_keeps_first_occurrences
    (h : store) (regions : list Uint8Array) :
  let kept := PatchedMediaKeysMs.dedupe h regions in
  let out := Uint8ArrayUtils.concat kept h in
  map (contents h) kept = firstOccurrences (map (contents h) regions)
  /\ NoDup (map (contents h) kept)
  /\ (forall x, In x (map (contents h) kept)
                <-> In x (map (contents h) regions))
  /\ contents (snd out) (fst out)
     = List.concat (firstOccurrences (map (contents h) regions)).
Proof.
  intros kept out. subst kept out.
  rewrite contents_concat, dedupe_contents.
  repeat split.
  - apply firstOccurrences_NoDup.
  - apply firstOccurrences_In.
  - apply firstOccurrences_In.
Qed.

(** ** normaliseInitData_ *)

Section NormaliseFacts.

Import PatchedMediaKeysMs.
Variable scanner : bytes -> list Pssh.dataBoundary.

(** What [normaliseInitData_] returns when the scan finds two boundaries
    or more: a new array showing the first occurrences among the regions
    [subarray(start, end + 1)]. *)
Lemma normalise_many (a : Uint8Array) (w : world) :
  validView (heap w) a ->
  1 < List.length (scanner (contents (heap w) a)) ->
  exists r w',
    normaliseInitData_ scanner (obj a) w = (obj r, w')
    /\ contents (heap w') r
       = List.concat (firstOccurrences
           (map (fun b => slice (contents (heap w) a)
                            (Pssh.start b) (Pssh.end_ b + 1))
                (scanner (contents (heap w) a)))).
Proof.
  intros V Hlen. unfold normaliseInitData_.
  destruct (Nat.leb_spec (List.length (scanner (contents (heap w) a))) 1);
    [lia|].
  cbn [heap psshScans].
  set (kept := dedupe (heap w) _).
  pose proof (contents_concat (heap w) kept) as Hc.
  destruct (Uint8ArrayUtils.concat kept (heap w)) as [r h'] eqn:E.
  exists r, (mkWorld h' (psshScans w ++ [a])). split; [reflexivity|].
  cbn [heap]. cbn [fst snd] in Hc. rewrite Hc. subst kept.
  rewrite dedupe_contents. unfold sliceBoundaries.
  rewrite map_map. do 2 f_equal.
  apply map_ext. intros b. now apply contents_subarray.
Qed.

End NormaliseFacts.

Lemma slice_front (x y : bytes) :
  slice (x ++ y) 0 (Z.of_nat (List.length x)) = x.
Proof.
  unfold slice, relativeIndex. rewrite length_app.
  destruct (Z.ltb_spec (Z.of_nat (List.length x)) 0); [lia|].
  change (0 <? 0)%Z with false. cbv iota.
  set (b := Z.min 0 _). set (e := Z.min _ _).
  assert (Hb : Z.to_nat b = 0) by (subst b; lia).
  assert (He : Z.to_nat (Z.max (e - b) 0) = List.length x)
    by (subst b e; lia).
  rewrite Hb, He. simpl.
  rewrite firstn_app, firstn_all, Nat.sub_diag. simpl. apply app_nil_r.
Qed.

Lemma slice_back (x y : bytes) :
  slice (x ++ y) (Z.of_nat (List.length x))
        (Z.of_nat (List.length x + List.length y)) = y.
Proof.
  unfold slice, relativeIndex. rewrite length_app.
  destruct (Z.ltb_spec (Z.of_nat (List.length x)) 0); [lia|].
  destruct (Z.ltb_spec (Z.of_nat (List.length x + List.length y)) 0); [lia|].
  set (b := Z.min (Z.of_nat (List.length x)) _).
  set (e := Z.min _ _).
  assert (Hb : Z.to_nat b = List.length x) by (subst b; lia).
  assert (He : Z.to_nat (Z.max (e - b) 0) = List.length y)
    by (subst b e; lia).
  rewrite Hb, He.
  rewrite skipn_app, skipn_all, Nat.sub_diag. simpl. apply firstn_all.
Qed.

Lemma firstOccurrences_twice (x : bytes) : firstOccurrences [x; x] = [x].
Proof. unfold firstOccurrences. simpl. now rewrite equal_refl. Qed.

(** C1 (amended): when the scan finds more than one boundary record,
    [normaliseInitData_] slices for each record the bytes from [start] up to
    and INCLUDING offset [end] (that is [subarray(start, end + 1)], clamped to
    the buffer), and returns the first occurrences among these regions,
    concatenated in order; in particular, over two identical 32-byte boxes,
    whose records are [{0, 31}] and [{32, 63}], it returns a single 32-byte
    region equal to either box. *)
Theorem normalise_slices_through_end
    (scanner : bytes -> list Pssh.dataBoundary)
    (a : Uint8Array) (w : PatchedMediaKeysMs.world) :
  validView (PatchedMediaKeysMs.heap w) a ->
  1 < List.length (scanner (contents (PatchedMediaKeysMs.heap w) a)) ->
  exists r w',
    PatchedMediaKeysMs.normaliseInitData_ scanner (obj a) w = (obj r, w')
    /\ contents (PatchedMediaKeysMs.heap w') r
       = List.concat (firstOccurrences
           (map (fun b => slice (contents (PatchedMediaKeysMs.heap w) a)
                            (Pssh.start b) (Pssh.end_ b + 1))
                (scanner (contents (PatchedMediaKeysMs.heap w) a))))
    /\ map (contents (PatchedMediaKeysMs.heap w))
           (PatchedMediaKeysMs.sliceBoundaries a
              (scanner (contents (PatchedMediaKeysMs.heap w) a)))
       = map (fun b => slice (contents (PatchedMediaKeysMs.heap w) a)
                         (Pssh.start b) (Pssh.end_ b + 1))
             (scanner (contents (PatchedMediaKeysMs.heap w) a))
    /\ (forall psshBox : bytes,
          List.length psshBox = 32 ->
          contents (PatchedMediaKeysMs.heap w) a = psshBox ++ psshBox ->
          scanner (psshBox ++ psshBox)
            = [Pssh.mkBoundary 0 31; Pssh.mkBoundary 32 63] ->
          contents (PatchedMediaKeysMs.heap w') r = psshBox).
Proof.
  intros V Hlen.
  destruct (@normalise_many scanner a w V Hlen) as (r & w' & R & Hc).
  exists r, w'. split; [assumption|]. split; [assumption|]. split.
  - unfold PatchedMediaKeysMs.sliceBoundaries. rewrite map_map.
    apply map_ext. intros b. now apply contents_subarray.
  - intros psshBox L E S.
    assert (H1 : slice (psshBox ++ psshBox) 0 (31 + 1) = psshBox).
    { replace (31 + 1)%Z with (Z.of_nat (List.length psshBox)) by lia.
      apply slice_front. }
    assert (H2 : slice (psshBox ++ psshBox) 32 (63 + 1) = psshBox).
    { replace (63 + 1)%Z
        with (Z.of_nat (List.length psshBox + List.length psshBox)) by lia.
      replace 32%Z with (Z.of_nat (List.length psshBox)) by lia.
      apply slice_back. }
    rewrite Hc, E, S. cbn [map Pssh.start Pssh.end_].
    rewrite H1, H2, firstOccurrences_twice.
    simpl. apply app_nil_r.
Qed.

Lemma normalise_slices_through_end_witness :
  exists r w',
    PatchedMediaKeysMs.normaliseInitData_ Pssh.dataBoundaries
      (obj (mkView 0 0 64))
      (PatchedMediaKeysMs.mkWorld [pssh32 ++ pssh32] []) = (obj r, w')
    /\ contents (PatchedMediaKeysMs.heap w') r = pssh32.
Proof.
  destruct (@normalise_slices_through_end Pssh.dataBoundaries
              (mkView 0 0 64)
              (PatchedMediaKeysMs.mkWorld [pssh32 ++ pssh32] []))
    as (r & w' & R & _ & _ & H).
  - vm_compute. lia.
  - vm_compute. lia.
  - exists r, w'. split; [exact R|].
    apply (H pssh32); reflexivity.
Defined.

(** C1 (as stated) fails on two identical 32-byte boxes back-to-back: the
    scan reports the records [{0, 31}] and [{32, 63}], and the region sliced
    for a record is not the bytes [[start, end)] but the 32 bytes up to and
    including offset [end]; the bytes [[start, end)] are 31 for each record,
    and deduplicating those would not give back the 32-byte box that
    [normaliseInitData_] returns. *)
Lemma normalise_region_includes_end_offset :
  Pssh.dataBoundaries (pssh32 ++ pssh32)
    = [Pssh.mkBoundary 0 31; Pssh.mkBoundary 32 63]
  /\ map (contents [pssh32 ++ pssh32])
         (PatchedMediaKeysMs.sliceBoundaries (mkView 0 0 64)
            (Pssh.dataBoundaries (pssh32 ++ pssh32)))
     = [pssh32; pssh32]
  /\ map (fun b => List.length
                     (slice (pssh32 ++ pssh32) (Pssh.start b) (Pssh.end_ b)))
         (Pssh.dataBoundaries (pssh32 ++ pssh32))
     = [31; 31]
  /\ map (contents [pssh32 ++ pssh32])
         (PatchedMediaKeysMs.sliceBoundaries (mkView 0 0 64)
            (Pssh.dataBoundaries (pssh32 ++ pssh32)))
     <> map (fun b => slice (pssh32 ++ pssh32) (Pssh.start b) (Pssh.end_ b))
            (Pssh.dataBoundaries (pssh32 ++ pssh32))
  /\ exists r w',
       PatchedMediaKeysMs.normaliseInitData_ Pssh.dataBoundaries
         (obj (mkView 0 0 64))
         (PatchedMediaKeysMs.mkWorld [pssh32 ++ pssh32] []) = (obj r, w')
       /\ contents (PatchedMediaKeysMs.heap w') r = pssh32
       /\ contents (PatchedMediaKeysMs.heap w') r
          <> List.concat (firstOccurrences
               (map (fun b => slice (pssh32 ++ pssh32)
                                (Pssh.start b) (Pssh.end_ b))
                    (Pssh.dataBoundaries (pssh32 ++ pssh32)))).
Proof.
  split; [reflexivity|]. split; [reflexivity|]. split; [reflexivity|]. split.
  - intros H. apply (f_equal (map (@List.length byte))) in H.
    vm_compute in H. discriminate.
  - eexists. eexists. split; [vm_compute; reflexivity|]. split.
    + reflexivity.
    + intros H. apply (f_equal (@List.length byte)) in H.
      vm_compute in H. discriminate.
Qed.

(** C5: when the scan finds no boundary or a single one,
    [normaliseInitData_] returns the very array it was given, and allocates
    nothing. *)
Theorem normalise_single_unchanged
    (scanner : bytes -> list Pssh.dataBoundary)
    (a : Uint8Array) (w : PatchedMediaKeysMs.world) :
  List.length (scanner (contents (PatchedMediaKeysMs.heap w) a)) <= 1 ->
  fst (PatchedMediaKeysMs.normaliseInitData_ scanner (obj a) w) = obj a
  /\ PatchedMediaKeysMs.heap
       (snd (PatchedMediaKeysMs.normaliseInitData_ scanner (obj a) w))
     = PatchedMediaKeysMs.heap w.
Proof.
  intros H. unfold PatchedMediaKeysMs.normaliseInitData_.
  destruct (Nat.leb_spec
              (List.length (scanner (contents (PatchedMediaKeysMs.heap w) a)))
              1) as [_|Hgt]; [|lia].
  split; reflexivity.
Qed.

Lemma normalise_single_unchanged_witness :
  (fst (PatchedMediaKeysMs.normaliseInitData_ Pssh.dataBoundaries
          (obj (mkView 0 0 32)) (PatchedMediaKeysMs.mkWorld [pssh32] []))
   = obj (mkView 0 0 32)
   /\ PatchedMediaKeysMs.heap
        (snd (PatchedMediaKeysMs.normaliseInitData_ Pssh.dataBoundaries
                (obj (mkView 0 0 32))
                (PatchedMediaKeysMs.mkWorld [pssh32] [])))
      = [pssh32])
  /\ fst (PatchedMediaKeysMs.normaliseInitData_ Pssh.dataBoundaries
            (obj (mkView 0 0 3)) (PatchedMediaKeysMs.mkWorld [[x00; x00; x01]] []))
     = obj (mkView 0 0 3).
Proof.
  split.
  - apply (@normalise_single_unchanged Pssh.dataBoundaries (mkView 0 0 32)
             (PatchedMediaKeysMs.mkWorld [pssh32] [])).
    vm_compute. lia.
  - apply (@normalise_single_unchanged Pssh.dataBoundaries (mkView 0 0 3)
             (PatchedMediaKeysMs.mkWorld [[x00; x00; x01]] [])).
    vm_compute. lia.
Defined.

(** C9: for [null] and for [undefined], [normaliseInitData_] returns its
    argument and leaves the world as it was: no boundary scan is made and
    nothing is allocated, whatever the scanner. *)
Theorem normalise_null_unchanged
    (scanner : bytes -> list Pssh.dataBoundary) (w : PatchedMediaKeysMs.world) :
  PatchedMediaKeysMs.normaliseInitData_ scanner null w = (null, w)
  /\ PatchedMediaKeysMs.normaliseInitData_ scanner undefined w = (undefined, w).
Proof. split; reflexivity. Qed.

(** ** MediaKeyStatusMap *)

Lemma setStatus_invariant (status : PatchedMediaKeysMs.status_t)
    (m : PatchedMediaKeysMs.MediaKeyStatusMap) :
  PatchedMediaKeysMs.sizeInvariant (PatchedMediaKeysMs.setStatus status m).
Proof. destruct status; reflexivity. Qed.

Lemma afterCalls_snoc (calls : list PatchedMediaKeysMs.status_t)
    (s : PatchedMediaKeysMs.status_t) :
  PatchedMediaKeysMs.afterCalls (calls ++ [s])
  = PatchedMediaKeysMs.setStatus s (PatchedMediaKeysMs.afterCalls calls).
Proof. unfold PatchedMediaKeysMs.afterCalls. now rewrite fold_left_app. Qed.

(** C10: [size] is 1 when a status is set and 0 when none is: this holds of
    a new map, [setStatus] establishes it from any map and for any argument
    ([undefined] included), so it holds after every sequence of calls, where
    [size] is 0 or 1. *)
Theorem statusMap_size_invariant :
  PatchedMediaKeysMs.sizeInvariant PatchedMediaKeysMs.newMediaKeyStatusMap
  /\ (forall status m,
        PatchedMediaKeysMs.sizeInvariant (PatchedMediaKeysMs.setStatus status m))
  /\ (forall calls,
        PatchedMediaKeysMs.sizeInvariant (PatchedMediaKeysMs.afterCalls calls)
        /\ (PatchedMediaKeysMs.size (PatchedMediaKeysMs.afterCalls calls) = 0
            \/ PatchedMediaKeysMs.size (PatchedMediaKeysMs.afterCalls calls) = 1)).
Proof.
  split; [reflexivity|]. split; [apply setStatus_invariant|].
  intros calls.
  assert (I : PatchedMediaKeysMs.sizeInvariant
                (PatchedMediaKeysMs.afterCalls calls)).
  { destruct calls as [|s calls] using rev_ind; [reflexivity|].
    rewrite afterCalls_snoc. apply setStatus_invariant. }
  split; [assumption|].
  unfold PatchedMediaKeysMs.sizeInvariant in I. rewrite I.
  destruct (PatchedMediaKeysMs.status_ _); auto.
Qed.

(** ** The state-and-error monad *)

Lemma bind_Ok {St A B} (c : M St A) (k : A -> M St B) s a s' :
  c s = Ok (a, s') -> bind c k s = k a s'.
Proof. unfold bind. now intros ->. Qed.

Lemma bind_Throw {St A B} (c : M St A) (k : A -> M St B) s e :
  c s = Throw e -> bind c k s = Throw e.
Proof. unfold bind. now intros ->. Qed.

Lemma bind_inv_Ok {St A B} (c : M St A) (k : A -> M St B) s b s'' :
  bind c k s = Ok (b, s'') ->
  exists a s', c s = Ok (a, s') /\ k a s' = Ok (b, s'').
Proof.
  unfold bind. destruct (c s) as [[a s']|e]; [|discriminate].
  intros H. now exists a, s'.
Qed.

(** ** Reading a box header *)

Lemma readBox_lengths (po : bool) (r : bytes) t payload rest :
  Mp4Parser.readBox po r = Mp4Parser.BoxRead t payload rest ->
  8 <= List.length r
  /\ List.length payload + 8 <= List.length r
  /\ List.length rest + 8 <= List.length r.
Proof.
  unfold Mp4Parser.readBox.
  set (avail := N.of_nat (List.length r)).
  destruct (N.ltb_spec avail 8); [discriminate|].
  set (size32 := readUint (firstn 4 r)).
  set (hdr := if (size32 =? 1)%N then 16%N else 8%N).
  assert (Hh : (8 <= hdr)%N) by (subst hdr; destruct (size32 =? 1)%N; lia).
  destruct (N.ltb_spec avail hdr); [discriminate|].
  set (declared := if (size32 =? 0)%N then avail else _).
  destruct (N.ltb_spec declared hdr); [discriminate|].
  destruct ((avail <? declared)%N && negb po); [discriminate|].
  intros [= _ <- <-].
  rewrite length_firstn, !length_skipn. subst avail. lia.
Qed.

(** ** The traversal *)

Section TraversalFacts.

Import Mp4Parser.
Variable C : Type.
Variable p : Mp4Parser C.
Variable po : bool.

Local Open Scope monad_scope.

Lemma parseNext_S fuel anc r :
  parseNext (S fuel) p po anc r
  = match readBox po r with
    | ShortHeader => if po then ret [] else throw TruncatedInput
    | BadSize => throw MalformedBox
    | BoxRead type payload rest =>
        match lookup p type with
        | None => ret rest
        | Some (kind, definition) =>
            hd <- readFullBoxHeader kind payload ;;
            let '(v, f, body) := hd in
            visit type ;;
            match definition with
            | children => parseChildren fuel p po (anc ++ [type]) body
            | sampleDescription =>
                if List.length body <? 4 then throw TruncatedInput
                else parseEntries fuel p po (anc ++ [type])
                       (readUint (firstn 4 body)) (skipn 4 body)
            | callback f' => f' (mkBox v f body anc)
            end ;;
            ret rest
        end
    end.
Proof. reflexivity. Qed.

Lemma parseChildren_S fuel anc r :
  parseChildren (S fuel) p po anc r
  = (stopped <- isDone ;;
     if stopped then ret tt
     else match r with
          | [] => ret tt
          | _ :: _ =>
              r' <- parseNext fuel p po anc r ;;
              parseChildren fuel p po anc r'
          end).
Proof. reflexivity. Qed.

Lemma parseEntries_S fuel anc count r :
  parseEntries (S fuel) p po anc count r
  = if (count =? 0)%N then ret tt
    else
      stopped <- isDone ;;
      if stopped then ret tt
      else if List.length r <? 8 then throw MalformedBox
      else
        r' <- parseNext fuel p po anc r ;;
        parseEntries fuel p po anc (count - 1)%N r'.
Proof. reflexivity. Qed.

Lemma readFullBoxHeader_length kind payload (s : pstate C) v f body s1 :
  readFullBoxHeader kind payload s = Ok (v, f, body, s1) ->
  s1 = s /\ List.length body <= List.length payload.
Proof.
  destruct kind; unfold readFullBoxHeader, ret, throw.
  - intros [= _ _ <- <-]. split; [reflexivity | lia].
  - destruct (List.length payload <? 4); [discriminate|].
    intros [= _ _ <- <-]. split; [reflexivity|].
    change (List.length (skipn 4 payload) <= List.length payload).
    rewrite length_skipn. lia.
Qed.

(** [parseNext] hands back strictly less than it was given. *)
Lemma parseNext_rest fuel anc r s r' s' :
  parseNext fuel p po anc r s = Ok (r', s') ->
  r <> [] -> List.length r' < List.length r.
Proof.
  intros H Hr.
  assert (L0 : 0 < List.length r) by (destruct r; [congruence | simpl; lia]).
  destruct fuel as [|fuel]; [simpl in H|rewrite parseNext_S in H].
  - inversion H. simpl. lia.
  - destruct (readBox po r) as [t payload rest| |] eqn:E.
    + apply readBox_lengths in E.
      destruct (lookup p t) as [[kind def]|].
      * apply bind_inv_Ok in H. destruct H as ([[v f] body] & s1 & _ & H).
        apply bind_inv_Ok in H. destruct H as (? & s2 & _ & H).
        apply bind_inv_Ok in H. destruct H as (? & s3 & _ & H).
        inversion H. subst. lia.
      * inversion H. subst. lia.
    + destruct po; inversion H. simpl. lia.
    + discriminate.
Qed.


(** The results do not depend on the fuel, once there is enough of it. *)
Lemma fuel_irrelevant n :
  (forall m anc r s, 1 <= n -> 1 <= m ->
     List.length r <= n -> List.length r <= m ->
     parseNext n p po anc r s = parseNext m p po anc r s)
  /\ (forall m anc r s, List.length r < n -> List.length r < m ->
        parseChildren n p po anc r s = parseChildren m p po anc r s)
  /\ (forall m anc count r s, List.length r < n -> List.length r < m ->
        parseEntries n p po anc count r s = parseEntries m p po anc count r s).
Proof.
  induction n as [|n (IHn & IHc & IHe)]; [repeat split; intros; lia|].
  repeat split.
  - intros [|m] anc r s H1 H2 Hn Hm; [lia|].
    rewrite !parseNext_S.
    destruct (readBox po r) as [t payload rest| |] eqn:E; try reflexivity.
    apply readBox_lengths in E.
    destruct (lookup p t) as [[kind def]|]; [|reflexivity].
    unfold bind.
    destruct (readFullBoxHeader kind payload s) as [[[[v f] body] s1]|] eqn:Eh;
      [|reflexivity].
    apply readFullBoxHeader_length in Eh. destruct Eh as [-> Hb].
    cbn [visit modify].
    destruct def as [| |cb]; [| |reflexivity].
    + rewrite (IHc m) by lia. reflexivity.
    + destruct (List.length body <? 4); [reflexivity|].
      rewrite (IHe m) by (rewrite ?length_skipn; lia).
      reflexivity.
  - intros [|m] anc r s Hn Hm; [lia|].
    rewrite !parseChildren_S. unfold isDone; unfold bind, get, ret; cbn beta iota.
    destruct (done_ s); [reflexivity|].
    destruct r as [|b r]; [reflexivity|]. simpl in Hn, Hm.
    rewrite (IHn m) by (simpl; lia).
    destruct (parseNext m p po anc (b :: r) s) as [[r' s']|] eqn:E;
      [|reflexivity].
    apply parseNext_rest in E; [|discriminate]. simpl in E.
    apply IHc; lia.
  - intros [|m] anc count r s Hn Hm; [lia|].
    rewrite !parseEntries_S.
    destruct (count =? 0)%N; [reflexivity|].
    unfold isDone; unfold bind, get, ret; cbn beta iota.
    destruct (done_ s); [reflexivity|].
    destruct (Nat.ltb_spec (List.length r) 8); [reflexivity|].
    rewrite (IHn m) by lia.
    destruct (parseNext m p po anc r s) as [[r' s']|] eqn:E; [|reflexivity].
    apply parseNext_rest in E; [|destruct r; simpl in *; [lia|discriminate]].
    apply IHe; lia.
Qed.

End TraversalFacts.

Section TraversalEquations.

Import Mp4Parser.
Local Open Scope monad_scope.
Variable C : Type.
Variable p : Mp4Parser C.
Variable po : bool.

(** The equations of the traversal, fuel left alone. *)
Lemma parseChildren_unfold fuel anc r s :
  List.length r < fuel ->
  parseChildren fuel p po anc r s
  = if done_ s then Ok (tt, s)
    else match r with
         | [] => Ok (tt, s)
         | _ :: _ =>
             match parseNext fuel p po anc r s with
             | Ok (r', s') => parseChildren fuel p po anc r' s'
             | Throw e => Throw e
             end
         end.
Proof.
  destruct fuel as [|n]; [lia|]. intros H.
  rewrite parseChildren_S. unfold isDone; unfold bind, get, ret; cbn beta iota.
  destruct (done_ s); [reflexivity|].
  destruct r as [|b r]; [reflexivity|]. simpl in H.
  rewrite (proj1 (fuel_irrelevant p po n) (S n)) by (simpl; lia).
  destruct (parseNext (S n) p po anc (b :: r) s) as [[r' s']|] eqn:E;
    [|reflexivity].
  apply parseNext_rest in E; [|discriminate]. simpl in E.
  apply (proj1 (proj2 (fuel_irrelevant p po n))); lia.
Qed.

Lemma parseEntries_unfold fuel anc count r s :
  List.length r < fuel ->
  parseEntries fuel p po anc count r s
  = if (count =? 0)%N then Ok (tt, s)
    else if done_ s then Ok (tt, s)
    else if List.length r <? 8 then Throw MalformedBox
    else match parseNext fuel p po anc r s with
         | Ok (r', s') => parseEntries fuel p po anc (count - 1)%N r' s'
         | Throw e => Throw e
         end.
Proof.
  destruct fuel as [|n]; [lia|]. intros H.
  rewrite parseEntries_S.
  destruct (count =? 0)%N; [reflexivity|].
  unfold isDone; unfold bind, get, ret; cbn beta iota.
  destruct (done_ s); [reflexivity|].
  destruct (Nat.ltb_spec (List.length r) 8); [reflexivity|].
  rewrite (proj1 (fuel_irrelevant p po n) (S n)) by lia.
  destruct (parseNext (S n) p po anc r s) as [[r' s']|] eqn:E; [|reflexivity].
  apply parseNext_rest in E; [|destruct r; simpl in *; [lia|discriminate]].
  apply (proj2 (proj2 (fuel_irrelevant p po n))); lia.
Qed.

(** A box whose type is registered for descent. *)
Lemma parseNext_children fuel anc r s t payload rest :
  List.length r < fuel ->
  readBox po r = BoxRead t payload rest ->
  lookup p t = Some (BASIC_BOX, children) ->
  parseNext fuel p po anc r s
  = match parseChildren fuel p po (anc ++ [t]) payload (visiting t s) with
    | Ok (_, s') => Ok (rest, s')
    | Throw e => Throw e
    end.
Proof.
  destruct fuel as [|n]; [lia|]. intros H E L.
  rewrite parseNext_S, E, L. unfold bind; simpl.
  apply readBox_lengths in E.
  rewrite (proj1 (proj2 (fuel_irrelevant p po n)) (S n)) by lia.
  reflexivity.
Qed.

(** A full box registered as a sample description. *)
Lemma parseNext_sampleDescription fuel anc r s t payload rest :
  List.length r < fuel ->
  readBox po r = BoxRead t payload rest ->
  lookup p t = Some (FULL_BOX, sampleDescription) ->
  8 <= List.length payload ->
  parseNext fuel p po anc r s
  = match parseEntries fuel p po (anc ++ [t])
            (readUint (firstn 4 (skipn 4 payload))) (skipn 8 payload)
            (visiting t s) with
    | Ok (_, s') => Ok (rest, s')
    | Throw e => Throw e
    end.
Proof.
  destruct fuel as [|n]; [lia|]. intros H E L Hp.
  rewrite parseNext_S, E, L. unfold bind, readFullBoxHeader.
  destruct (Nat.ltb_spec (List.length payload) 4); [lia|].
  unfold ret at 1. cbn beta iota. cbn [visit modify].
  destruct (Nat.ltb_spec (List.length (skipn 4 payload)) 4) as [Hs|Hs];
    [rewrite length_skipn in Hs; lia|].
  apply readBox_lengths in E.
  rewrite skipn_skipn. change (4 + 4) with 8.
  rewrite (proj2 (proj2 (fuel_irrelevant p po n)) (S n))
    by (rewrite length_skipn; lia).
  reflexivity.
Qed.

(** A box handed to a callback of the caller. *)
Lemma parseNext_callback fuel anc r s t payload rest cb :
  1 <= fuel ->
  readBox po r = BoxRead t payload rest ->
  lookup p t = Some (BASIC_BOX, callback cb) ->
  parseNext fuel p po anc r s
  = match cb (mkBox None None payload anc) (visiting t s) with
    | Ok (_, s') => Ok (rest, s')
    | Throw e => Throw e
    end.
Proof.
  destruct fuel as [|n]; [lia|]. intros _ E L.
  rewrite parseNext_S, E, L. reflexivity.
Qed.

(** A box of a type nobody registered is skipped. *)
Lemma parseNext_skip fuel anc r s t payload rest :
  1 <= fuel ->
  readBox po r = BoxRead t payload rest ->
  lookup p t = None ->
  parseNext fuel p po anc r s = Ok (rest, s).
Proof.
  destruct fuel as [|n]; [lia|]. intros _ E L.
  rewrite parseNext_S, E, L. reflexivity.
Qed.

Section Invariant.

Variable I : pstate C -> Prop.
Variable E : exn -> Prop.
Hypothesis E_truncated : E TruncatedInput.
Hypothesis E_malformed : E MalformedBox.
Hypothesis registered_ok : forall t kind def s,
  lookup p t = Some (kind, def) -> I s ->
  match def with
  | callback cb => forall b, ensures I E (cb b (visiting t s))
  | _ => I (visiting t s)
  end.

Lemma ensures_then {A B} (c : P C A) (x : B) s :
  ensures I E (c s) -> ensures I E ((c ;; ret x) s).
Proof. unfold bind, ret. destruct (c s) as [[a s']|e]; auto. Qed.

(** Whatever the buffer, a traversal that starts in [I] ends in [I] or
    throws within [E]. *)
Lemma traversal_ensures n :
  (forall anc r s, I s -> ensures I E (parseNext n p po anc r s))
  /\ (forall anc r s, I s -> ensures I E (parseChildren n p po anc r s))
  /\ (forall anc count r s, I s ->
        ensures I E (parseEntries n p po anc count r s)).
Proof.
  induction n as [|n (IHn & IHc & IHe)]; [repeat split; intros; assumption|].
  repeat split.
  - intros anc r s Hs. rewrite parseNext_S.
    destruct (readBox po r) as [t payload rest| |]; [|destruct po|];
      try assumption.
    destruct (lookup p t) as [[kind def]|] eqn:L; [|assumption].
    pose proof (registered_ok _ L Hs) as R.
    unfold bind at 1.
    destruct (readFullBoxHeader kind payload s) as [[[[v f] body] s1]|e] eqn:Eh.
    + apply readFullBoxHeader_length in Eh. destruct Eh as [-> _].
      unfold bind at 1. cbn [visit modify]. fold (visiting t s).
      apply ensures_then.
      destruct def as [| |cb]; [now apply IHc| |apply R].
      destruct (List.length body <? 4); [assumption | now apply IHe].
    + destruct kind; [discriminate|]. unfold readFullBoxHeader in Eh.
      destruct (List.length payload <? 4); [|discriminate].
      inversion Eh. assumption.
  - intros anc r s Hs. rewrite parseChildren_S.
    unfold isDone; unfold bind, get, ret; cbn beta iota.
    destruct (done_ s); [assumption|]. destruct r as [|b r]; [assumption|].
    specialize (IHn anc (b :: r) s Hs).
    destruct (parseNext n p po anc (b :: r) s) as [[r' s']|e]; [|assumption].
    now apply IHc.
  - intros anc count r s Hs. rewrite parseEntries_S.
    destruct (count =? 0)%N; [assumption|].
    unfold isDone; unfold bind, get, ret; cbn beta iota.
    destruct (done_ s); [assumption|].
    destruct (List.length r <? 8); [assumption|].
    specialize (IHn anc r s Hs).
    destruct (parseNext n p po anc r s) as [[r' s']|e]; [|assumption].
    now apply IHe.
Qed.

(** The same of a whole [parse], when [I] does not look at the stop flag. *)
Lemma parse_ensures data s :
  (forall d v c, I (mkState d v c) -> I (mkState false v c)) ->
  I s -> ensures I E (parse p data po s).
Proof.
  intros Hd Hs. unfold parse, bind, modify.
  apply traversal_ensures. destruct s as [d v c]. now apply (Hd d).
Qed.

End Invariant.

End TraversalEquations.

(** ** Serialised boxes are read back *)

Lemma to_N_byte_of_N (n : N) : Byte.to_N (byte_of_N n) = (n mod 256)%N.
Proof.
  unfold byte_of_N.
  destruct (Byte.of_N (n mod 256)) as [b|] eqn:E.
  - now apply Byte.to_of_N.
  - apply Byte.of_N_None_iff in E.
    pose proof (N.mod_upper_bound n 256). lia.
Qed.

Lemma readUint_be32 (n : N) : (n < 4294967296)%N -> readUint (be32 n) = n.
Proof.
  intros H. unfold readUint, be32, be_decode.
  rewrite !to_N_byte_of_N. zify. Z.to_euclidean_division_equations. lia.
Qed.

Lemma length_list_byte_of_string (s : string) :
  List.length (list_byte_of_string s) = String.length s.
Proof.
  unfold list_byte_of_string. rewrite length_map.
  induction s as [|c s IH]; simpl; congruence.
Qed.

Lemma length_encodeBox (t : string) (payload : bytes) :
  String.length t = 4 ->
  List.length (encodeBox t payload) = 8 + List.length payload.
Proof.
  intros H. unfold encodeBox.
  rewrite !length_app, length_list_byte_of_string, H. reflexivity.
Qed.

Lemma readBox_encodeBox (po : bool) (t : string) (payload rest : bytes) :
  boxOk t payload ->
  Mp4Parser.readBox po (encodeBox t payload ++ rest)
  = Mp4Parser.BoxRead t payload rest.
Proof.
  intros [Ht Hs].
  assert (Lt : List.length (list_byte_of_string t) = 4)
    by now rewrite length_list_byte_of_string.
  unfold Mp4Parser.readBox.
  set (n := N.of_nat (8 + List.length payload)) in *.
  assert (L : List.length (encodeBox t payload ++ rest)
              = 8 + List.length payload + List.length rest)
    by now rewrite length_app, length_encodeBox.
  rewrite L.
  assert (F4 : firstn 4 (encodeBox t payload ++ rest) = be32 n) by reflexivity.
  assert (S4 : firstn 4 (skipn 4 (encodeBox t payload ++ rest))
               = list_byte_of_string t).
  { unfold encodeBox. rewrite <- app_assoc.
    change (skipn 4 (be32 ?m ++ ?l)) with l.
    rewrite <- app_assoc, firstn_app, Lt, Nat.sub_diag, firstn_all2 by lia.
    simpl. apply app_nil_r. }
  rewrite F4, S4, readUint_be32, string_of_list_byte_of_string by assumption.
  destruct (N.ltb_spec (N.of_nat (8 + List.length payload + List.length rest)) 8);
    [lia|].
  destruct (N.eqb_spec n 1); [lia|]. destruct (N.eqb_spec n 0); [lia|].
  destruct (N.ltb_spec (N.of_nat (8 + List.length payload + List.length rest)) 8);
    [lia|].
  destruct (N.ltb_spec n 8); [lia|].
  destruct (N.ltb_spec (N.of_nat (8 + List.length payload + List.length rest)) n);
    [lia|].
  cbn [andb].
  replace (N.to_nat (N.min n _)) with (8 + List.length payload) by lia.
  change (N.to_nat 8) with 8.
  replace (8 + List.length payload - 8) with (List.length payload) by lia.
  f_equal.
  - unfold encodeBox. rewrite <- !app_assoc.
    change (skipn 8 (be32 ?m ++ ?l)) with (skipn 4 l).
    rewrite skipn_app, Lt, Nat.sub_diag, skipn_all2 by lia. simpl.
    rewrite firstn_app, firstn_all, Nat.sub_diag. simpl. apply app_nil_r.
  - rewrite <- (@length_encodeBox t payload Ht).
    rewrite skipn_app, skipn_all, Nat.sub_diag. reflexivity.
Qed.

(** ** The initialization check *)

Section InitFacts.

Import Mp4Parser Mp4TtmlParser.

Ltac registered H t fin :=
  lazymatch type of H with
  | context [String.eqb ?a t] =>
      destruct (String.eqb_spec a t) as [<-|?];
      [injection H as <- <-; fin | registered H t fin]
  | _ => discriminate H
  end.

Lemma in_visiting {C} (x t : tag) (s : pstate C) :
  In x (visited (visiting t s)) <-> In x (visited s) \/ t = x.
Proof. unfold visiting; simpl. rewrite in_app_iff. simpl. tauto. Qed.

Lemma init_registered_ok t kind def s :
  lookup initParser t = Some (kind, def) -> initInv s ->
  match def with
  | callback cb => forall b, ensures initInv parsingError (cb b (visiting t s))
  | _ => initInv (visiting t s)
  end.
Proof.
  intros H Hs. unfold initParser, box, fullBox, newMp4Parser in H.
  cbn [lookup] in H. unfold initInv in *.
  registered H t
    ltac:(try intros b; cbn [ensures bind setClosure stop modify];
          rewrite ?in_visiting; cbn [closure visited visiting];
          try (rewrite Hs; split;
               [now left | intros [?|?]; [assumption|discriminate]])).
  rewrite in_app_iff; simpl. tauto.
Qed.

Lemma traverseInit_ensures data :
  ensures initInv parsingError (traverseInit data).
Proof.
  unfold traverseInit.
  apply parse_ensures with (I := initInv) (E := parsingError).
  - now left.
  - now right.
  - apply init_registered_ok.
  - intros d v c H. exact H.
  - unfold initInv, fresh; simpl. split; [discriminate | intros []].
Qed.

End InitFacts.

(** ** Media extraction *)

Section MediaFacts.

Import Mp4Parser Mp4TtmlParser.
Variables Cue TimeContext : Type.
Variable first : bytes -> TimeContext -> outcome Cue.
Variable all : bytes -> TimeContext -> outcome (list Cue).

Lemma lookup_media time partial t :
  lookup (mediaParser first all time partial) t
  = if String.eqb "mdat" t
    then Some (BASIC_BOX, allData (onMdat first all time partial))
    else None.
Proof. reflexivity. Qed.

(** What the [mdat] callback does to a state. *)
Lemma onMdat_first time data (s : pstate (mediaVars Cue TimeContext)) :
  onMdat first all time true data s
  = match first data time with
    | Returns cue =>
        Ok (tt, mkState true (visited s)
                  (mkVars true [cue]
                     (calls (closure s) ++ [callParseFirstCue data time])))
    | Raises n => Throw (foreignError n)
    end.
Proof.
  unfold onMdat, setSawMDAT, invokeFirstCue, setPayload, getClosure,
    setClosure, stop, bind, get, ret, modify, call; simpl.
  destruct (first data time); reflexivity.
Qed.

Lemma onMdat_all time data (s : pstate (mediaVars Cue TimeContext)) :
  onMdat first all time false data s
  = match all data time with
    | Returns cues =>
        Ok (tt, mkState (done_ s) (visited s)
                  (mkVars true (payload (closure s) ++ cues)
                     (calls (closure s) ++ [callParseMedia data time])))
    | Raises n => Throw (foreignError n)
    end.
Proof.
  unfold onMdat, setSawMDAT, invokeParseMedia, setPayload, getClosure,
    setClosure, stop, bind, get, ret, modify, call; simpl.
  destruct (all data time); reflexivity.
Qed.

Lemma media_registered_ok time partial t kind def
    (s : pstate (mediaVars Cue TimeContext)) :
  lookup (mediaParser first all time partial) t = Some (kind, def) ->
  mediaInv s ->
  match def with
  | callback cb => forall b, ensures mediaInv mediaError (cb b (visiting t s))
  | _ => mediaInv (visiting t s)
  end.
Proof.
  rewrite lookup_media. intros H Hs.
  destruct (String.eqb_spec "mdat" t) as [<-|]; [|discriminate].
  injection H as <- <-. intros b. unfold allData.
  destruct partial; [rewrite onMdat_first | rewrite onMdat_all].
  - destruct (first (reader b) time) as [cue|n]; simpl.
    + unfold mediaInv; simpl. rewrite in_app_iff; simpl. tauto.
    + right. now exists n.
  - destruct (all (reader b) time) as [cues|n]; simpl.
    + unfold mediaInv; simpl. rewrite in_app_iff; simpl. tauto.
    + right. now exists n.
Qed.

Lemma traverseMedia_ensures data time partial log :
  ensures mediaInv mediaError (traverseMedia first all data time partial log).
Proof.
  unfold traverseMedia.
  apply parse_ensures with (I := mediaInv) (E := mediaError).
  - left. now left.
  - left. now right.
  - apply media_registered_ok.
  - intros d v c H. exact H.
  - unfold mediaInv, fresh; simpl. split; [discriminate | intros []].
Qed.

(** [parseMediaInternal_] in terms of the traversal it runs. *)
Lemma parseMediaInternal_cases data time partial log :
  match traverseMedia first all data time partial log with
  | Throw e =>
      parseMediaInternal_ first all data time partial log = Throw e
      /\ mediaError e
  | Ok (_, s) =>
      if sawMDAT (closure s)
      then In "mdat"%string (visited s)
           /\ parseMediaInternal_ first all data time partial log
              = Ok (payload (closure s), calls (closure s))
      else ~ In "mdat"%string (visited s)
           /\ parseMediaInternal_ first all data time partial log
              = Throw InvalidContainer
  end.
Proof.
  pose proof (traverseMedia_ensures data time partial log) as H.
  unfold parseMediaInternal_.
  destruct (traverseMedia first all data time partial log) as [[u s]|e];
    simpl in H; [|now split].
  unfold mediaInv in H.
  destruct (sawMDAT (closure s)); simpl.
  - split; [now apply H | reflexivity].
  - split; [|reflexivity]. intros Hin. apply H in Hin. discriminate.
Qed.

End MediaFacts.

Lemma parseInit_cases data :
  match Mp4TtmlParser.traverseInit data with
  | Throw e => Mp4TtmlParser.parseInit data = Throw e /\ parsingError e
  | Ok (_, s) =>
      if Mp4Parser.closure s
      then In "stpp"%string (Mp4Parser.visited s)
           /\ Mp4TtmlParser.parseInit data = Ok tt
      else ~ In "stpp"%string (Mp4Parser.visited s)
           /\ Mp4TtmlParser.parseInit data = Throw InvalidContainer
  end.
Proof.
  pose proof (traverseInit_ensures data) as H.
  unfold Mp4TtmlParser.parseInit.
  destruct (Mp4TtmlParser.traverseInit data) as [[u s]|e];
    simpl in H; [|now split].
  unfold initInv in H.
  destruct (Mp4Parser.closure s); simpl.
  - split; [now apply H | reflexivity].
  - split; [|reflexivity]. intros Hin. apply H in Hin. discriminate.
Qed.

Lemma parsingError_not_InvalidContainer e :
  parsingError e -> e <> InvalidContainer.
Proof. intros [->| ->]; discriminate. Qed.

Lemma mediaError_not_InvalidContainer e :
  mediaError e -> e <> InvalidContainer.
Proof. intros [[->| ->]|[n ->]]; discriminate. Qed.

(** ** The two entry points and the error of an absent box *)

(** An entry point that runs a traversal and then looks at a flag. *)
Lemma gate_iff {S R} (tr : result (unit * S)) (out : result R)
    (seen : S -> Prop) (bad : exn -> Prop) :
  (forall e, bad e -> e <> InvalidContainer) ->
  match tr with
  | Throw e => out = Throw e /\ bad e
  | Ok (_, s) =>
      (seen s /\ exists r, out = Ok r)
      \/ (~ seen s /\ out = Throw InvalidContainer)
  end ->
  (out = Throw InvalidContainer <-> exists s, tr = Ok (tt, s) /\ ~ seen s)
  /\ ((exists r, out = Ok r) <-> exists s, tr = Ok (tt, s) /\ seen s).
Proof.
  intros Hbad H. destruct tr as [[[] s]|e].
  - destruct H as [[Hs [r Hr]]|[Hs Hr]]; rewrite Hr; split; split.
    + discriminate.
    + intros (s' & [= <-] & Hn). contradiction.
    + intros _. now exists s.
    + intros _. now exists r.
    + intros _. now exists s.
    + reflexivity.
    + intros [r [=]].
    + intros (s' & [= <-] & Hn). contradiction.
  - destruct H as [Hr Hb]. rewrite Hr. split; split.
    + intros [= ->]. now apply Hbad in Hb.
    + intros (s & [=] & _).
    + intros [r [=]].
    + intros (s & [=] & _).
Qed.

Section EntryPoints.

Import Mp4Parser Mp4TtmlParser.
Variables Cue TimeContext : Type.
Variable first : bytes -> TimeContext -> outcome Cue.
Variable all : bytes -> TimeContext -> outcome (list Cue).

Lemma parseInit_gate data :
  match traverseInit data with
  | Throw e => parseInit data = Throw e /\ parsingError e
  | Ok (_, s) =>
      (In "stpp"%string (visited s) /\ exists r, parseInit data = Ok r)
      \/ (~ In "stpp"%string (visited s)
          /\ parseInit data = Throw InvalidContainer)
  end.
Proof.
  pose proof (parseInit_cases data) as H.
  destruct (traverseInit data) as [[u s]|e]; [|assumption].
  destruct (closure s); destruct H as [H1 H2]; [left | right];
    (split; [assumption|]); [now exists tt | assumption].
Qed.

Lemma parseMedia_gate data time log :
  match traverseMedia first all data time false log with
  | Throw e => parseMedia first all data time log = Throw e /\ mediaError e
  | Ok (_, s) =>
      (In "mdat"%string (visited s)
       /\ exists r, parseMedia first all data time log = Ok r)
      \/ (~ In "mdat"%string (visited s)
          /\ parseMedia first all data time log = Throw InvalidContainer)
  end.
Proof.
  pose proof (parseMediaInternal_cases first all data time false log) as H.
  unfold parseMedia.
  destruct (traverseMedia first all data time false log) as [[u s]|e];
    [|assumption].
  destruct (sawMDAT (closure s)); destruct H as [H1 H2]; [left | right];
    (split; [assumption|]); [eexists; eassumption | assumption].
Qed.

Lemma parseFirstCue_gate data time log :
  match traverseMedia first all data time true log with
  | Throw e => parseFirstCue first all data time log = Throw e /\ mediaError e
  | Ok (_, s) =>
      (In "mdat"%string (visited s)
       /\ exists r, parseFirstCue first all data time log = Ok r)
      \/ (~ In "mdat"%string (visited s)
          /\ parseFirstCue first all data time log = Throw InvalidContainer)
  end.
Proof.
  pose proof (parseMediaInternal_cases first all data time true log) as H.
  unfold parseFirstCue.
  destruct (traverseMedia first all data time true log) as [[u s]|e].
  - destruct (sawMDAT (closure s)); destruct H as [H1 ->]; [left | right];
      (split; [assumption|]); [eexists; reflexivity | reflexivity].
  - destruct H as [-> H]. now split.
Qed.

End EntryPoints.

(** C2 (amended): each entry point throws the critical INVALID_MP4_TTML
    error exactly
    when its traversal ran to completion without ever handing a box of the
    required type to its handler ([stpp] for [parseInit], [mdat] for
    [parseMedia] and [parseFirstCue]), and it succeeds exactly when the
    traversal completed and that box was seen. *)
Theorem invalid_container_iff_required_box_unseen
    (Cue TimeContext : Type)
    (first : bytes -> TimeContext -> outcome Cue)
    (all : bytes -> TimeContext -> outcome (list Cue))
    (data : bytes) (time : TimeContext)
    (log : list (Mp4TtmlParser.decoderCall TimeContext)) :
  ((Mp4TtmlParser.parseInit data = Throw InvalidContainer
    <-> exists s, Mp4TtmlParser.traverseInit data = Ok (tt, s)
                  /\ ~ In "stpp"%string (Mp4Parser.visited s))
   /\ ((exists r, Mp4TtmlParser.parseInit data = Ok r)
       <-> exists s, Mp4TtmlParser.traverseInit data = Ok (tt, s)
                     /\ In "stpp"%string (Mp4Parser.visited s)))
  /\ ((Mp4TtmlParser.parseMedia first all data time log = Throw InvalidContainer
       <-> exists s,
             Mp4TtmlParser.traverseMedia first all data time false log
               = Ok (tt, s)
             /\ ~ In "mdat"%string (Mp4Parser.visited s))
      /\ ((exists r, Mp4TtmlParser.parseMedia first all data time log = Ok r)
          <-> exists s,
                Mp4TtmlParser.traverseMedia first all data time false log
                  = Ok (tt, s)
                /\ In "mdat"%string (Mp4Parser.visited s)))
  /\ ((Mp4TtmlParser.parseFirstCue first all data time log
         = Throw InvalidContainer
       <-> exists s,
             Mp4TtmlParser.traverseMedia first all data time true log
               = Ok (tt, s)
             /\ ~ In "mdat"%string (Mp4Parser.visited s))
      /\ ((exists r, Mp4TtmlParser.parseFirstCue first all data time log = Ok r)
          <-> exists s,
                Mp4TtmlParser.traverseMedia first all data time true log
                  = Ok (tt, s)
                /\ In "mdat"%string (Mp4Parser.visited s))).
Proof.
  split; [|split].
  - apply gate_iff with (bad := parsingError);
      [apply parsingError_not_InvalidContainer | apply parseInit_gate].
  - apply gate_iff with (bad := mediaError);
      [apply mediaError_not_InvalidContainer | apply parseMedia_gate].
  - apply gate_iff with (bad := mediaError);
      [apply mediaError_not_InvalidContainer | apply parseFirstCue_gate].
Qed.

(** An entry point surfaces what its traversal throws, and throws nothing
    else but the error of the absent box. *)
Lemma gate_propagates {S R} (tr : result (unit * S)) (out : result R)
    (seen : S -> Prop) (bad : exn -> Prop) :
  match tr with
  | Throw e => out = Throw e /\ bad e
  | Ok (_, s) =>
      (seen s /\ exists r, out = Ok r)
      \/ (~ seen s /\ out = Throw InvalidContainer)
  end ->
  (forall e, tr = Throw e -> out = Throw e /\ bad e)
  /\ (forall e, out = Throw e ->
        tr = Throw e \/ (e = InvalidContainer /\ exists s, tr = Ok (tt, s))).
Proof.
  intros H. destruct tr as [[[] s]|e0].
  - split; [discriminate|]. intros e He. right.
    destruct H as [[_ [r Hr]]|[_ Hr]]; rewrite Hr in He; [discriminate|].
    injection He as <-. split; [reflexivity | now exists s].
  - destruct H as [Hr Hb]. split.
    + intros e [= <-]. now split.
    + intros e He. left. congruence.
Qed.

(** C8: what the box traversal throws ([TruncatedInput], [MalformedBox],
    and for media extraction what the decoder raises) comes out of
    [parseInit], [parseMedia] and [parseFirstCue] as the very same error;
    conversely an error of an entry point is either the one its traversal
    threw or, the traversal having completed, the error of the absent box.
    Both parsing errors do occur, also from a nested box. *)
Theorem traversal_errors_propagate_unchanged
    (Cue TimeContext : Type)
    (first : bytes -> TimeContext -> outcome Cue)
    (all : bytes -> TimeContext -> outcome (list Cue))
    (data : bytes) (time : TimeContext)
    (log : list (Mp4TtmlParser.decoderCall TimeContext)) :
  ((forall e, Mp4TtmlParser.traverseInit data = Throw e ->
      Mp4TtmlParser.parseInit data = Throw e /\ parsingError e)
   /\ (forall e, Mp4TtmlParser.parseInit data = Throw e ->
         Mp4TtmlParser.traverseInit data = Throw e
         \/ (e = InvalidContainer
             /\ exists s, Mp4TtmlParser.traverseInit data = Ok (tt, s))))
  /\ ((forall e,
         Mp4TtmlParser.traverseMedia first all data time false log = Throw e ->
         Mp4TtmlParser.parseMedia first all data time log = Throw e
         /\ mediaError e)
      /\ (forall e, Mp4TtmlParser.parseMedia first all data time log = Throw e ->
            Mp4TtmlParser.traverseMedia first all data time false log = Throw e
            \/ (e = InvalidContainer
                /\ exists s,
                     Mp4TtmlParser.traverseMedia first all data time false log
                     = Ok (tt, s))))
  /\ ((forall e,
         Mp4TtmlParser.traverseMedia first all data time true log = Throw e ->
         Mp4TtmlParser.parseFirstCue first all data time log = Throw e
         /\ mediaError e)
      /\ (forall e,
            Mp4TtmlParser.parseFirstCue first all data time log = Throw e ->
            Mp4TtmlParser.traverseMedia first all data time true log = Throw e
            \/ (e = InvalidContainer
                /\ exists s,
                     Mp4TtmlParser.traverseMedia first all data time true log
                     = Ok (tt, s))))
  /\ Mp4TtmlParser.parseInit [x00; x00; x00] = Throw TruncatedInput
  /\ Mp4TtmlParser.parseInit
       (encodeBox "moov" (be32 4 ++ list_byte_of_string "trak"))
     = Throw MalformedBox
  /\ Mp4TtmlParser.parseMedia first all [x00; x00; x00] time log
     = Throw TruncatedInput
  /\ Mp4TtmlParser.parseFirstCue first all
       (be32 4 ++ list_byte_of_string "mdat") time log
     = Throw MalformedBox.
Proof.
  split; [|split; [|split]].
  - eapply gate_propagates, parseInit_gate.
  - eapply gate_propagates, parseMedia_gate.
  - eapply gate_propagates, parseFirstCue_gate.
  - repeat split; reflexivity.
Qed.

(** ** Walking the boxes of a buffer *)

Lemma boxesThen_app po r bs1 bs2 tail :
  boxesThen po r (bs1 ++ bs2) tail ->
  exists mid, boxesThen po r bs1 mid /\ boxesThen po mid bs2 tail.
Proof.
  revert r. induction bs1 as [|[t pl] bs1 IH]; intros r H.
  - exists r. split; [constructor | exact H].
  - inversion H as [|? ? ? rest ? ? E H']; subst.
    destruct (IH _ H') as (mid & H1 & H2).
    exists mid. split; [econstructor; eassumption | assumption].
Qed.

Lemma boxesThen_length po r bs tail :
  boxesThen po r bs tail -> List.length tail <= List.length r.
Proof.
  induction 1 as [|r t pl rest bs tail E _ IH]; [lia|].
  apply readBox_lengths in E. lia.
Qed.

Lemma boxesThen_encodeBoxes po bs tail :
  boxesOk bs -> boxesThen po (encodeBoxes bs ++ tail) bs tail.
Proof.
  induction 1 as [|[t pl] bs Hb _ IH]; [constructor|].
  unfold encodeBoxes; simpl. rewrite <- app_assoc.
  econstructor; [apply readBox_encodeBox; exact Hb | exact IH].
Qed.

Section MediaRuns.

Import Mp4Parser Mp4TtmlParser.
Variables Cue TimeContext : Type.
Variable first : bytes -> TimeContext -> outcome Cue.
Variable all : bytes -> TimeContext -> outcome (list Cue).
Variable time : TimeContext.

Lemma mdatPayloads_cons t pl bs :
  mdatPayloads ((t, pl) :: bs)
  = if String.eqb "mdat" t then pl :: mdatPayloads bs else mdatPayloads bs.
Proof.
  unfold mdatPayloads. cbn [filter fst]. rewrite String.eqb_sym.
  destruct (String.eqb "mdat" t); reflexivity.
Qed.

(** One step of the flat walk of [parseMediaInternal_]. *)
Lemma parseNext_media fuel partial anc r (s : pstate (mediaVars Cue TimeContext)) t pl rest :
  1 <= fuel ->
  readBox partial r = BoxRead t pl rest ->
  parseNext fuel (mediaParser first all time partial) partial anc r s
  = if String.eqb "mdat" t
    then match onMdat first all time partial pl (visiting t s) with
         | Ok (_, s') => Ok (rest, s')
         | Throw e => Throw e
         end
    else Ok (rest, s).
Proof.
  intros Hf E.
  pose proof (lookup_media first all time partial t) as L.
  destruct (String.eqb "mdat" t).
  - now rewrite (@parseNext_callback _ _ _ fuel anc r s t pl rest _ Hf E L).
  - now rewrite (@parseNext_skip _ _ _ fuel anc r s t pl rest Hf E L).
Qed.

(** Full extraction over a buffer made of the boxes [bs]. *)
Lemma full_run bs : forall r fuel (s : pstate (mediaVars Cue TimeContext)),
  boxesThen false r bs [] ->
  List.length r < fuel ->
  done_ s = false ->
  parseChildren fuel (mediaParser first all time false) false [] r s
  = match decodeAll (fun pl => all pl time) (mdatPayloads bs) with
    | Returns cues =>
        Ok (tt,
            mkState false
              (visited s ++ map (fun _ => "mdat"%string) (mdatPayloads bs))
              (mkVars
                 (sawMDAT (closure s)
                  || negb (Nat.eqb (List.length (mdatPayloads bs)) 0))
                 (payload (closure s) ++ cues)
                 (calls (closure s)
                    ++ map (fun pl => callParseMedia pl time)
                         (mdatPayloads bs))))
    | Raises n => Throw (foreignError n)
    end.
Proof.
  induction bs as [|[t pl] bs IH]; intros r fuel s H Hf Hd.
  - inversion H; subst. rewrite parseChildren_unfold by assumption.
    rewrite Hd. simpl. rewrite !app_nil_r, orb_false_r.
    destruct s as [d v [sm pc cs]]. simpl in *. now subst.
  - inversion H as [|? ? ? rest ? ? E H']; subst.
    rewrite parseChildren_unfold by assumption. rewrite Hd.
    pose proof (readBox_lengths _ _ E) as (L1 & L2 & L3).
    destruct r as [|b r]; [simpl in L1; lia|].
    rewrite (@parseNext_media fuel _ [] _ s _ _ _ ltac:(lia) E).
    rewrite mdatPayloads_cons.
    destruct (String.eqb_spec "mdat" t) as [<-|Hne].
    + rewrite onMdat_all. cbn [decodeAll].
      destruct (all pl time) as [cues|n]; [|reflexivity].
      rewrite (IH rest fuel) by (assumption || lia || reflexivity).
      cbn [closure visited payload calls sawMDAT visiting done_].
      destruct (decodeAll (fun pl0 => all pl0 time) (mdatPayloads bs));
        [|reflexivity].
      cbn [map List.length Nat.eqb negb]. rewrite orb_true_r.
      now rewrite <- !app_assoc.
    + now rewrite (IH rest fuel) by (assumption || lia).
Qed.

(** First-cue extraction: the boxes before the first [mdat] are skipped,
    the first [mdat] is decoded, and nothing after it is looked at. *)
Lemma first_run pre : forall r fuel (s : pstate (mediaVars Cue TimeContext)) pl tail,
  boxesThen true r (pre ++ [("mdat"%string, pl)]) tail ->
  noMdat pre ->
  List.length r < fuel ->
  done_ s = false ->
  parseChildren fuel (mediaParser first all time true) true [] r s
  = match first pl time with
    | Returns cue =>
        Ok (tt,
            mkState true (visited s ++ ["mdat"%string])
              (mkVars true [cue]
                 (calls (closure s) ++ [callParseFirstCue pl time])))
    | Raises n => Throw (foreignError n)
    end.
Proof.
  induction pre as [|[t pl0] pre IH]; intros r fuel s pl tail H Hn Hf Hd;
    inversion H as [|? ? ? rest ? ? E H']; subst;
    rewrite parseChildren_unfold by assumption; rewrite Hd;
    pose proof (readBox_lengths _ _ E) as (L1 & L2 & L3);
    (destruct r as [|b r]; [simpl in L1; lia|]);
    rewrite (@parseNext_media fuel _ [] _ s _ _ _ ltac:(lia) E).
  - inversion H'; subst. cbn [String.eqb Ascii.eqb Bool.eqb andb].
    change (String.eqb "mdat" "mdat") with true. cbn iota.
    rewrite onMdat_first. cbn [visiting visited closure].
    destruct (first pl time) as [cue|n]; [|reflexivity].
    rewrite parseChildren_unfold by lia. reflexivity.
  - inversion Hn as [|? ? Ht Hn']; subst. simpl in Ht.
    destruct (String.eqb_spec "mdat" t) as [<-|_]; [congruence|].
    eapply IH; eauto. lia.
Qed.

End MediaRuns.

Lemma first_mdat_split bs pl ps :
  mdatPayloads bs = pl :: ps ->
  exists pre rest,
    bs = (pre ++ [("mdat"%string, pl)]) ++ rest /\ noMdat pre.
Proof.
  induction bs as [|[t pl0] bs IH]; [discriminate|].
  rewrite mdatPayloads_cons.
  destruct (String.eqb_spec "mdat" t) as [<-|Hne].
  - intros [= -> _]. exists [], bs. split; [reflexivity | constructor].
  - intros H. destruct (IH H) as (pre & rest & -> & Hn).
    exists ((t, pl0) :: pre), rest. split; [reflexivity|].
    constructor; [simpl; congruence | assumption].
Qed.

(** C4: in full extraction mode, over every buffer that is a sequence of
    boxes, each [mdat] is handed to the decoder's [parseMedia], in file
    order, and the cues come back concatenated in that order (the first
    rejection of the decoder, if any, is what is thrown); a buffer without
    [mdat] is an invalid container. *)
Theorem parseMedia_decodes_every_mdat
    (Cue TimeContext : Type)
    (first : bytes -> TimeContext -> outcome Cue)
    (all : bytes -> TimeContext -> outcome (list Cue))
    (data : bytes) (bs : list (string * bytes)) (time : TimeContext)
    (log : list (Mp4TtmlParser.decoderCall TimeContext)) :
  boxesThen false data bs [] ->
  Mp4TtmlParser.parseMedia first all data time log
  = match mdatPayloads bs with
    | [] => Throw InvalidContainer
    | _ :: _ =>
        match decodeAll (fun pl => all pl time) (mdatPayloads bs) with
        | Returns cues =>
            Ok (cues,
                log ++ map (fun pl => Mp4TtmlParser.callParseMedia pl time)
                         (mdatPayloads bs))
        | Raises n => Throw (foreignError n)
        end
    end.
Proof.
  intros H.
  unfold Mp4TtmlParser.parseMedia, Mp4TtmlParser.parseMediaInternal_,
    Mp4TtmlParser.traverseMedia, Mp4Parser.parse, bind, modify.
  rewrite (@full_run Cue TimeContext first all time bs data) by
    (assumption || (simpl; lia) || reflexivity).
  destruct (mdatPayloads bs) as [|pl ps]; [reflexivity|].
  destruct (decodeAll (fun pl0 => all pl0 time) (pl :: ps)); reflexivity.
Qed.

Lemma parseMedia_decodes_every_mdat_witness :
  Mp4TtmlParser.parseMedia
    (fun pl (_ : unit) => Returns pl) (fun pl _ => Returns [pl; pl])
    (encodeBoxes [("mdat", [x01]); ("free", [x05]); ("mdat", [x02; x03])]%string)
    tt []
  = Ok ([[x01]; [x01]; [x02; x03]; [x02; x03]],
        [Mp4TtmlParser.callParseMedia [x01] tt;
         Mp4TtmlParser.callParseMedia [x02; x03] tt]).
Proof.
  apply (@parseMedia_decodes_every_mdat bytes unit
           (fun pl _ => Returns pl) (fun pl _ => Returns [pl; pl])
           (encodeBoxes [("mdat", [x01]); ("free", [x05]);
                         ("mdat", [x02; x03])]%string)
           [("mdat", [x01]); ("free", [x05]); ("mdat", [x02; x03])]%string
           tt []).
  apply (@boxesThen_encodeBoxes false
           [("mdat", [x01]); ("free", [x05]); ("mdat", [x02; x03])]%string
           []).
  repeat constructor.
Defined.

(** C3: in first-cue mode, over every buffer whose boxes include two
    [mdat] or more, the decoder's [parseFirstCue] is called once, on the
    payload of the first [mdat]; the traversal stops there, having handed
    that single box to a handler, and the cue decoded from it is what
    [parseFirstCue] returns (or what the decoder raised is thrown). *)
Theorem parseFirstCue_decodes_first_mdat_only
    (Cue TimeContext : Type)
    (first : bytes -> TimeContext -> outcome Cue)
    (all : bytes -> TimeContext -> outcome (list Cue))
    (data : bytes) (bs : list (string * bytes)) (post : bytes)
    (time : TimeContext)
    (log : list (Mp4TtmlParser.decoderCall TimeContext)) :
  boxesThen true data bs post ->
  2 <= List.length (mdatPayloads bs) ->
  let pl := hd [] (mdatPayloads bs) in
  match first pl time with
  | Returns cue =>
      Mp4TtmlParser.parseFirstCue first all data time log
      = Ok (Some cue, log ++ [Mp4TtmlParser.callParseFirstCue pl time])
      /\ Mp4TtmlParser.traverseMedia first all data time true log
         = Ok (tt,
               Mp4Parser.mkState true ["mdat"%string]
                 (Mp4TtmlParser.mkVars true [cue]
                    (log ++ [Mp4TtmlParser.callParseFirstCue pl time])))
  | Raises n =>
      Mp4TtmlParser.parseFirstCue first all data time log
      = Throw (foreignError n)
  end.
Proof.
  intros H H2.
  destruct (mdatPayloads bs) as [|pl ps] eqn:Em; [simpl in H2; lia|].
  destruct (first_mdat_split _ Em) as (pre & rest & -> & Hn).
  apply boxesThen_app in H. destruct H as (mid & H & Hrest).
  cbn [hd].
  assert (R : Mp4TtmlParser.traverseMedia first all data time true log
              = match first pl time with
                | Returns cue =>
                    Ok (tt,
                        Mp4Parser.mkState true ["mdat"%string]
                          (Mp4TtmlParser.mkVars true [cue]
                             (log ++ [Mp4TtmlParser.callParseFirstCue pl time])))
                | Raises n => Throw (foreignError n)
                end).
  { unfold Mp4TtmlParser.traverseMedia, Mp4Parser.parse, bind, modify.
    rewrite (@first_run Cue TimeContext first all time pre data _ _ pl mid)
      by (assumption || (simpl; lia) || reflexivity).
    reflexivity. }
  unfold Mp4TtmlParser.parseFirstCue, Mp4TtmlParser.parseMediaInternal_.
  rewrite R. destruct (first pl time); [split|]; reflexivity.
Qed.

Lemma parseFirstCue_decodes_first_mdat_only_witness :
  Mp4TtmlParser.parseFirstCue
    (fun pl (_ : unit) => Returns pl) (fun pl _ => Returns [pl; pl])
    (encodeBoxes [("free", [x05]); ("mdat", [x01]); ("mdat", [x02; x03])]%string)
    tt []
  = Ok (Some [x01], [Mp4TtmlParser.callParseFirstCue [x01] tt])
  /\ Mp4TtmlParser.traverseMedia
       (fun pl (_ : unit) => Returns pl) (fun pl _ => Returns [pl; pl])
       (encodeBoxes [("free", [x05]); ("mdat", [x01]);
                     ("mdat", [x02; x03])]%string)
       tt true []
     = Ok (tt,
           Mp4Parser.mkState true ["mdat"%string]
             (Mp4TtmlParser.mkVars true [[x01]]
                [Mp4TtmlParser.callParseFirstCue [x01] tt])).
Proof.
  apply (@parseFirstCue_decodes_first_mdat_only bytes unit
           (fun pl _ => Returns pl) (fun pl _ => Returns [pl; pl])
           (encodeBoxes [("free", [x05]); ("mdat", [x01]);
                         ("mdat", [x02; x03])]%string)
           [("free", [x05]); ("mdat", [x01]); ("mdat", [x02; x03])]%string
           [] tt []).
  - apply (@boxesThen_encodeBoxes true
             [("free", [x05]); ("mdat", [x01]); ("mdat", [x02; x03])]%string
             []).
    repeat constructor.
  - simpl. lia.
Defined.

(** ** The minimal initialization segment *)

Lemma readBox_encodeBox_alone (po : bool) (t : string) (payload : bytes) :
  boxOk t payload ->
  Mp4Parser.readBox po (encodeBox t payload) = Mp4Parser.BoxRead t payload [].
Proof.
  intros H. rewrite <- (app_nil_r (encodeBox t payload)) at 1.
  now apply readBox_encodeBox.
Qed.

Lemma length_be32 (n : N) : List.length (be32 n) = 4.
Proof. reflexivity. Qed.

Ltac lengths :=
  repeat first [ rewrite length_encodeBox by reflexivity
               | rewrite length_app
               | rewrite length_be32 ].

Section Descent.

Import Mp4Parser.
Variable C : Type.
Variable p : Mp4Parser C.
Variable po : bool.

Lemma parseChildren_step fuel anc r s :
  List.length r < fuel -> done_ s = false -> 1 <= List.length r ->
  parseChildren fuel p po anc r s
  = match parseNext fuel p po anc r s with
    | Ok (r', s') => parseChildren fuel p po anc r' s'
    | Throw e => Throw e
    end.
Proof.
  intros Hf Hd Hr. rewrite parseChildren_unfold by assumption. rewrite Hd.
  destruct r; [simpl in Hr; lia | reflexivity].
Qed.

Lemma parseChildren_stopped fuel anc r s :
  List.length r < fuel -> done_ s = true ->
  parseChildren fuel p po anc r s = Ok (tt, s).
Proof.
  intros Hf Hd. rewrite parseChildren_unfold by assumption. now rewrite Hd.
Qed.

(** Into a box registered for descent, when what is inside stops the
    parser. *)
Lemma descend fuel anc t inner s s' :
  lookup p t = Some (BASIC_BOX, children) ->
  boxOk t inner ->
  List.length (encodeBox t inner) < fuel ->
  done_ s = false ->
  parseChildren fuel p po (anc ++ [t]) inner (visiting t s) = Ok (tt, s') ->
  done_ s' = true ->
  parseChildren fuel p po anc (encodeBox t inner) s = Ok (tt, s').
Proof.
  intros L Hb Hf Hd Hin Hd'.
  pose proof (@length_encodeBox t inner (proj1 Hb)) as Hl.
  rewrite parseChildren_step by (assumption || lia).
  rewrite (@parseNext_children C p po fuel anc _ s t inner [] Hf
             (readBox_encodeBox_alone po Hb) L).
  rewrite Hin. apply parseChildren_stopped; [cbn [List.length]; lia | assumption].
Qed.

End Descent.

Lemma stsd_entry fuel anc (entryPayload : bytes) (s : Mp4Parser.pstate bool) :
  boxOk "stsd" (be32 0 ++ be32 1 ++ encodeBox "stpp" entryPayload) ->
  List.length (encodeBox "stsd"
                 (be32 0 ++ be32 1 ++ encodeBox "stpp" entryPayload)) < fuel ->
  Mp4Parser.done_ s = false ->
  Mp4Parser.parseChildren fuel Mp4TtmlParser.initParser false anc
    (encodeBox "stsd" (be32 0 ++ be32 1 ++ encodeBox "stpp" entryPayload)) s
  = Ok (tt, Mp4Parser.mkState true
              (Mp4Parser.visited s ++ ["stsd"; "stpp"]%string) true).
Proof.
  intros Hb Hf Hd.
  assert (Hstpp : boxOk "stpp" entryPayload).
  { destruct Hb as [_ Hs]. split; [reflexivity|].
    rewrite !length_app, !length_be32, length_encodeBox in Hs by reflexivity.
    lia. }
  pose proof (@length_encodeBox "stpp" entryPayload eq_refl) as Le.
  pose proof (@length_encodeBox "stsd"
                (be32 0 ++ be32 1 ++ encodeBox "stpp" entryPayload)
                (proj1 Hb)) as Ls.
  rewrite !length_app, !length_be32, Le in Ls.
  rewrite parseChildren_step by (assumption || lia).
  rewrite (@parseNext_sampleDescription bool Mp4TtmlParser.initParser false
             fuel anc _ s "stsd"%string _ [] Hf
             (readBox_encodeBox_alone false Hb) eq_refl)
    by (rewrite !length_app, !length_be32, Le; lia).
  change (skipn 8 (be32 0 ++ be32 1 ++ ?x)) with x.
  change (readUint (firstn 4 (skipn 4 (be32 0 ++ be32 1 ++ ?x)))) with 1%N.
  rewrite parseEntries_unfold by lia.
  change (1 =? 0)%N with false. cbn iota.
  cbn [Mp4Parser.done_ visiting]. rewrite Hd.
  destruct (Nat.ltb_spec (List.length (encodeBox "stpp" entryPayload)) 8);
    [lia|].
  rewrite (@parseNext_callback bool Mp4TtmlParser.initParser false fuel
             (anc ++ ["stsd"%string]) _ _ "stpp"%string entryPayload [] _
             ltac:(lia) (readBox_encodeBox_alone false Hstpp) eq_refl).
  cbn [bind Mp4Parser.setClosure Mp4Parser.stop modify visiting
       Mp4Parser.done_ Mp4Parser.visited Mp4Parser.closure].
  rewrite parseEntries_unfold by (cbn [List.length]; lia).
  change (1 - 1 =? 0)%N with true. cbn iota.
  rewrite parseChildren_stopped by (cbn [List.length]; lia || reflexivity).
  now rewrite <- app_assoc.
Qed.

(** [parseInit] accepts the minimal initialization segment whose sample
    entry is tagged [stpp], whatever the entry holds. *)
Lemma parseInit_minimal (entryPayload : bytes) :
  (N.of_nat (List.length (minimalInit "stpp" entryPayload)) < 4294967296)%N ->
  Mp4TtmlParser.traverseInit (minimalInit "stpp" entryPayload)
  = Ok (tt, Mp4Parser.mkState true
              ["moov"; "trak"; "mdia"; "minf"; "stbl"; "stsd"; "stpp"]%string
              true)
  /\ Mp4TtmlParser.parseInit (minimalInit "stpp" entryPayload) = Ok tt.
Proof.
  intros Hs.
  assert (T : Mp4TtmlParser.traverseInit (minimalInit "stpp" entryPayload)
              = Ok (tt, Mp4Parser.mkState true
                          ["moov"; "trak"; "mdia"; "minf"; "stbl"; "stsd";
                           "stpp"]%string true)).
  { unfold Mp4TtmlParser.traverseInit, Mp4Parser.parse, bind, modify.
    cbn [Mp4Parser.fresh Mp4Parser.visited Mp4Parser.closure].
    unfold minimalInit in *.
    rewrite !length_encodeBox, !length_app, !length_be32, length_encodeBox
      in Hs by reflexivity.
    repeat (eapply descend;
            [ reflexivity
            | split; [reflexivity | lengths; lia]
            | lengths; lia
            | reflexivity
            |
            | reflexivity ]).
    rewrite stsd_entry; [reflexivity | | | reflexivity].
    - split; [reflexivity | lengths; lia].
    - lengths. lia. }
  split; [exact T|].
  unfold Mp4TtmlParser.parseInit. now rewrite T.
Qed.

(** C2 (as stated) fails on a buffer too short to hold a box header: no
    box can be read from it, so neither an [stpp] nor an [mdat] is ever
    seen, yet [parseInit] and [parseMedia] throw [TruncatedInput], which is
    not the error of the absent box. *)
Lemma truncated_buffer_is_not_invalid_container :
  (forall po t payload rest,
     Mp4Parser.readBox po [x00; x00; x00]
     <> Mp4Parser.BoxRead t payload rest)
  /\ Mp4TtmlParser.parseInit [x00; x00; x00] = Throw TruncatedInput
  /\ Mp4TtmlParser.parseMedia
       (fun pl (_ : unit) => Returns pl) (fun pl _ => Returns [pl])
       [x00; x00; x00] tt []
     = Throw TruncatedInput
  /\ TruncatedInput <> InvalidContainer.
Proof.
  repeat split; try reflexivity; try discriminate.
Qed.

(* ================================================================== *)
(** * Further properties *)

(** ** More of the initialization check *)

Section DescentAgain.

Import Mp4Parser.
Variable C : Type.
Variable p : Mp4Parser C.
Variable po : bool.

Lemma parseChildren_nil fuel anc s :
  parseChildren fuel p po anc [] s = Ok (tt, s).
Proof.
  destruct fuel as [|n]; [reflexivity|].
  rewrite parseChildren_S. unfold isDone; unfold bind, get, ret; cbn beta iota.
  destruct (done_ s); reflexivity.
Qed.

(** Into a box registered for descent, then on with its siblings. *)
Lemma descend_into fuel anc t inner rest s :
  lookup p t = Some (BASIC_BOX, children) ->
  boxOk t inner ->
  List.length (encodeBox t inner ++ rest) < fuel ->
  done_ s = false ->
  parseChildren fuel p po anc (encodeBox t inner ++ rest) s
  = match parseChildren fuel p po (anc ++ [t]) inner (visiting t s) with
    | Ok (_, s') => parseChildren fuel p po anc rest s'
    | Throw e => Throw e
    end.
Proof.
  intros L Hb Hf Hd.
  pose proof (@length_encodeBox t inner (proj1 Hb)) as Hl.
  rewrite length_app in Hf.
  rewrite parseChildren_step by (rewrite ?length_app; assumption || lia).
  rewrite (@parseNext_children C p po fuel anc (encodeBox t inner ++ rest)
             s t inner rest ltac:(rewrite length_app; lia)
             (readBox_encodeBox po rest Hb) L).
  destruct (parseChildren fuel p po (anc ++ [t]) inner (visiting t s))
    as [[[] s']|e]; reflexivity.
Qed.

Lemma descend_alone fuel anc t inner s :
  lookup p t = Some (BASIC_BOX, children) ->
  boxOk t inner ->
  List.length (encodeBox t inner) < fuel ->
  done_ s = false ->
  parseChildren fuel p po anc (encodeBox t inner) s
  = parseChildren fuel p po (anc ++ [t]) inner (visiting t s).
Proof.
  intros L Hb Hf Hd.
  rewrite <- (app_nil_r (encodeBox t inner)) at 1.
  rewrite descend_into by (rewrite ?app_nil_r; assumption).
  destruct (parseChildren fuel p po (anc ++ [t]) inner (visiting t s))
    as [[[] s']|e]; [apply parseChildren_nil | reflexivity].
Qed.

End DescentAgain.

Lemma parseEntries_zero {C} fuel (p : Mp4Parser.Mp4Parser C) po anc r s :
  Mp4Parser.parseEntries fuel p po anc 0 r s = Ok (tt, s).
Proof. destruct fuel; reflexivity. Qed.

(** A sample description holding one entry, and what follows it. *)
Lemma stsd_single_entry fuel anc t (entryPayload rest : bytes)
    (s : Mp4Parser.pstate bool) :
  boxOk "stsd" (be32 0 ++ be32 1 ++ encodeBox t entryPayload) ->
  String.length t = 4 ->
  List.length (encodeBox "stsd" (be32 0 ++ be32 1 ++ encodeBox t entryPayload)
               ++ rest) < fuel ->
  Mp4Parser.done_ s = false ->
  Mp4Parser.parseChildren fuel Mp4TtmlParser.initParser false anc
    (encodeBox "stsd" (be32 0 ++ be32 1 ++ encodeBox t entryPayload) ++ rest) s
  = match Mp4Parser.parseNext fuel Mp4TtmlParser.initParser false
            (anc ++ ["stsd"%string]) (encodeBox t entryPayload)
            (visiting "stsd"%string s) with
    | Ok (_, s') =>
        Mp4Parser.parseChildren fuel Mp4TtmlParser.initParser false anc rest s'
    | Throw e => Throw e
    end.
Proof.
  intros Hb Ht Hf Hd.
  set (X := Mp4Parser.parseNext fuel Mp4TtmlParser.initParser false
              (anc ++ ["stsd"%string]) (encodeBox t entryPayload)
              (visiting "stsd"%string s)).
  pose proof (@length_encodeBox t entryPayload Ht) as Le.
  pose proof (@length_encodeBox "stsd"
                (be32 0 ++ be32 1 ++ encodeBox t entryPayload)
                (proj1 Hb)) as Ls.
  rewrite !length_app, !length_be32, Le in Ls.
  rewrite length_app, Ls in Hf.
  rewrite parseChildren_step by (rewrite ?length_app, ?Ls; assumption || lia).
  rewrite (@parseNext_sampleDescription bool Mp4TtmlParser.initParser false
             fuel anc
             (encodeBox "stsd" (be32 0 ++ be32 1 ++ encodeBox t entryPayload)
              ++ rest)
             s "stsd"%string _ rest
             ltac:(rewrite length_app, Ls; lia)
             (readBox_encodeBox false rest Hb) eq_refl)
    by (rewrite !length_app, !length_be32, Le; lia).
  change (skipn 8 (be32 0 ++ be32 1 ++ ?x)) with x.
  change (readUint (firstn 4 (skipn 4 (be32 0 ++ be32 1 ++ ?x)))) with 1%N.
  rewrite parseEntries_unfold by lia.
  change (1 =? 0)%N with false. cbn iota.
  cbn [Mp4Parser.done_ visiting]. rewrite Hd.
  destruct (Nat.ltb_spec (List.length (encodeBox t entryPayload)) 8); [lia|].
  match goal with
  | |- context [Mp4Parser.parseNext ?a ?b ?c ?d ?x ?y] =>
      change (Mp4Parser.parseNext a b c d x y) with X
  end.
  destruct X as [[r' s']|err]; [|reflexivity].
  change (1 - 1)%N with 0%N. now rewrite parseEntries_zero.
Qed.

Lemma initParser_unregistered (tag : string) :
  ~ In tag ["moov"; "trak"; "mdia"; "minf"; "stbl"; "stsd"; "stpp"]%string ->
  Mp4Parser.lookup Mp4TtmlParser.initParser tag = None.
Proof.
  intros H. unfold Mp4TtmlParser.initParser, Mp4Parser.box, Mp4Parser.fullBox,
    Mp4Parser.newMp4Parser. cbn [Mp4Parser.lookup].
  repeat match goal with
         | |- context [String.eqb ?a tag] =>
             destruct (String.eqb_spec a tag) as [E|_];
             [exfalso; apply H; rewrite <- E; simpl; tauto|]
         end.
  reflexivity.
Qed.

Ltac lengthsWith H :=
  repeat first [ rewrite length_encodeBox by (reflexivity || exact H)
               | rewrite length_app
               | rewrite length_be32 ].

(** The traversal of the minimal initialization segment whose sample
    entry has no handler: every box of the chain is visited, the entry is
    skipped and [sawSTPP] is left unset. *)
Lemma traverseInit_unregistered (tag : string) (entryPayload : bytes) :
  String.length tag = 4 ->
  ~ In tag ["moov"; "trak"; "mdia"; "minf"; "stbl"; "stsd"; "stpp"]%string ->
  (N.of_nat (List.length (minimalInit tag entryPayload)) < 4294967296)%N ->
  Mp4TtmlParser.traverseInit (minimalInit tag entryPayload)
  = Ok (tt, Mp4Parser.mkState false
              ["moov"; "trak"; "mdia"; "minf"; "stbl"; "stsd"]%string
              false).
Proof.
  intros Ht Hn Hs.
  pose proof (@initParser_unregistered tag Hn) as L.
  assert (Hb : boxOk tag entryPayload).
  { split; [assumption|]. unfold minimalInit in Hs. revert Hs. lengthsWith Ht. lia. }
  unfold Mp4TtmlParser.traverseInit, Mp4Parser.parse, bind, modify.
  cbn [Mp4Parser.fresh Mp4Parser.visited Mp4Parser.closure].
  unfold minimalInit in *. revert Hs. lengthsWith Ht. intros Hs.
  do 5 (rewrite descend_alone;
        [ | reflexivity | split; [reflexivity | lengthsWith Ht; lia]
          | lengthsWith Ht; lia | reflexivity ]).
  rewrite <- (app_nil_r (encodeBox "stsd" _)).
  rewrite stsd_single_entry;
    [ | split; [reflexivity | lengthsWith Ht; lia] | assumption
      | lengthsWith Ht; simpl; lia | reflexivity ].
  rewrite (@parseNext_skip bool Mp4TtmlParser.initParser false _ _
             (encodeBox tag entryPayload) _ tag entryPayload []);
    [ | lia | exact (readBox_encodeBox_alone false Hb) | exact L ].
  rewrite parseChildren_nil. reflexivity.
Qed.

(** X1: [parseInit] rejects the minimal initialization segment whose sample
    entry carries a tag the parser has no handler for: the traversal runs
    to its end, [sawSTPP] stays unset, and the error of the absent box is
    thrown. *)
Theorem parseInit_rejects_unregistered_entry
    (tag : string) (entryPayload : bytes) :
  String.length tag = 4 ->
  ~ In tag ["moov"; "trak"; "mdia"; "minf"; "stbl"; "stsd"; "stpp"]%string ->
  (N.of_nat (List.length (minimalInit tag entryPayload)) < 4294967296)%N ->
  Mp4TtmlParser.parseInit (minimalInit tag entryPayload)
  = Throw InvalidContainer.
Proof.
  intros Ht Hn Hs.
  pose proof (@traverseInit_unregistered tag entryPayload Ht Hn Hs) as T.
  unfold Mp4TtmlParser.parseInit. rewrite T.
  cbn [Mp4Parser.closure negb]. reflexivity.
Qed.

Lemma parseInit_rejects_unregistered_entry_witness :
  Mp4TtmlParser.parseInit (minimalInit "wvtt" [x00; x01; x02])
  = Throw InvalidContainer.
Proof.
  apply (@parseInit_rejects_unregistered_entry "wvtt" [x00; x01; x02]).
  - reflexivity.
  - simpl. intros H. repeat (destruct H as [H|H]; [discriminate H|]). exact H.
  - vm_compute. reflexivity.
Defined.

(** C7 (amended): the initialization check knows ONE subtitle sample-entry
    tag, [stpp].  The two recognized codecs values, [stpp] and
    [stpp.TTML.im1t], are the MIME types under which one and the same
    parser class is registered, not two tags: whichever of the two the
    parser is looked up under, its [parseInit] succeeds on the container
    moov > trak > mdia > minf > stbl > stsd whose entry is tagged [stpp],
    whatever the entry holds, and throws the error of the absent box on the
    same container with an entry of any other tag. *)
Theorem parseInit_accepts_stpp_only (tag : string) (entryPayload : bytes) :
  String.length tag = 4 ->
  ~ In tag ["moov"; "trak"; "mdia"; "minf"; "stbl"; "stsd"]%string ->
  (N.of_nat (List.length (minimalInit tag entryPayload)) < 4294967296)%N ->
  Forall
    (fun codecs =>
       Mp4TtmlParser.findParser Mp4TtmlParser.parserMap_
         (Mp4TtmlParser.mimeType codecs)
       = Some Mp4TtmlParser.Mp4TtmlParserClass)
    Mp4TtmlParser.recognizedCodecs
  /\ (Mp4TtmlParser.parseInit (minimalInit tag entryPayload) = Ok tt
      <-> tag = "stpp"%string)
  /\ (tag <> "stpp"%string ->
      Mp4TtmlParser.parseInit (minimalInit tag entryPayload)
      = Throw InvalidContainer).
Proof.
  intros Ht Hn Hs.
  assert (R : tag <> "stpp"%string ->
              Mp4TtmlParser.parseInit (minimalInit tag entryPayload)
              = Throw InvalidContainer).
  { intros Hne.
    assert (Hn' : ~ In tag ["moov"; "trak"; "mdia"; "minf"; "stbl"; "stsd";
                            "stpp"]%string).
    { intros H. apply Hn. simpl in H. simpl.
      destruct H as [H|[H|[H|[H|[H|[H|[H|[]]]]]]]]; auto 7.
      congruence. }
    pose proof (@traverseInit_unregistered tag entryPayload Ht Hn' Hs) as T.
    unfold Mp4TtmlParser.parseInit. rewrite T.
    cbn [Mp4Parser.closure negb]. reflexivity. }
  split; [|split].
  - unfold Mp4TtmlParser.recognizedCodecs. repeat constructor.
  - split.
    + intros H. destruct (String.eqb_spec tag "stpp"); [assumption|].
      rewrite R in H by assumption. discriminate.
    + intros ->. now apply parseInit_minimal.
  - exact R.
Qed.

Lemma parseInit_accepts_stpp_only_witness :
  Mp4TtmlParser.parseInit (minimalInit "stpp" [x00; x01; x02]) = Ok tt
  /\ Mp4TtmlParser.parseInit (minimalInit "stpt" [x00; x01; x02])
     = Throw InvalidContainer.
Proof.
  split.
  - refine (proj2 (proj1 (proj2 (@parseInit_accepts_stpp_only
                                   "stpp" [x00; x01; x02] _ _ _)))
              eq_refl).
    + reflexivity.
    + simpl. intros H.
      repeat (destruct H as [H|H]; [discriminate H|]). exact H.
    + vm_compute. reflexivity.
  - refine (proj2 (proj2 (@parseInit_accepts_stpp_only
                            "stpt" [x00; x01; x02] _ _ _)) _).
    + reflexivity.
    + simpl. intros H.
      repeat (destruct H as [H|H]; [discriminate H|]). exact H.
    + vm_compute. reflexivity.
    + discriminate.
Defined.

(** C7 (as stated) fails: there is no second tag.  The container whose
    sample entry is tagged with an element of the second codecs value
    ([TTML], [im1t], or these in lower case) is rejected, as is the
    container with any other tag than [stpp] that has no handler; the
    parser has a single handler that is not a descent, and it is the one
    of [stpp]. *)
Lemma parseInit_rejects_second_tag :
  Mp4TtmlParser.parseInit (minimalInit "TTML" []) = Throw InvalidContainer
  /\ Mp4TtmlParser.parseInit (minimalInit "im1t" []) = Throw InvalidContainer
  /\ Mp4TtmlParser.parseInit (minimalInit "ttml" []) = Throw InvalidContainer
  /\ Mp4TtmlParser.parseInit (minimalInit "stpp" []) = Ok tt
  /\ (forall (tag : string) (entryPayload : bytes),
        String.length tag = 4 ->
        ~ In tag ["moov"; "trak"; "mdia"; "minf"; "stbl"; "stsd";
                  "stpp"]%string ->
        (N.of_nat (List.length (minimalInit tag entryPayload))
         < 4294967296)%N ->
        Mp4TtmlParser.parseInit (minimalInit tag entryPayload)
        = Throw InvalidContainer).
Proof.
  split; [vm_compute; reflexivity|].
  split; [vm_compute; reflexivity|].
  split; [vm_compute; reflexivity|].
  split; [vm_compute; reflexivity|].
  intros tag entryPayload Ht Hn Hs.
  pose proof (@traverseInit_unregistered tag entryPayload Ht Hn Hs) as T.
  unfold Mp4TtmlParser.parseInit. rewrite T.
  cbn [Mp4Parser.closure negb]. reflexivity.
Qed.

(** X2: [parseInit] looks at the type of a box, not at where the box is: a
    buffer that opens with an [stpp] box at top level is accepted, and
    nothing after that box is read. *)
Theorem parseInit_accepts_top_level_stpp (payload rest : bytes) :
  boxOk "stpp" payload ->
  Mp4TtmlParser.parseInit (encodeBox "stpp" payload ++ rest) = Ok tt.
Proof.
  intros Hb.
  pose proof (@length_encodeBox "stpp" payload eq_refl) as Le.
  assert (T : Mp4TtmlParser.traverseInit (encodeBox "stpp" payload ++ rest)
              = Ok (tt, Mp4Parser.mkState true ["stpp"%string] true)).
  { unfold Mp4TtmlParser.traverseInit, Mp4Parser.parse, bind, modify.
    cbn [Mp4Parser.fresh Mp4Parser.visited Mp4Parser.closure].
    rewrite parseChildren_step
      by (reflexivity || (rewrite ?length_app, ?Le; lia)).
    erewrite (@parseNext_callback bool Mp4TtmlParser.initParser false _ []
               (encodeBox "stpp" payload ++ rest) _ "stpp"%string payload rest);
      [ | lia | exact (readBox_encodeBox false rest Hb) | reflexivity ].
    cbn [bind Mp4Parser.setClosure Mp4Parser.stop modify visiting
         Mp4Parser.done_ Mp4Parser.visited Mp4Parser.closure app].
    apply parseChildren_stopped; [rewrite length_app; lia | reflexivity]. }
  unfold Mp4TtmlParser.parseInit. now rewrite T.
Qed.

Lemma parseInit_accepts_top_level_stpp_witness :
  Mp4TtmlParser.parseInit (encodeBox "stpp" [x0a] ++ [xff; xff; xff]) = Ok tt.
Proof.
  apply (@parseInit_accepts_top_level_stpp [x0a] [xff; xff; xff]).
  split; [reflexivity | vm_compute; reflexivity].
Defined.

(** X3: Once the [stpp] entry is found the parser is stopped: whatever follows
    the minimal initialization segment in the buffer, well-formed or not, is
    never read, and [parseInit] succeeds. *)
Theorem parseInit_ignores_what_follows (entryPayload rest : bytes) :
  (N.of_nat (List.length (minimalInit "stpp" entryPayload)) < 4294967296)%N ->
  Mp4TtmlParser.parseInit (minimalInit "stpp" entryPayload ++ rest) = Ok tt.
Proof.
  intros Hs.
  assert (T : Mp4TtmlParser.traverseInit (minimalInit "stpp" entryPayload ++ rest)
              = Ok (tt, Mp4Parser.mkState true
                          ["moov"; "trak"; "mdia"; "minf"; "stbl"; "stsd";
                           "stpp"]%string true)).
  { unfold Mp4TtmlParser.traverseInit, Mp4Parser.parse, bind, modify.
    cbn [Mp4Parser.fresh Mp4Parser.visited Mp4Parser.closure].
    set (F := S (S _)).
    assert (HF : List.length (minimalInit "stpp" entryPayload)
                 + List.length rest < F)
      by (subst F; rewrite length_app; lia).
    clearbody F. unfold minimalInit in *. revert Hs HF. lengths. intros Hs HF.
    rewrite descend_into;
      [ | reflexivity | split; [reflexivity | lengths; lia]
        | lengths; lia | reflexivity ].
    match goal with
    | |- match ?X with Ok _ => _ | Throw _ => _ end = _ =>
        replace X
          with (@Ok (unit * Mp4Parser.pstate bool)
                  (tt, Mp4Parser.mkState true
                         ["moov"; "trak"; "mdia"; "minf"; "stbl"; "stsd";
                          "stpp"]%string true))
    end.
    - apply parseChildren_stopped; [lia | reflexivity].
    - symmetry.
      repeat (eapply descend;
              [ reflexivity
              | split; [reflexivity | lengths; lia]
              | lengths; lia
              | reflexivity
              |
              | reflexivity ]).
      rewrite stsd_entry; [reflexivity | | | reflexivity].
      + split; [reflexivity | lengths; lia].
      + lengths. lia. }
  unfold Mp4TtmlParser.parseInit. now rewrite T.
Qed.

Lemma parseInit_ignores_what_follows_witness :
  Mp4TtmlParser.parseInit (minimalInit "stpp" [x01] ++ [x00; x00; x00; x02])
  = Ok tt.
Proof.
  apply (@parseInit_ignores_what_follows [x01] [x00; x00; x00; x02]).
  vm_compute. reflexivity.
Defined.

(** ** More of media extraction *)

Lemma encodeBoxes_app (bs1 bs2 : list (string * bytes)) :
  encodeBoxes (bs1 ++ bs2) = encodeBoxes bs1 ++ encodeBoxes bs2.
Proof. unfold encodeBoxes. now rewrite map_app, concat_app. Qed.

(** The header of a box that declares more bytes than the buffer holds:
    clamped when partial input is tolerated, malformed otherwise. *)
Lemma readBox_truncated (po : bool) (t : string) (n : N) (avail : bytes) :
  String.length t = 4 ->
  (N.of_nat (8 + List.length avail) < n < 4294967296)%N ->
  Mp4Parser.readBox po (be32 n ++ list_byte_of_string t ++ avail)
  = if po then Mp4Parser.BoxRead t avail [] else Mp4Parser.BadSize.
Proof.
  intros Ht [Hlo Hhi].
  assert (Lt : List.length (list_byte_of_string t) = 4)
    by now rewrite length_list_byte_of_string.
  unfold Mp4Parser.readBox.
  assert (L : List.length (be32 n ++ list_byte_of_string t ++ avail)
              = 8 + List.length avail)
    by (rewrite !length_app, length_be32, Lt; lia).
  rewrite L.
  assert (F4 : firstn 4 (be32 n ++ list_byte_of_string t ++ avail) = be32 n)
    by reflexivity.
  assert (S4 : firstn 4 (skipn 4 (be32 n ++ list_byte_of_string t ++ avail))
               = list_byte_of_string t).
  { change (skipn 4 (be32 ?m ++ ?l)) with l.
    rewrite firstn_app, Lt, Nat.sub_diag, firstn_all2 by lia.
    simpl. apply app_nil_r. }
  rewrite F4, S4, readUint_be32, string_of_list_byte_of_string by assumption.
  destruct (N.ltb_spec (N.of_nat (8 + List.length avail)) 8); [lia|].
  destruct (N.eqb_spec n 1); [lia|]. destruct (N.eqb_spec n 0); [lia|].
  destruct (N.ltb_spec (N.of_nat (8 + List.length avail)) 8); [lia|].
  destruct (N.ltb_spec n 8); [lia|].
  destruct (N.ltb_spec (N.of_nat (8 + List.length avail)) n); [|lia].
  destruct po; cbn [andb negb]; [|reflexivity].
  replace (N.to_nat (N.min n _)) with (8 + List.length avail) by lia.
  change (N.to_nat 8) with 8.
  replace (8 + List.length avail - 8) with (List.length avail) by lia.
  f_equal.
  - change (skipn 8 (be32 ?m ++ ?l)) with (skipn 4 l).
    rewrite skipn_app, Lt, Nat.sub_diag, skipn_all2 by lia. simpl.
    apply firstn_all.
  - rewrite <- L. apply skipn_all.
Qed.

Section MediaRunsAgain.

Import Mp4Parser Mp4TtmlParser.
Variables Cue TimeContext : Type.
Variable first : bytes -> TimeContext -> outcome Cue.
Variable all : bytes -> TimeContext -> outcome (list Cue).
Variable time : TimeContext.

(** Boxes that are no [mdat] are passed over, in either mode. *)
Lemma skip_run partial pre : forall r tail fuel
    (s : pstate (mediaVars Cue TimeContext)),
  boxesThen partial r pre tail ->
  noMdat pre ->
  List.length r < fuel ->
  done_ s = false ->
  parseChildren fuel (mediaParser first all time partial) partial [] r s
  = parseChildren fuel (mediaParser first all time partial) partial [] tail s.
Proof.
  induction pre as [|[t pl0] pre IH]; intros r tail fuel s H Hn Hf Hd;
    inversion H as [|? ? ? rest ? ? E H']; subst; [reflexivity|].
  rewrite parseChildren_unfold by assumption. rewrite Hd.
  pose proof (readBox_lengths _ _ E) as (L1 & L2 & L3).
  destruct r as [|b r]; [simpl in L1; lia|].
  rewrite (@parseNext_media Cue TimeContext first all time fuel _ [] _ s _ _ _
             ltac:(lia) E).
  inversion Hn as [|? ? Ht Hn']; subst. simpl in Ht.
  destruct (String.eqb_spec "mdat" t) as [<-|_]; [congruence|].
  apply IH; try assumption. lia.
Qed.

End MediaRunsAgain.

(** X4: In first-cue mode nothing after the first [mdat] matters: whatever
    bytes follow it (none, more boxes, a cut-off header, garbage), the
    decoder's [parseFirstCue] gets the payload of that [mdat] and its cue is
    what comes back. *)
Theorem parseFirstCue_ignores_what_follows
    (Cue TimeContext : Type)
    (first : bytes -> TimeContext -> outcome Cue)
    (all : bytes -> TimeContext -> outcome (list Cue))
    (pre : list (string * bytes)) (pl tail : bytes) (time : TimeContext)
    (log : list (Mp4TtmlParser.decoderCall TimeContext)) :
  boxesOk pre -> noMdat pre -> boxOk "mdat" pl ->
  Mp4TtmlParser.parseFirstCue first all
    (encodeBoxes pre ++ encodeBox "mdat" pl ++ tail) time log
  = match first pl time with
    | Returns cue =>
        Ok (Some cue, log ++ [Mp4TtmlParser.callParseFirstCue pl time])
    | Raises n => Throw (foreignError n)
    end.
Proof.
  intros Hpre Hn Hb.
  assert (B : boxesThen true (encodeBoxes pre ++ encodeBox "mdat" pl ++ tail)
                (pre ++ [("mdat"%string, pl)]) tail).
  { replace (encodeBoxes pre ++ encodeBox "mdat" pl ++ tail)
      with (encodeBoxes (pre ++ [("mdat"%string, pl)]) ++ tail).
    - apply boxesThen_encodeBoxes. apply Forall_app. split; [assumption|].
      repeat constructor; apply Hb.
    - rewrite encodeBoxes_app, <- app_assoc. f_equal.
      unfold encodeBoxes; simpl. now rewrite app_nil_r. }
  unfold Mp4TtmlParser.parseFirstCue, Mp4TtmlParser.parseMediaInternal_,
    Mp4TtmlParser.traverseMedia, Mp4Parser.parse, bind, modify.
  rewrite (@first_run Cue TimeContext first all time pre _ _ _ pl tail)
    by (assumption || (simpl; lia) || reflexivity).
  destruct (first pl time); reflexivity.
Qed.

Lemma parseFirstCue_ignores_what_follows_witness :
  Mp4TtmlParser.parseFirstCue
    (fun pl (_ : unit) => Returns pl) (fun pl _ => Returns [pl; pl])
    (encodeBoxes [("free", [x05])]%string ++ encodeBox "mdat" [x01; x02]
       ++ [x00; x00; x00])
    tt []
  = Ok (Some [x01; x02], [Mp4TtmlParser.callParseFirstCue [x01; x02] tt]).
Proof.
  apply (@parseFirstCue_ignores_what_follows bytes unit
           (fun pl _ => Returns pl) (fun pl _ => Returns [pl; pl])
           [("free", [x05])]%string [x01; x02] [x00; x00; x00] tt []).
  - repeat constructor.
  - repeat constructor. discriminate.
  - split; [reflexivity | vm_compute; reflexivity].
Defined.

(** X5: A buffer cut off inside its first [mdat] (the box declares more bytes
    than have arrived): [parseFirstCue] hands the decoder the bytes that are
    there; [parseMedia] throws [MalformedBox], and it does so for every
    decoder, also for one that throws whenever it is called, whose
    exception would otherwise be what comes out: the decoder is not
    reached. *)
Theorem truncated_mdat_first_cue_only
    (Cue TimeContext : Type)
    (first : bytes -> TimeContext -> outcome Cue)
    (all : bytes -> TimeContext -> outcome (list Cue))
    (pre : list (string * bytes)) (n : N) (avail : bytes) (time : TimeContext)
    (log : list (Mp4TtmlParser.decoderCall TimeContext)) :
  boxesOk pre -> noMdat pre ->
  (N.of_nat (8 + List.length avail) < n < 4294967296)%N ->
  Mp4TtmlParser.parseFirstCue first all
    (encodeBoxes pre ++ be32 n ++ list_byte_of_string "mdat" ++ avail) time log
  = match first avail time with
    | Returns cue =>
        Ok (Some cue, log ++ [Mp4TtmlParser.callParseFirstCue avail time])
    | Raises k => Throw (foreignError k)
    end
  /\ Mp4TtmlParser.parseMedia first all
       (encodeBoxes pre ++ be32 n ++ list_byte_of_string "mdat" ++ avail)
       time log
     = Throw MalformedBox
  /\ (forall k : nat,
        Mp4TtmlParser.parseMedia first
          (fun (_ : bytes) (_ : TimeContext) => @Raises (list Cue) k)
          (encodeBoxes pre ++ be32 n ++ list_byte_of_string "mdat" ++ avail)
          time log
        = Throw MalformedBox)
  /\ Mp4Parser.readBox false
       (be32 n ++ list_byte_of_string "mdat" ++ avail)
     = Mp4Parser.BadSize.
Proof.
  intros Hpre Hn Hsz.
  set (cut := be32 n ++ list_byte_of_string "mdat" ++ avail).
  assert (Lc : List.length cut = 8 + List.length avail)
    by (subst cut; rewrite !length_app, length_be32; reflexivity).
  assert (Full : forall all' : bytes -> TimeContext -> outcome (list Cue),
             Mp4TtmlParser.parseMedia first all' (encodeBoxes pre ++ cut)
               time log
             = Throw MalformedBox).
  { intros all'.
    unfold Mp4TtmlParser.parseMedia, Mp4TtmlParser.parseMediaInternal_,
      Mp4TtmlParser.traverseMedia, Mp4Parser.parse, bind, modify.
    rewrite (@skip_run Cue TimeContext first all' time false pre _ cut)
      by (try apply boxesThen_encodeBoxes; assumption || (simpl; lia)
          || reflexivity).
    rewrite parseChildren_step by (reflexivity || (rewrite ?length_app; lia)).
    rewrite parseNext_S. unfold cut.
    rewrite (@readBox_truncated false "mdat" n avail eq_refl) by assumption.
    reflexivity. }
  split; [|split; [apply Full|split; [intros k; apply Full|]]].
  - clear Full.
    assert (B : boxesThen true (encodeBoxes pre ++ cut)
                  (pre ++ [("mdat"%string, avail)]) []).
    { pose proof (boxesThen_encodeBoxes true cut Hpre) as B1.
      revert B1. generalize (encodeBoxes pre ++ cut).
      induction pre as [|[t p0] pre IH]; intros r B1.
      - inversion B1; subst. econstructor; [|constructor].
        unfold cut. now rewrite (@readBox_truncated true "mdat" n avail eq_refl).
      - inversion B1 as [|? ? ? rest ? ? E H']; subst.
        inversion Hpre; inversion Hn; subst.
        simpl. econstructor; [exact E|]. now apply IH. }
    unfold Mp4TtmlParser.parseFirstCue, Mp4TtmlParser.parseMediaInternal_,
      Mp4TtmlParser.traverseMedia, Mp4Parser.parse, bind, modify.
    rewrite (@first_run Cue TimeContext first all time pre _ _ _ avail [])
      by (assumption || (simpl; lia) || reflexivity).
    destruct (first avail time); reflexivity.
  - unfold cut.
    now rewrite (@readBox_truncated false "mdat" n avail eq_refl).
Qed.

Lemma truncated_mdat_first_cue_only_witness :
  Mp4TtmlParser.parseFirstCue
    (fun pl (_ : unit) => Returns pl) (fun pl _ => Returns [pl; pl])
    (encodeBoxes [("free", [x05])]%string ++ be32 100
       ++ list_byte_of_string "mdat" ++ [x01; x02])
    tt []
  = Ok (Some [x01; x02], [Mp4TtmlParser.callParseFirstCue [x01; x02] tt])
  /\ Mp4TtmlParser.parseMedia
       (fun pl (_ : unit) => Returns pl) (fun pl _ => Returns [pl; pl])
       (encodeBoxes [("free", [x05])]%string ++ be32 100
          ++ list_byte_of_string "mdat" ++ [x01; x02])
       tt []
     = Throw MalformedBox.
Proof.
  destruct (@truncated_mdat_first_cue_only bytes unit
              (fun pl _ => Returns pl) (fun pl _ => Returns [pl; pl])
              [("free", [x05])]%string 100%N [x01; x02] tt [])
    as (H1 & H2 & _).
  - repeat constructor.
  - repeat constructor. discriminate.
  - split; vm_compute; reflexivity.
  - split; [exact H1 | exact H2].
Defined.

(** ** More of normaliseInitData_ and its caller *)

Lemma contents_grown (h : store) (extra : list bytes) (x : Uint8Array) :
  buffer x < List.length h -> contents (h ++ extra) x = contents h x.
Proof.
  intros H. unfold contents, bufferBytes. now rewrite app_nth1.
Qed.

(** X6: [normaliseInitData_] never writes to a buffer that exists: every view
    shows afterwards what it showed before.  With two boundaries or more
    what it returns is always a view on a newly allocated buffer, also when
    no region was a duplicate. *)
Theorem normalise_preserves_buffers
    (scanner : bytes -> list Pssh.dataBoundary)
    (v : nullable Uint8Array) (w : PatchedMediaKeysMs.world) :
  let r := PatchedMediaKeysMs.normaliseInitData_ scanner v w in
  (forall x, buffer x < List.length (PatchedMediaKeysMs.heap w) ->
     contents (PatchedMediaKeysMs.heap (snd r)) x
     = contents (PatchedMediaKeysMs.heap w) x)
  /\ (forall a,
        v = obj a ->
        1 < List.length (scanner (contents (PatchedMediaKeysMs.heap w) a)) ->
        exists a',
          fst r = obj a'
          /\ buffer a' = List.length (PatchedMediaKeysMs.heap w)
          /\ List.length (PatchedMediaKeysMs.heap (snd r))
             = S (List.length (PatchedMediaKeysMs.heap w))).
Proof.
  intros r. subst r. unfold PatchedMediaKeysMs.normaliseInitData_.
  destruct v as [| |a]; try (split; [reflexivity | discriminate]).
  destruct (Nat.leb_spec
              (List.length (scanner (contents (PatchedMediaKeysMs.heap w) a)))
              1) as [Hle|Hgt].
  - split; [reflexivity|]. intros a0 [= <-] H. lia.
  - cbn [PatchedMediaKeysMs.heap PatchedMediaKeysMs.psshScans].
    unfold Uint8ArrayUtils.concat. cbn [fst snd PatchedMediaKeysMs.heap].
    split.
    + intros x Hx. now apply contents_grown.
    + intros a0 _ _. eexists. split; [reflexivity|]. split; [reflexivity|].
      rewrite length_app. simpl. lia.
Qed.

Lemma dedupe_nodup_id (h : store) (l : list Uint8Array) :
  NoDup (map (contents h) l) -> PatchedMediaKeysMs.dedupe h l = l.
Proof.
  induction l as [|x l IH] using rev_ind; [reflexivity|].
  rewrite map_app. intros H. cbn [map] in H.
  rewrite dedupe_snoc, IH by (now apply NoDup_app_remove_r in H).
  unfold PatchedMediaKeysMs.dedupeStep. rewrite existsb_contents.
  destruct (existsb _ (map (contents h) l)) eqn:E; [|reflexivity].
  apply existsb_equal_In in E. exfalso.
  apply NoDup_remove_2 in H. apply H. now rewrite app_nil_r.
Qed.

(** X7: Deduplicating what has been deduplicated changes nothing: the regions
    kept are kept again, the same views in the same order. *)
Theorem dedupe_idempotent (h : store) (regions : list Uint8Array) :
  PatchedMediaKeysMs.dedupe h (PatchedMediaKeysMs.dedupe h regions)
  = PatchedMediaKeysMs.dedupe h regions.
Proof.
  apply dedupe_nodup_id. rewrite dedupe_contents.
  apply firstOccurrences_NoDup.
Qed.

Lemma firstOccurrences_copies (b : bytes) (l : list bytes) :
  l <> [] -> Forall (fun x => x = b) l -> firstOccurrences l = [b].
Proof.
  induction l as [|x l IH] using rev_ind; [congruence|].
  intros _ H. apply Forall_app in H. destruct H as [Hl Hx].
  inversion Hx; subst. rewrite firstOccurrences_snoc.
  destruct l as [|y l]; [simpl; reflexivity|].
  rewrite IH by (assumption || discriminate).
  inversion Hl; subst. simpl. now rewrite equal_refl.
Qed.

(** X8: An [msneedkey] event without init data dispatches nothing.  One whose
    init data holds the same pssh twice or more (every region the scan
    delimits shows the same bytes) dispatches a single [encrypted] event of
    type [cenc] that carries one copy of it. *)
Theorem needkey_duplicates_collapse
    (scanner : bytes -> list Pssh.dataBoundary)
    (a : Uint8Array) (w : PatchedMediaKeysMs.world) (psshBox : bytes) :
  validView (PatchedMediaKeysMs.heap w) a ->
  1 < List.length (scanner (contents (PatchedMediaKeysMs.heap w) a)) ->
  Forall (fun b => slice (contents (PatchedMediaKeysMs.heap w) a)
                     (Pssh.start b) (Pssh.end_ b + 1) = psshBox)
         (scanner (contents (PatchedMediaKeysMs.heap w) a)) ->
  PatchedMediaKeysMs.onMsNeedKey_ scanner null w = ([], w)
  /\ PatchedMediaKeysMs.onMsNeedKey_ scanner undefined w = ([], w)
  /\ exists r w',
       PatchedMediaKeysMs.onMsNeedKey_ scanner (obj a) w
       = ([PatchedMediaKeysMs.mkEncrypted "encrypted" false false "cenc"
             (obj r)], w')
       /\ contents (PatchedMediaKeysMs.heap w') r = psshBox.
Proof.
  intros V Hlen Hall. split; [reflexivity|]. split; [reflexivity|].
  destruct (@normalise_many scanner a w V Hlen) as (r & w' & R & Hc).
  exists r, w'. unfold PatchedMediaKeysMs.onMsNeedKey_. rewrite R.
  split; [reflexivity|]. rewrite Hc.
  rewrite (@firstOccurrences_copies psshBox).
  - simpl. apply app_nil_r.
  - destruct (scanner (contents (PatchedMediaKeysMs.heap w) a));
      [simpl in Hlen; lia | discriminate].
  - apply Forall_map. exact Hall.
Qed.

Lemma needkey_duplicates_collapse_witness :
  PatchedMediaKeysMs.onMsNeedKey_ Pssh.dataBoundaries null
    (PatchedMediaKeysMs.mkWorld [pssh32 ++ pssh32 ++ pssh32] [])
  = ([], PatchedMediaKeysMs.mkWorld [pssh32 ++ pssh32 ++ pssh32] [])
  /\ PatchedMediaKeysMs.onMsNeedKey_ Pssh.dataBoundaries undefined
       (PatchedMediaKeysMs.mkWorld [pssh32 ++ pssh32 ++ pssh32] [])
     = ([], PatchedMediaKeysMs.mkWorld [pssh32 ++ pssh32 ++ pssh32] [])
  /\ exists r w',
       PatchedMediaKeysMs.onMsNeedKey_ Pssh.dataBoundaries
         (obj (mkView 0 0 96))
         (PatchedMediaKeysMs.mkWorld [pssh32 ++ pssh32 ++ pssh32] [])
       = ([PatchedMediaKeysMs.mkEncrypted "encrypted" false false "cenc"
             (obj r)], w')
       /\ contents (PatchedMediaKeysMs.heap w') r = pssh32.
Proof.
  apply (@needkey_duplicates_collapse Pssh.dataBoundaries (mkView 0 0 96)
           (PatchedMediaKeysMs.mkWorld [pssh32 ++ pssh32 ++ pssh32] [])
           pssh32).
  - vm_compute. lia.
  - vm_compute. lia.
  - vm_compute. repeat constructor.
Defined.

(** ** MediaKeyStatusMap, the queries *)

(** X9: What is set can be looked up under the one key id the map fakes, and
    under no other: after [setStatus] with a non-empty status, [has] and
    [get] find it under [DUMMY_KEY_ID] only and [forEach] visits exactly
    that entry; after [setStatus(undefined)] the map answers as empty. *)
Theorem statusMap_get_after_set
    (DUMMY_KEY_ID : bytes) (status : string) (keyId : bytes)
    (m : PatchedMediaKeysMs.MediaKeyStatusMap) :
  status <> EmptyString ->
  let m' := PatchedMediaKeysMs.setStatus (Some status) m in
  let e := PatchedMediaKeysMs.setStatus None m in
  PatchedMediaKeysMs.has DUMMY_KEY_ID DUMMY_KEY_ID m' = true
  /\ PatchedMediaKeysMs.get DUMMY_KEY_ID DUMMY_KEY_ID m' = Some status
  /\ PatchedMediaKeysMs.forEach DUMMY_KEY_ID m' = [(status, DUMMY_KEY_ID)]
  /\ (keyId <> DUMMY_KEY_ID ->
      PatchedMediaKeysMs.has DUMMY_KEY_ID keyId m' = false
      /\ PatchedMediaKeysMs.get DUMMY_KEY_ID keyId m' = None)
  /\ PatchedMediaKeysMs.has DUMMY_KEY_ID keyId e = false
  /\ PatchedMediaKeysMs.get DUMMY_KEY_ID keyId e = None
  /\ PatchedMediaKeysMs.forEach DUMMY_KEY_ID e = [].
Proof.
  intros Hs m' e. subst m' e.
  unfold PatchedMediaKeysMs.get, PatchedMediaKeysMs.has,
    PatchedMediaKeysMs.forEach, PatchedMediaKeysMs.setStatus,
    PatchedMediaKeysMs.truthyString.
  cbn [PatchedMediaKeysMs.status_].
  destruct (String.eqb_spec status EmptyString); [contradiction|]. cbn [negb andb].
  rewrite equal_refl.
  repeat split; try reflexivity;
    destruct (BufferUtils.equal keyId DUMMY_KEY_ID) eqn:E; try reflexivity;
    apply equal_spec in E; contradiction.
Qed.

Lemma statusMap_get_after_set_witness :
  PatchedMediaKeysMs.get [x00] [x00]
    (PatchedMediaKeysMs.setStatus (Some "usable"%string)
       PatchedMediaKeysMs.newMediaKeyStatusMap)
  = Some "usable"%string.
Proof.
  refine (proj1 (proj2 (@statusMap_get_after_set [x00] "usable" [x01]
                          PatchedMediaKeysMs.newMediaKeyStatusMap _))).
  discriminate.
Defined.

(** X10: [forEach] visits as many entries as [size] says, except for the empty
    string: it counts as a status for [size], which becomes 1, but is falsy,
    so [forEach] visits nothing. *)
Theorem forEach_count_matches_size
    (DUMMY_KEY_ID : bytes) (status : PatchedMediaKeysMs.status_t)
    (m : PatchedMediaKeysMs.MediaKeyStatusMap) :
  List.length
    (PatchedMediaKeysMs.forEach DUMMY_KEY_ID
       (PatchedMediaKeysMs.setStatus status m))
  = PatchedMediaKeysMs.size (PatchedMediaKeysMs.setStatus status m)
  <-> status <> Some EmptyString.
Proof.
  unfold PatchedMediaKeysMs.forEach, PatchedMediaKeysMs.setStatus,
    PatchedMediaKeysMs.truthyString.
  cbn [PatchedMediaKeysMs.status_ PatchedMediaKeysMs.size].
  destruct status as [s|]; cbn [PatchedMediaKeysMs.looselyUndefined].
  - destruct (String.eqb_spec s EmptyString); cbn [negb List.length].
    + subst. split; [discriminate | congruence].
    + split; [congruence | reflexivity].
  - split; [discriminate | reflexivity].
Qed.

(** ** MediaKeySystemAccess and MediaKeys *)

Section AccessFacts.

Import PatchedMediaKeysMs.
Variable isTypeSupported : string -> string -> bool.
Variable ks : string.

Lemma testCapability_spec pushed success ran cap :
  testCapability isTypeSupported ks (pushed, success, ran) cap
  = (pushed ++ (if supportedCapability isTypeSupported ks cap
                then [cap] else []),
     success || supportedCapability isTypeSupported ks cap,
     ran || testable cap).
Proof.
  unfold testCapability, supportedCapability, testable, truthyString.
  destruct (contentType cap) as [s|]; cbn [negb andb].
  - destruct (String.eqb s EmptyString); cbn [negb andb].
    + now rewrite app_nil_r, !orb_false_r.
    + destruct (isTypeSupported ks (beforeSemicolon s)).
      * now rewrite !orb_true_r.
      * now rewrite app_nil_r, orb_false_r, orb_true_r.
  - now rewrite app_nil_r, !orb_false_r.
Qed.

Lemma testCapabilities_fold l : forall pushed success ran,
  fold_left (testCapability isTypeSupported ks) l (pushed, success, ran)
  = (pushed ++ filter (supportedCapability isTypeSupported ks) l,
     success || existsb (supportedCapability isTypeSupported ks) l,
     ran || existsb testable l).
Proof.
  induction l as [|cap l IH]; intros pushed success ran; cbn [fold_left].
  - simpl. now rewrite app_nil_r, !orb_false_r.
  - rewrite testCapability_spec, IH. cbn [filter existsb].
    rewrite <- !orb_assoc.
    destruct (supportedCapability isTypeSupported ks cap);
      now rewrite <- ?app_assoc, ?app_nil_r.
Qed.

Lemma testCapabilities_spec caps success ran :
  testCapabilities isTypeSupported ks caps success ran
  = (filter (supportedCapability isTypeSupported ks) (capabilitiesOf caps),
     success
     || existsb (supportedCapability isTypeSupported ks) (capabilitiesOf caps),
     ran || existsb testable (capabilitiesOf caps)).
Proof.
  unfold testCapabilities, capabilitiesOf. destruct caps as [l|].
  - now rewrite testCapabilities_fold.
  - simpl. now rewrite !orb_false_r.
Qed.

(** A capability that is supported was tested. *)
Lemma supported_testable l :
  existsb testable l = false ->
  existsb (supportedCapability isTypeSupported ks) l = false.
Proof.
  induction l as [|cap l IH]; [reflexivity|]. cbn [existsb].
  intros H. apply orb_false_iff in H. destruct H as [Hc Hl].
  rewrite IH by assumption. rewrite orb_false_r.
  unfold testable, truthyString in Hc. unfold supportedCapability.
  destruct (contentType cap); [|reflexivity]. now rewrite Hc.
Qed.

(** From a loop head where [success] is unset, one configuration. *)
Lemma tryConfiguration_spec cfg :
  tryConfiguration isTypeSupported ks false cfg
  = (answerTo isTypeSupported ks cfg, acceptable isTypeSupported ks cfg).
Proof.
  unfold tryConfiguration, answerTo, acceptable.
  rewrite !testCapabilities_spec, existsb_app, existsb_app.
  cbn [orb]. unfold allowPersistentState.
  set (ta := existsb testable (capabilitiesOf (audioCapabilities cfg))).
  set (tv := existsb testable (capabilitiesOf (videoCapabilities cfg))).
  set (sa := existsb (supportedCapability isTypeSupported ks)
               (capabilitiesOf (audioCapabilities cfg))).
  set (sv := existsb (supportedCapability isTypeSupported ks)
               (capabilitiesOf (videoCapabilities cfg))).
  destruct (isRequired (persistentState cfg)); cbn [negb andb];
    [reflexivity|].
  destruct (ta || tv); reflexivity.
Qed.

Lemma selectConfiguration_spec cfgs :
  selectConfiguration isTypeSupported ks false cfgs
  = option_map (answerTo isTypeSupported ks)
      (find (acceptable isTypeSupported ks) cfgs).
Proof.
  induction cfgs as [|cfg cfgs IH]; [reflexivity|].
  cbn [selectConfiguration find]. rewrite tryConfiguration_spec.
  destruct (acceptable isTypeSupported ks cfg); [reflexivity | exact IH].
Qed.

End AccessFacts.

Lemma supportedCapability_inv
    (isTypeSupported : string -> string -> bool) (keySystem : string)
    (cap : PatchedMediaKeysMs.MediaKeySystemMediaCapability) :
  supportedCapability isTypeSupported keySystem cap = true ->
  exists t,
    PatchedMediaKeysMs.contentType cap = Some t
    /\ isTypeSupported keySystem (PatchedMediaKeysMs.beforeSemicolon t) = true.
Proof.
  unfold supportedCapability.
  destruct (PatchedMediaKeysMs.contentType cap) as [t|]; [|discriminate].
  intros H. apply andb_true_iff in H. destruct H as [_ H].
  exists t. split; [reflexivity | assumption].
Qed.

(** X11: The constructor answers the first requested configuration that the
    platform can serve, with exactly its supported capabilities, and throws
    [NotSupportedError] when there is none; what an earlier configuration
    did to [success] never carries over to a later one. *)
Theorem access_answers_first_acceptable
    (isTypeSupported : string -> string -> bool) (keySystem : string)
    (supportedConfigurations
       : list PatchedMediaKeysMs.MediaKeySystemConfiguration) :
  PatchedMediaKeysMs.newMediaKeySystemAccess isTypeSupported keySystem
    supportedConfigurations
  = match find (acceptable isTypeSupported keySystem)
            supportedConfigurations with
    | Some cfg =>
        PatchedMediaKeysMs.Normal
          (PatchedMediaKeysMs.mkAccess keySystem
             (answerTo isTypeSupported keySystem cfg))
    | None =>
        PatchedMediaKeysMs.Abrupt PatchedMediaKeysMs.unsupportedKeySystemError
    end.
Proof.
  unfold PatchedMediaKeysMs.newMediaKeySystemAccess.
  rewrite selectConfiguration_spec.
  destruct (find _ supportedConfigurations); reflexivity.
Qed.

(** X12: Whatever configuration [getConfiguration] returns, each capability in
    it was asked for in one of the requested configurations, names a
    content type, and is supported by the platform for the part of that
    type before the first semicolon; the session types are [temporary]
    only and the persistent state is [optional]. *)
Theorem access_configuration_is_supported
    (isTypeSupported : string -> string -> bool) (keySystem : string)
    (supportedConfigurations
       : list PatchedMediaKeysMs.MediaKeySystemConfiguration)
    (access : PatchedMediaKeysMs.MediaKeySystemAccess) :
  PatchedMediaKeysMs.newMediaKeySystemAccess isTypeSupported keySystem
    supportedConfigurations = PatchedMediaKeysMs.Normal access ->
  let answer := PatchedMediaKeysMs.getConfiguration access in
  PatchedMediaKeysMs.keySystem access = keySystem
  /\ PatchedMediaKeysMs.sessionTypes answer = Some ["temporary"%string]
  /\ PatchedMediaKeysMs.persistentState answer = Some "optional"%string
  /\ exists cfg,
       In cfg supportedConfigurations
       /\ PatchedMediaKeysMs.persistentState cfg <> Some "required"%string
       /\ PatchedMediaKeysMs.label answer = PatchedMediaKeysMs.label cfg
       /\ PatchedMediaKeysMs.initDataTypes answer
          = PatchedMediaKeysMs.initDataTypes cfg
       /\ (forall cap,
             In cap (capabilitiesOf
                       (PatchedMediaKeysMs.audioCapabilities answer)) ->
             In cap (capabilitiesOf (PatchedMediaKeysMs.audioCapabilities cfg))
             /\ exists t,
                  PatchedMediaKeysMs.contentType cap = Some t
                  /\ isTypeSupported keySystem
                       (PatchedMediaKeysMs.beforeSemicolon t) = true)
       /\ (forall cap,
             In cap (capabilitiesOf
                       (PatchedMediaKeysMs.videoCapabilities answer)) ->
             In cap (capabilitiesOf (PatchedMediaKeysMs.videoCapabilities cfg))
             /\ exists t,
                  PatchedMediaKeysMs.contentType cap = Some t
                  /\ isTypeSupported keySystem
                       (PatchedMediaKeysMs.beforeSemicolon t) = true).
Proof.
  unfold PatchedMediaKeysMs.newMediaKeySystemAccess.
  rewrite selectConfiguration_spec.
  destruct (find _ supportedConfigurations) as [cfg|] eqn:F; [|discriminate].
  intros [= <-]. cbv zeta.
  apply find_some in F. destruct F as [Hin Hacc].
  unfold acceptable in Hacc. apply andb_true_iff in Hacc.
  destruct Hacc as [Hreq _].
  cbn [PatchedMediaKeysMs.getConfiguration PatchedMediaKeysMs.configuration_
       PatchedMediaKeysMs.keySystem answerTo
       PatchedMediaKeysMs.sessionTypes PatchedMediaKeysMs.persistentState
       PatchedMediaKeysMs.label PatchedMediaKeysMs.initDataTypes
       PatchedMediaKeysMs.audioCapabilities
       PatchedMediaKeysMs.videoCapabilities capabilitiesOf].
  split; [reflexivity|]. split; [reflexivity|]. split; [reflexivity|].
  exists cfg. split; [assumption|]. split.
  { intros E. rewrite E in Hreq. discriminate. }
  split; [reflexivity|]. split; [reflexivity|].
  split; intros cap H; apply filter_In in H; destruct H as [H1 H2];
    (split; [assumption | now apply supportedCapability_inv]).
Qed.

Lemma access_configuration_is_supported_witness :
  PatchedMediaKeysMs.keySystem
    (PatchedMediaKeysMs.mkAccess "com.microsoft.playready"
       (answerTo (fun _ t => String.eqb t "video/mp4")
          "com.microsoft.playready"
          (PatchedMediaKeysMs.mkConfiguration None None None
             (Some [PatchedMediaKeysMs.mkCapability
                      (Some "video/mp4; codecs=avc1"%string) None;
                    PatchedMediaKeysMs.mkCapability
                      (Some "video/webm"%string) None])
             None None None)))
  = "com.microsoft.playready"%string.
Proof.
  refine (proj1 (@access_configuration_is_supported
                   (fun _ t => String.eqb t "video/mp4")
                   "com.microsoft.playready"
                   [PatchedMediaKeysMs.mkConfiguration None None None
                      (Some [PatchedMediaKeysMs.mkCapability
                               (Some "video/mp4; codecs=avc1"%string) None;
                             PatchedMediaKeysMs.mkCapability
                               (Some "video/webm"%string) None])
                      None None None]
                   _ _)).
  reflexivity.
Defined.

(** X13: A request in which every configuration requires persistent state is
    turned down, whatever the platform supports: the promise of
    [requestMediaKeySystemAccess] is rejected with [NotSupportedError].  So
    is the empty request. *)
Theorem persistent_state_is_never_granted
    (isTypeSupported : string -> string -> bool) (keySystem : string)
    (supportedConfigurations
       : list PatchedMediaKeysMs.MediaKeySystemConfiguration) :
  Forall (fun cfg => PatchedMediaKeysMs.persistentState cfg
                     = Some "required"%string)
         supportedConfigurations ->
  PatchedMediaKeysMs.requestMediaKeySystemAccess isTypeSupported keySystem
    supportedConfigurations
  = inr PatchedMediaKeysMs.unsupportedKeySystemError.
Proof.
  intros H. unfold PatchedMediaKeysMs.requestMediaKeySystemAccess,
    PatchedMediaKeysMs.newMediaKeySystemAccess.
  rewrite selectConfiguration_spec.
  replace (find (acceptable isTypeSupported keySystem) supportedConfigurations)
    with (@None PatchedMediaKeysMs.MediaKeySystemConfiguration);
    [reflexivity|].
  symmetry. induction H as [|cfg cfgs Hc _ IH]; [reflexivity|].
  cbn [find]. unfold acceptable at 1. rewrite Hc. exact IH.
Qed.

Lemma persistent_state_is_never_granted_witness :
  PatchedMediaKeysMs.requestMediaKeySystemAccess (fun _ _ => true)
    "com.microsoft.playready"
    [PatchedMediaKeysMs.mkConfiguration None None None
       (Some [PatchedMediaKeysMs.mkCapability (Some "video/mp4"%string) None])
       None (Some "required"%string) None]
  = inr PatchedMediaKeysMs.unsupportedKeySystemError.
Proof.
  apply (@persistent_state_is_never_granted (fun _ _ => true)
           "com.microsoft.playready").
  repeat constructor.
Defined.

(** X14: [createSession] makes a session exactly for the session types
    [undefined], the empty string and [temporary], and the session is then
    a new one; for any other type it returns nothing and throws an error
    whose name is [TypeError]. *)
Theorem createSession_temporary_only
    (nativeMediaKeys : nat) (sessionType : option string)
    (pg : PatchedMediaKeysMs.page) :
  ((exists r,
      PatchedMediaKeysMs.createSession nativeMediaKeys sessionType pg
      = PatchedMediaKeysMs.Normal r)
   <-> (sessionType = None \/ sessionType = Some EmptyString
        \/ sessionType = Some "temporary"%string))
  /\ (sessionType = None \/ sessionType = Some EmptyString
      \/ sessionType = Some "temporary"%string ->
      PatchedMediaKeysMs.createSession nativeMediaKeys sessionType pg
      = PatchedMediaKeysMs.Normal
          (PatchedMediaKeysMs.newMediaKeySession nativeMediaKeys "temporary"
             pg))
  /\ (~ (sessionType = None \/ sessionType = Some EmptyString
         \/ sessionType = Some "temporary"%string) ->
      exists e,
        PatchedMediaKeysMs.createSession nativeMediaKeys sessionType pg
        = PatchedMediaKeysMs.Abrupt e
        /\ PatchedMediaKeysMs.errName e = "TypeError"%string).
Proof.
  unfold PatchedMediaKeysMs.createSession, PatchedMediaKeysMs.truthyString.
  destruct sessionType as [s|].
  - destruct (String.eqb_spec s EmptyString) as [->|Hne]; cbn [negb].
    + split; [split; [auto | intros _; eexists; reflexivity]|].
      split; [reflexivity | intros H; exfalso; apply H; auto].
    + destruct (String.eqb_spec s "temporary") as [->|Hnt]; cbn [negb].
      * split; [split; [auto | intros _; eexists; reflexivity]|].
        split; [reflexivity | intros H; exfalso; apply H; auto].
      * assert (No : ~ (Some s = None \/ Some s = Some EmptyString
                        \/ Some s = Some "temporary"%string)).
        { intros [H|[H|H]]; [discriminate | | ]; injection H as ->;
            contradiction. }
        split; [split; [intros [r [=]] | intros H; contradiction]|].
        split; [intros H; contradiction|].
        intros _. eexists. split; reflexivity.
  - split; [split; [auto | intros _; eexists; reflexivity]|].
    split; [reflexivity | intros H; exfalso; apply H; auto].
Qed.

(** X15: Every session type that a configuration returned by [getConfiguration]
    advertises is one [createSession] accepts, and the session it makes
    starts without a key status, without a native session, and with a
    [closed] promise that is new and pending. *)
Theorem advertised_session_types_are_accepted
    (isTypeSupported : string -> string -> bool) (keySystem : string)
    (supportedConfigurations
       : list PatchedMediaKeysMs.MediaKeySystemConfiguration)
    (access : PatchedMediaKeysMs.MediaKeySystemAccess)
    (nativeMediaKeys : nat) (pg : PatchedMediaKeysMs.page)
    (sessionType : string) :
  PatchedMediaKeysMs.newMediaKeySystemAccess isTypeSupported keySystem
    supportedConfigurations = PatchedMediaKeysMs.Normal access ->
  In sessionType
     (match PatchedMediaKeysMs.sessionTypes
              (PatchedMediaKeysMs.getConfiguration access) with
      | Some l => l
      | None => []
      end) ->
  exists s pg',
    PatchedMediaKeysMs.createSession nativeMediaKeys (Some sessionType) pg
    = PatchedMediaKeysMs.Normal (s, pg')
    /\ PatchedMediaKeysMs.size (PatchedMediaKeysMs.keyStatuses s) = 0
    /\ PatchedMediaKeysMs.nativeMediaKeySession_ s = None
    /\ PatchedMediaKeysMs.promiseAt pg' (PatchedMediaKeysMs.closed s)
       = PatchedMediaKeysMs.Pending
    /\ List.length (PatchedMediaKeysMs.promises pg)
       <= PatchedMediaKeysMs.closed s.
Proof.
  unfold PatchedMediaKeysMs.newMediaKeySystemAccess.
  rewrite selectConfiguration_spec.
  destruct (find _ supportedConfigurations) as [cfg|]; [|discriminate].
  intros [= <-]. cbn. intros [<-|[]].
  eexists. eexists. split; [reflexivity|].
  cbn. repeat split.
  - unfold PatchedMediaKeysMs.promiseAt. cbn. now rewrite nth_middle.
  - lia.
Qed.

Lemma advertised_session_types_are_accepted_witness :
  exists s pg',
    PatchedMediaKeysMs.createSession 7 (Some "temporary"%string)
      (PatchedMediaKeysMs.mkPage [] [])
    = PatchedMediaKeysMs.Normal (s, pg')
    /\ PatchedMediaKeysMs.size (PatchedMediaKeysMs.keyStatuses s) = 0
    /\ PatchedMediaKeysMs.nativeMediaKeySession_ s = None
    /\ PatchedMediaKeysMs.promiseAt pg' (PatchedMediaKeysMs.closed s)
       = PatchedMediaKeysMs.Pending
    /\ List.length
         (PatchedMediaKeysMs.promises (PatchedMediaKeysMs.mkPage [] []))
       <= PatchedMediaKeysMs.closed s.
Proof.
  apply (@advertised_session_types_are_accepted
           (fun _ _ => true) "com.microsoft.playready"
           [PatchedMediaKeysMs.mkConfiguration None None None None None None
              None]
           (PatchedMediaKeysMs.mkAccess "com.microsoft.playready"
              (answerTo (fun _ _ => true) "com.microsoft.playready"
                 (PatchedMediaKeysMs.mkConfiguration None None None None None
                    None None)))
           7 (PatchedMediaKeysMs.mkPage [] []) "temporary").
  - reflexivity.
  - simpl. now left.
Defined.

(** ** MediaKeySession *)

Section SessionFacts.

Import PatchedMediaKeysMs.
Variable nativeCreateSession : nat -> string -> bytes -> completion nat.
Variable nativeUpdate : nat -> bytes -> completion unit.
Variable nativeClose : nat -> completion unit.

Lemma setNth_middle {A} (l r : list A) (x y : A) :
  setNth (List.length l) x (l ++ y :: r) = l ++ x :: r.
Proof. induction l as [|a l IH]; simpl; congruence. Qed.

(** Settling the promise made last. *)
Lemma settle_fresh (l : list promiseState) (d : list FakeEvent)
    (st : promiseState) :
  settle (List.length l) st (mkPage (l ++ [Pending]) d)
  = mkPage (l ++ [st]) d.
Proof.
  unfold settle, promiseAt. cbn [promises dispatched].
  now rewrite nth_middle, setNth_middle.
Qed.

Lemma promiseAt_last (l : list promiseState) (d : list FakeEvent)
    (st : promiseState) :
  promiseAt (mkPage (l ++ [st]) d) (List.length l) = st.
Proof. unfold promiseAt. cbn [promises]. apply nth_middle. Qed.


Lemma dispatched_settle ref st pg :
  dispatched (settle ref st pg) = dispatched pg.
Proof. unfold settle. destruct (promiseAt pg ref); reflexivity. Qed.

(** What one call or event does to the key status and to the events
    dispatched: nothing, or a [message] event, or a new status together
    with its [keystatuseschange] event. *)
Lemma step_cases (st : MediaKeySession * page) (c : sessionCall) :
  let st' := step nativeCreateSession nativeUpdate nativeClose st c in
  (keyStatuses (fst st') = keyStatuses (fst st)
   /\ (dispatched (snd st') = dispatched (snd st)
       \/ exists mt m,
            dispatched (snd st')
            = dispatched (snd st) ++ [mkEvent "message" (Some mt) (Some m)]))
  \/ (exists status,
        In status ["status-pending"; "usable"; "output-not-allowed";
                   "internal-error"]%string
        /\ keyStatuses (fst st')
           = setStatus (Some status) (keyStatuses (fst st))
        /\ dispatched (snd st')
           = dispatched (snd st) ++ [mkEvent "keystatuseschange" None None]).
Proof.
  destruct st as [s pg].
  destruct c as [t d| |response| | |m| |code]; cbn [step fst snd].
  - unfold generateRequest. cbn [newPromise].
    destruct (nativeCreateSession _ _ _); cbn [fst snd].
    + right. exists "status-pending"%string. simpl. tauto.
    + left. unfold reject. rewrite dispatched_settle. simpl. tauto.
  - left. simpl. tauto.
  - unfold update. cbn [newPromise setUpdatePromise nativeMediaKeySession_].
    destruct (nativeMediaKeySession_ s) as [n|];
      [destruct (nativeUpdate n response)|]; cbn [fst snd];
      left; unfold reject; rewrite ?dispatched_settle; simpl; tauto.
  - unfold close.
    destruct (nativeMediaKeySession_ s) as [n|];
      [destruct (nativeClose n)|]; cbn [fst snd];
      left; unfold resolve, reject; rewrite ?dispatched_settle; simpl; tauto.
  - left. simpl. tauto.
  - destruct (hears "mskeymessage" s); [|left; tauto].
    left. unfold onMsKeyMessage_.
    destruct (generateRequestPromise_ s); cbn [fst snd];
      (split; [reflexivity|]); right; do 2 eexists;
      unfold resolve; cbn [dispatchEvent dispatched];
      rewrite ?dispatched_settle; reflexivity.
  - destruct (hears "mskeyadded" s); [|left; tauto].
    unfold onMsKeyAdded_.
    destruct (generateRequestPromise_ s);
      [|destruct (updatePromise_ s)]; cbn [fst snd updateKeyStatus_].
    + right. exists "usable"%string. unfold resolve.
      rewrite dispatched_settle. simpl. tauto.
    + right. exists "usable"%string. unfold resolve.
      rewrite dispatched_settle. simpl. tauto.
    + left. tauto.
  - destruct (hears "mskeyerror" s); [|left; tauto].
    unfold onMsKeyError_.
    destruct (nativeMediaKeySession_ s); [|left; tauto].
    destruct (generateRequestPromise_ s);
      [|destruct (updatePromise_ s)]; cbn [fst snd].
    + left. unfold reject. rewrite dispatched_settle. simpl. tauto.
    + left. unfold reject. rewrite dispatched_settle. simpl. tauto.
    + destruct (_ || _); cbn [fst snd updateKeyStatus_]; right;
        [exists "output-not-allowed"%string
        | exists "internal-error"%string]; simpl; tauto.
Qed.


(** X16: Every change of the key status is announced: a call or an event
    dispatches at most one event, never withdraws one, and when it leaves
    the session with another key status than before, the event it
    dispatches is [keystatuseschange]. *)
Theorem status_changes_are_announced
    (st : MediaKeySession * page) (c : sessionCall) :
  let st' := step nativeCreateSession nativeUpdate nativeClose st c in
  exists new,
    dispatched (snd st') = dispatched (snd st) ++ new
    /\ List.length new <= 1
    /\ (status_ (keyStatuses (fst st')) <> status_ (keyStatuses (fst st)) ->
        new = [mkEvent "keystatuseschange" None None]).
Proof.
  intros st'. subst st'.
  destruct (step_cases st c) as [[K [D|(mt & m & D)]]|(status & _ & K & D)].
  - exists []. rewrite app_nil_r. split; [assumption|]. split; [simpl; lia|].
    rewrite K. congruence.
  - eexists. split; [exact D|]. split; [simpl; lia|]. rewrite K. congruence.
  - eexists. split; [exact D|]. split; [simpl; lia | reflexivity].
Qed.

Lemma run_snoc st cs c :
  run nativeCreateSession nativeUpdate nativeClose st (cs ++ [c])
  = step nativeCreateSession nativeUpdate nativeClose
      (run nativeCreateSession nativeUpdate nativeClose st cs) c.
Proof. unfold run. now rewrite fold_left_app. Qed.

Lemma step_status_invariant st c :
  sizeInvariant (keyStatuses (fst st)) ->
  sessionStatus (status_ (keyStatuses (fst st))) ->
  let st' := step nativeCreateSession nativeUpdate nativeClose st c in
  sizeInvariant (keyStatuses (fst st'))
  /\ sessionStatus (status_ (keyStatuses (fst st')))
  /\ (status_ (keyStatuses (fst st)) <> None ->
      status_ (keyStatuses (fst st')) <> None).
Proof.
  intros I V st'. subst st'.
  destruct (step_cases st c) as [[K _]|(status & Hin & K & _)]; rewrite K.
  - tauto.
  - split; [reflexivity|]. split; [|discriminate].
    unfold sessionStatus. cbn [setStatus status_].
    simpl in Hin. destruct Hin as [<-|[<-|[<-|[<-|[]]]]]; tauto.
Qed.

(** X17: Throughout the life of a session, whatever is called on it and
    whatever the native session fires: [keyStatuses.size] is 1 exactly when
    a status is set, the status is one of [status-pending], [usable],
    [output-not-allowed] and [internal-error], and a status once set is
    never unset. *)
Theorem session_status_invariant
    (nativeMediaKeys : nat) (sessionType : string) (pg : page)
    (calls more : list sessionCall) :
  let start := newMediaKeySession nativeMediaKeys sessionType pg in
  let st := run nativeCreateSession nativeUpdate nativeClose start calls in
  let st' := run nativeCreateSession nativeUpdate nativeClose st more in
  sizeInvariant (keyStatuses (fst st))
  /\ sessionStatus (status_ (keyStatuses (fst st)))
  /\ (status_ (keyStatuses (fst st)) <> None ->
      status_ (keyStatuses (fst st')) <> None).
Proof.
  intros start st st'.
  assert (A : forall cs from,
             sizeInvariant (keyStatuses (fst from)) ->
             sessionStatus (status_ (keyStatuses (fst from))) ->
             let to := run nativeCreateSession nativeUpdate nativeClose
                         from cs in
             sizeInvariant (keyStatuses (fst to))
             /\ sessionStatus (status_ (keyStatuses (fst to)))
             /\ (status_ (keyStatuses (fst from)) <> None ->
                 status_ (keyStatuses (fst to)) <> None)).
  { induction cs as [|c cs IH] using rev_ind; intros from I V to; subst to.
    - cbn. tauto.
    - rewrite run_snoc. destruct (IH from I V) as (I' & V' & M').
      destruct (step_status_invariant
                  (run nativeCreateSession nativeUpdate nativeClose from cs)
                  c I' V') as (I'' & V'' & M'').
      tauto. }
  assert (S0 : sizeInvariant (keyStatuses (fst start))
               /\ sessionStatus (status_ (keyStatuses (fst start)))).
  { subst start. cbn. split; [reflexivity | now left]. }
  destruct (A calls start (proj1 S0) (proj2 S0)) as (I & V & _).
  destruct (A more st I V) as (_ & _ & M).
  exact (conj I (conj V M)).
Qed.



(** X19: Calling [update] or [close] on a session on which [generateRequest]
    was never called does not throw: the promise returned is rejected with
    the [TypeError] of the missing native session, no key status is set and
    no event is dispatched. *)
Theorem calls_before_generateRequest_are_rejected
    (nativeMediaKeys : nat) (sessionType : option string) (pg : page)
    (s : MediaKeySession) (pg1 : page) (response : bytes) :
  createSession nativeMediaKeys sessionType pg = Normal (s, pg1) ->
  let u := update nativeUpdate response s pg1 in
  let c := close nativeClose s pg1 in
  (exists e, promiseAt (snd (snd u)) (fst u) = Rejected e
             /\ errName e = "TypeError"%string)
  /\ (exists e, promiseAt (snd (snd c)) (fst c) = Rejected e
                /\ errName e = "TypeError"%string)
  /\ fst c = closed s
  /\ getStatus (keyStatuses (fst (snd u))) = None
  /\ getStatus (keyStatuses (fst (snd c))) = None
  /\ dispatched (snd (snd u)) = dispatched pg
  /\ dispatched (snd (snd c)) = dispatched pg.
Proof.
  unfold createSession.
  destruct (negb _); [discriminate|].
  destruct pg as [ps ds].
  unfold newMediaKeySession. cbn [newPromise promises dispatched].
  intros [= <- <-]. cbv zeta.
  unfold update, close.
  cbn [newPromise setUpdatePromise nativeMediaKeySession_ closed fst snd
       promises dispatched keyStatuses].
  unfold reject. rewrite settle_fresh, (@settle_fresh ps ds).
  rewrite promiseAt_last, (@promiseAt_last ps ds).
  repeat split; try reflexivity; eexists; split; reflexivity.
Qed.

(** The three listeners [generateRequest] attaches. *)
Lemma hears_after_listen (name : string) (ls : list string) :
  In name ["mskeymessage"; "mskeyadded"; "mskeyerror"]%string ->
  existsb (String.eqb name)
    (ls ++ ["mskeymessage"; "mskeyadded"; "mskeyerror"]%string) = true.
Proof.
  intros H. rewrite existsb_app. apply Bool.orb_true_iff. right.
  simpl in H. destruct H as [<-|[<-|[<-|[]]]]; reflexivity.
Qed.

Ltac unfoldSession :=
  unfold updateKeyStatus_, setGenerateRequestPromise, setUpdatePromise,
    dispatchEvent, reject, resolve, getStatus,
    MS_MEDIA_KEYERR_OUTPUT, MS_MEDIA_KEYERR_HARDWARECHANGE;
  cbn [fst snd generateRequestPromise_ updatePromise_ nativeMediaKeySession_
       nativeMediaKeys_ sessionId closed keyStatuses listening promises
       dispatched setStatus status_ looselyUndefined].

(** X20: A key error while the request of [generateRequest] is outstanding
    rejects that request with an error carrying the native code and leaves
    the key status at [status-pending]; a key error that finds no promise
    outstanding changes the key status instead, to [output-not-allowed]
    for the codes [MS_MEDIA_KEYERR_OUTPUT] and
    [MS_MEDIA_KEYERR_HARDWARECHANGE] and to [internal-error] for every
    other code, and leaves the rejected promise as it is. *)
Theorem key_errors_reject_then_set_status
    (s : MediaKeySession) (pg : page) (initDataType_ : string)
    (initData_ : bytes) (native code1 code2 : nat) :
  nativeCreateSession (nativeMediaKeys_ s) "video/mp4" initData_
    = Normal native ->
  updatePromise_ s = None ->
  let r := generateRequest nativeCreateSession initDataType_ initData_ s pg in
  let st1 :=
    step nativeCreateSession nativeUpdate nativeClose (snd r)
      (fireKeyError code1) in
  let st2 :=
    step nativeCreateSession nativeUpdate nativeClose st1
      (fireKeyError code2) in
  let error1 :=
    mkError "Error" "EME PatchedMediaKeysMs key error" (Some code1) in
  promiseAt (snd st1) (fst r) = Rejected error1
  /\ getStatus (keyStatuses (fst st1)) = Some "status-pending"%string
  /\ dispatched (snd st1)
     = dispatched pg ++ [mkEvent "keystatuseschange" None None]
  /\ promiseAt (snd st2) (fst r) = Rejected error1
  /\ getStatus (keyStatuses (fst st2))
     = Some (if Nat.eqb code2 4 || Nat.eqb code2 5
             then "output-not-allowed" else "internal-error")%string
  /\ dispatched (snd st2)
     = dispatched pg ++ [mkEvent "keystatuseschange" None None;
                         mkEvent "keystatuseschange" None None].
Proof.
  intros Hn Hu.
  destruct s as [ns nk gp up sid cl ks ls]. destruct pg as [ps ds].
  cbn [nativeMediaKeys_ updatePromise_] in Hn, Hu. subst up.
  unfold generateRequest.
  cbn [newPromise setGenerateRequestPromise nativeMediaKeys_ promises
       dispatched]. rewrite Hn. cbv zeta.
  unfoldSession. cbn [step]. unfold hears. cbn [listening].
  rewrite hears_after_listen by (simpl; tauto).
  unfold onMsKeyError_. unfoldSession.
  rewrite settle_fresh. cbn [step]. unfold hears. cbn [listening].
  rewrite hears_after_listen by (simpl; tauto).
  unfold onMsKeyError_. unfoldSession.
  rewrite promiseAt_last.
  destruct (Nat.eqb code2 4 || Nat.eqb code2 5); unfoldSession;
    rewrite promiseAt_last, <- app_assoc; repeat split; reflexivity.
Qed.



Lemma nth_setNth_other {A} (l : list A) (r ref : nat) (x d : A) :
  r <> ref -> nth ref (setNth r x l) d = nth ref l d.
Proof.
  revert r ref.
  induction l as [|a l IH]; intros [|r] [|ref] H; simpl;
    try reflexivity; try congruence.
  apply IH. congruence.
Qed.

Lemma promiseAt_settle_other ref r st pg :
  r <> ref -> promiseAt (settle r st pg) ref = promiseAt pg ref.
Proof.
  intros H. unfold settle.
  destruct (promiseAt pg r); try reflexivity.
  unfold promiseAt. cbn [promises]. now apply nth_setNth_other.
Qed.

Lemma promiseAt_grown_lt pg ref x d :
  ref < List.length (promises pg) ->
  promiseAt (mkPage (promises pg ++ [x]) d) ref = promiseAt pg ref.
Proof. intros H. unfold promiseAt. cbn [promises]. now apply app_nth1. Qed.

Lemma length_setNth {A} (l : list A) (n : nat) (x : A) :
  List.length (setNth n x l) = List.length l.
Proof.
  revert n. induction l as [|a l IH]; intros [|n]; simpl; try reflexivity.
  now rewrite IH.
Qed.

Lemma length_settle ref st pg :
  List.length (promises (settle ref st pg)) = List.length (promises pg).
Proof.
  unfold settle. destruct (promiseAt pg ref); try reflexivity.
  cbn [promises]. apply length_setNth.
Qed.

(** While [close] has not been called, the promise [closed] is in the
    page, pending, and none of the two promises the session holds. *)
Lemma step_keeps_closed_pending st c :
  c <> callClose ->
  closed (fst st) < List.length (promises (snd st)) ->
  (forall p, generateRequestPromise_ (fst st) = Some p -> p <> closed (fst st)) ->
  (forall p, updatePromise_ (fst st) = Some p -> p <> closed (fst st)) ->
  promiseAt (snd st) (closed (fst st)) = Pending ->
  let st' := step nativeCreateSession nativeUpdate nativeClose st c in
  closed (fst st') = closed (fst st)
  /\ closed (fst st') < List.length (promises (snd st'))
  /\ (forall p, generateRequestPromise_ (fst st') = Some p ->
                p <> closed (fst st'))
  /\ (forall p, updatePromise_ (fst st') = Some p -> p <> closed (fst st'))
  /\ promiseAt (snd st') (closed (fst st')) = Pending.
Proof.
  destruct st as [s pg]. cbn [fst snd]. intros Hc L G U P.
  assert (Fresh : List.length (promises pg) <> closed s) by lia.
  assert (Grown : forall x d,
             promiseAt (mkPage (promises pg ++ [x]) d) (closed s) = Pending).
  { intros x d. now rewrite promiseAt_grown_lt. }
  assert (Longer : closed s < List.length (promises pg ++ [Pending])).
  { rewrite length_app. simpl. lia. }
  assert (Settled : forall p st d,
             p <> closed s ->
             promiseAt (mkPage (promises (settle p st pg)) d) (closed s)
             = Pending).
  { intros p st d Hp.
    change (promiseAt (settle p st pg) (closed s) = Pending).
    now rewrite promiseAt_settle_other. }
  assert (SettledGrown : forall st d,
             promiseAt
               (settle (List.length (promises pg)) st
                  (mkPage (promises pg ++ [Pending]) d)) (closed s)
             = Pending).
  { intros st d. rewrite promiseAt_settle_other by assumption. apply Grown. }
  destruct c as [t d| |response| | |m| |code]; cbn [step]; try congruence.
  - unfold generateRequest. cbn [newPromise].
    destruct (nativeCreateSession _ _ _); cbn [fst snd];
      unfold updateKeyStatus_, setGenerateRequestPromise, dispatchEvent,
        reject;
      cbn [fst snd closed generateRequestPromise_ updatePromise_ promises];
      rewrite ?length_settle; cbn [promises];
      repeat split; try assumption; try (now intros ? [= <-]);
      first [apply Grown | apply SettledGrown].
  - unfold load, rejectedPromise. cbn [fst snd promises].
    rewrite length_app. simpl.
    repeat split; try assumption; try lia. apply Grown.
  - unfold update. cbn [newPromise setUpdatePromise nativeMediaKeySession_].
    destruct (nativeMediaKeySession_ s) as [n|];
      [destruct (nativeUpdate n response)|];
      cbn [fst snd closed generateRequestPromise_ updatePromise_ promises];
      unfold reject; rewrite ?length_settle; cbn [promises];
      repeat split; try assumption; try (now intros ? [= <-]);
      first [apply Grown | apply SettledGrown].
  - unfold remove, rejectedPromise. cbn [fst snd promises].
    rewrite length_app. simpl.
    repeat split; try assumption; try lia. apply Grown.
  - destruct (hears "mskeymessage" s);
      [|cbn [fst snd]; repeat split; assumption].
    unfold onMsKeyMessage_.
    destruct (generateRequestPromise_ s) as [p|] eqn:E;
      cbn [fst snd]; unfold setGenerateRequestPromise, dispatchEvent, resolve;
      cbn [fst snd closed generateRequestPromise_ updatePromise_ promises];
      rewrite ?length_settle, ?E;
      repeat split; try assumption; try (intros ? [=]);
      first [exact P | apply Settled; apply G; reflexivity].
  - destruct (hears "mskeyadded" s);
      [|cbn [fst snd]; repeat split; assumption].
    unfold onMsKeyAdded_.
    destruct (generateRequestPromise_ s) as [p|] eqn:E;
      [|destruct (updatePromise_ s) as [p|] eqn:E'];
      unfold updateKeyStatus_, setGenerateRequestPromise, setUpdatePromise,
        dispatchEvent, resolve;
      cbn [fst snd closed generateRequestPromise_ updatePromise_ promises];
      rewrite ?length_settle, ?E, ?E'; cbn [promises];
      repeat split; try assumption; try (intros ? [=]);
      first [exact P
            | rewrite promiseAt_settle_other;
              [exact P | solve [apply G; reflexivity | apply U; reflexivity]]].
  - destruct (hears "mskeyerror" s);
      [|cbn [fst snd]; repeat split; assumption].
    unfold onMsKeyError_.
    destruct (nativeMediaKeySession_ s);
      [|cbn [fst snd]; repeat split; assumption].
    destruct (generateRequestPromise_ s) as [p|] eqn:E;
      [|destruct (updatePromise_ s) as [p|] eqn:E';
        [|destruct (Nat.eqb code MS_MEDIA_KEYERR_OUTPUT
                    || Nat.eqb code MS_MEDIA_KEYERR_HARDWARECHANGE)]];
      unfold updateKeyStatus_, setGenerateRequestPromise, setUpdatePromise,
        dispatchEvent, reject;
      cbn [fst snd closed generateRequestPromise_ updatePromise_ promises];
      rewrite ?length_settle, ?E, ?E'; cbn [promises];
      repeat split; try assumption; try (intros ? [=]);
      first [exact P
            | rewrite promiseAt_settle_other;
              [exact P | solve [apply G; reflexivity | apply U; reflexivity]]].
Qed.

(** X24: The promise [closed] of a session is settled by [close] and by
    nothing else: however the session is used, as long as [close] is not
    called the promise is pending and is neither the promise of
    [generateRequest] nor that of [update] the session holds; the first
    [close] resolves it when the native session closes, and rejects it with
    what the native [close] throws, or with the error of the missing native
    session when [generateRequest] never created one. *)
Theorem closed_settles_on_close_only
    (nativeMediaKeys : nat) (sessionType : string) (pg : page)
    (calls : list sessionCall) :
  ~ In callClose calls ->
  let st :=
    run nativeCreateSession nativeUpdate nativeClose
      (newMediaKeySession nativeMediaKeys sessionType pg) calls in
  let c := close nativeClose (fst st) (snd st) in
  promiseAt (snd st) (closed (fst st)) = Pending
  /\ generateRequestPromise_ (fst st) <> Some (closed (fst st))
  /\ updatePromise_ (fst st) <> Some (closed (fst st))
  /\ closed (fst st) = List.length (promises pg)
  /\ fst c = closed (fst st)
  /\ promiseAt (snd (snd c)) (fst c)
     = match nativeMediaKeySession_ (fst st) with
       | None => Rejected nullDereference
       | Some native =>
           match nativeClose native with
           | Normal _ => Resolved
           | Abrupt exception => Rejected exception
           end
       end.
Proof.
  intros Hc st c.
  assert (I : closed (fst st) = List.length (promises pg)
              /\ closed (fst st) < List.length (promises (snd st))
              /\ (forall p, generateRequestPromise_ (fst st) = Some p ->
                            p <> closed (fst st))
              /\ (forall p, updatePromise_ (fst st) = Some p ->
                            p <> closed (fst st))
              /\ promiseAt (snd st) (closed (fst st)) = Pending).
  { subst st. clear c.
    induction calls as [|x cs IH] using rev_ind.
    - unfold run, newMediaKeySession.
      cbn [fold_left newPromise fst snd closed promises
           generateRequestPromise_ updatePromise_].
      rewrite length_app. simpl List.length.
      split; [reflexivity|]. split; [lia|].
      split; [discriminate|]. split; [discriminate|].
      apply promiseAt_last.
    - rewrite run_snoc.
      assert (Hx : x <> callClose).
      { intros ->. apply Hc, in_or_app. right. now left. }
      assert (Hcs : ~ In callClose cs).
      { intros H. apply Hc, in_or_app. now left. }
      destruct (IH Hcs) as (C0 & L & G & U & P).
      destruct (step_keeps_closed_pending _ Hx L G U P)
        as (C' & L' & G' & U' & P').
      split; [congruence | tauto]. }
  destruct I as (C0 & L & G & U & P).
  split; [exact P|].
  split; [intros H; exact (G _ H eq_refl)|].
  split; [intros H; exact (U _ H eq_refl)|].
  split; [exact C0|].
  subst c. unfold close.
  destruct (nativeMediaKeySession_ (fst st)) as [n|];
    [destruct (nativeClose n)|]; cbn [fst snd]; (split; [reflexivity|]);
    unfold resolve, reject, settle; rewrite P;
    unfold promiseAt; cbn [promises];
    destruct (nth_split (promises (snd st)) Pending L) as (l1 & l2 & E & El);
    rewrite E, <- El, setNth_middle; apply nth_middle.
Qed.

End SessionFacts.

Lemma calls_before_generateRequest_are_rejected_witness :
  let update := fun (_ : nat) (_ : bytes) => PatchedMediaKeysMs.Normal tt in
  let start :=
    PatchedMediaKeysMs.newMediaKeySession 1 "temporary"
      (PatchedMediaKeysMs.mkPage [] []) in
  PatchedMediaKeysMs.createSession 1 None (PatchedMediaKeysMs.mkPage [] [])
  = PatchedMediaKeysMs.Normal start
  /\ PatchedMediaKeysMs.getStatus
       (PatchedMediaKeysMs.keyStatuses
          (fst (snd (PatchedMediaKeysMs.update update [Byte.x01] (fst start)
                       (snd start)))))
     = None.
Proof.
  intros update start. split; [reflexivity|].
  exact (proj1 (proj2 (proj2 (proj2
           (@calls_before_generateRequest_are_rejected
              update (fun _ => PatchedMediaKeysMs.Normal tt) 1 None
              (PatchedMediaKeysMs.mkPage [] []) (fst start) (snd start)
              [Byte.x01] eq_refl))))).
Defined.

Lemma key_errors_reject_then_set_status_witness :
  let create := fun (_ : nat) (_ : string) (_ : bytes) =>
                  PatchedMediaKeysMs.Normal 7 in
  let update := fun (_ : nat) (_ : bytes) => PatchedMediaKeysMs.Normal tt in
  let close := fun (_ : nat) => PatchedMediaKeysMs.Normal tt in
  let start :=
    PatchedMediaKeysMs.newMediaKeySession 1 "temporary"
      (PatchedMediaKeysMs.mkPage [] []) in
  let r :=
    PatchedMediaKeysMs.generateRequest create "cenc" [] (fst start)
      (snd start) in
  let st1 :=
    PatchedMediaKeysMs.step create update close (snd r)
      (PatchedMediaKeysMs.fireKeyError 2) in
  PatchedMediaKeysMs.promiseAt (snd st1) (fst r)
  = PatchedMediaKeysMs.Rejected
      (PatchedMediaKeysMs.mkError "Error" "EME PatchedMediaKeysMs key error"
         (Some 2)).
Proof.
  intros create update close start r st1.
  exact (proj1 (@key_errors_reject_then_set_status
                  create update close (fst start) (snd start) "cenc" [] 7
                  2 4 eq_refl eq_refl)).
Defined.



Lemma closed_settles_on_close_only_witness :
  let create := fun (_ : nat) (_ : string) (_ : bytes) =>
                  PatchedMediaKeysMs.Normal 7 in
  let update := fun (_ : nat) (_ : bytes) => PatchedMediaKeysMs.Normal tt in
  let close := fun (_ : nat) => PatchedMediaKeysMs.Normal tt in
  let st :=
    PatchedMediaKeysMs.run create update close
      (PatchedMediaKeysMs.newMediaKeySession 1 "temporary"
         (PatchedMediaKeysMs.mkPage [] []))
      [PatchedMediaKeysMs.callGenerateRequest "cenc" [];
       PatchedMediaKeysMs.fireKeyMessage [Byte.x01]] in
  PatchedMediaKeysMs.promiseAt (snd st) (PatchedMediaKeysMs.closed (fst st))
  = PatchedMediaKeysMs.Pending.
Proof.
  intros create update close st.
  refine (proj1 (@closed_settles_on_close_only create update close 1
                   "temporary" (PatchedMediaKeysMs.mkPage [] [])
                   [PatchedMediaKeysMs.callGenerateRequest "cenc" [];
                    PatchedMediaKeysMs.fireKeyMessage [Byte.x01]] _)).
  simpl. intros [H|[H|[]]]; discriminate.
Defined.
